(** * vidus-core: the session layer, embedded and verified

    A shallow embedding of the signaling channel ([SocketIO]), the peer
    transport's reconnection ([VideoPeer]), the room protocol ([Room],
    [Events]), the roster ([People]) and the media pipeline ([Media]),
    followed by the properties of each.

    Conventions.  A JavaScript object that is mutated in place is a record
    threaded through the functions.  What the code does to its host (timers,
    the socket, peer connections, local notifications) is appended to an
    effect log, in program order.  An exception is a constructor of the
    result type.  Numbers that the code computes with [Math.pow] and
    [Math.min] are exact rationals ([Q]); the values the shipped
    configuration produces are dyadic and small, so they are the values of
    the double-precision computation as well. *)

From Stdlib Require Import List String Ascii Bool Arith Lia.
From Stdlib Require Import ZArith QArith Qminmax Lqa.
Import ListNotations.

Local Close Scope Q_scope.
Local Open Scope string_scope.
Local Open Scope list_scope.
Local Open Scope nat_scope.

(** ** Shared vocabulary *)

(** Handle returned by the host's [setTimeout]; handles are positive, hence
    truthy, as in a browser. *)
Definition TimerId := nat.

(** What a reconnecting channel does to the outside world. *)
Inductive Effect : Type :=
| SetTimeout (id : TimerId) (ms : Q)   (* setTimeout(cb, ms) returned id *)
| ClearTimeout (id : TimerId)          (* clearTimeout(id) *)
| SocketOpen                           (* socket.open() *)
| SocketClose                          (* socket.close() *)
| PeerReconnect                        (* videoPeer.reconnect() *)
| Notify (name : string).              (* parent.emit(name, ...) *)

Definition is_SetTimeout (e : Effect) : bool :=
  match e with SetTimeout _ _ => true | _ => false end.

Definition is_Notify (e : Effect) : bool :=
  match e with Notify _ => true | _ => false end.

(** [Math.pow(b, e)] for a non-negative integer exponent. *)
Fixpoint Math_pow (b : Q) (e : nat) : Q :=
  match e with
  | O => 1%Q
  | S e' => (b * Math_pow b e')%Q
  end.

(** [Math.min] on two numbers. *)
Definition Math_min (a b : Q) : Q := Qmin a b.

(** *** Exceptions and calls that may throw *)

(** A thrown value, as far as the code looks at it: [error.name] (which a
    thrown non-Error value does not have) and [error.message]. *)
Record JSError : Type := mkError {
  err_name : option string;
  err_message : string
}.

Definition TypeError (m : string) : JSError := mkError (Some "TypeError") m.
Definition ReferenceError (m : string) : JSError :=
  mkError (Some "ReferenceError") m.
Definition PlainError (m : string) : JSError := mkError (Some "Error") m.

(** The outcome of a call on state [S]: a return value or a thrown error,
    with the state the call left behind. *)
Inductive Result (S A : Type) : Type :=
| Ok (a : A) (s : S)
| Throw (e : JSError) (s : S).
Arguments Ok {S A} a s.
Arguments Throw {S A} e s.

Definition M (S A : Type) : Type := S -> Result S A.

Definition ret {S A : Type} (a : A) : M S A := fun s => Ok a s.

Definition throw {S A : Type} (e : JSError) : M S A := fun s => Throw e s.

Definition bind {S A B : Type} (m : M S A) (k : A -> M S B) : M S B :=
  fun s =>
    match m s with
    | Ok a s' => k a s'
    | Throw e s' => Throw e s'
    end.

(** [try { body } catch (error) { handler }] *)
Definition try_catch {S A : Type} (body : M S A) (handler : JSError -> M S A)
    : M S A :=
  fun s =>
    match body s with
    | Ok a s' => Ok a s'
    | Throw e s' => handler e s'
    end.

(** A statement that only changes the state. *)
Definition modify {S : Type} (f : S -> S) : M S unit := fun s => Ok tt (f s).

(** Reading the state. *)
Definition gets {S A : Type} (f : S -> A) : M S A := fun s => Ok (f s) s.

(** [when b m]: [if (b) { m }] *)
Definition when {S : Type} (b : bool) (m : M S unit) : M S unit :=
  if b then m else ret tt.

(** [l.forEach(f)] *)
Fixpoint forEach {S A : Type} (f : A -> M S unit) (l : list A) : M S unit :=
  match l with
  | [] => ret tt
  | x :: r => bind (f x) (fun _ => forEach f r)
  end.

Declare Scope js_scope.
Delimit Scope js_scope with js.
Notation "x <- m ;; k" := (bind m (fun x => k))
  (at level 61, m at next level, right associativity) : js_scope.
Notation "m ;; k" := (bind m (fun _ => k))
  (at level 61, right associativity) : js_scope.

Definition state_of {S A : Type} (r : Result S A) : S :=
  match r with Ok _ s => s | Throw _ s => s end.

Definition throws {S A : Type} (r : Result S A) : bool :=
  match r with Ok _ _ => false | Throw _ _ => true end.

(** [array.findIndex(f)]; [None] is the [-1] of the source. *)
Fixpoint findIndex {A : Type} (f : A -> bool) (l : list A) : option nat :=
  match l with
  | [] => None
  | x :: r => if f x then Some 0 else option_map S (findIndex f r)
  end.

(** [array.splice(index, 1)] *)
Fixpoint splice1 {A : Type} (index : nat) (l : list A) : list A :=
  match l, index with
  | [], _ => []
  | _ :: r, O => r
  | x :: r, S i => x :: splice1 i r
  end.

(** ** SocketIO: the signaling channel (src/unnamed/part_001) *)
Module SocketIO.

(** Identity of a promise created by [setConnection]. *)
Definition PromiseId := nat.

Inductive PromiseState : Type :=
| Pending
| Resolved (value : bool)
| Rejected (message : string).

(** The listeners this class attaches to its socket.  Each closure of the
    source is one constructor; the closures of [setConnection] are created
    per call, so they carry the promise of that call. *)
Inductive Handler : Type :=
| HResetAttempts                 (* initialize: on('connect') *)
| HOnDisconnect                  (* initialize: on('disconnect') *)
| HOnConnectError                (* initialize: on('connect_error') *)
| HConnect (p : PromiseId)       (* setConnection: connectHandler *)
| HError (p : PromiseId)         (* setConnection: errorHandler *)
| HReady (p : PromiseId).        (* connectHandler: on('connection:ready') *)

Definition Handler_eqb (a b : Handler) : bool :=
  match a, b with
  | HResetAttempts, HResetAttempts => true
  | HOnDisconnect, HOnDisconnect => true
  | HOnConnectError, HOnConnectError => true
  | HConnect p, HConnect q => Nat.eqb p q
  | HError p, HError q => Nat.eqb p q
  | HReady p, HReady q => Nat.eqb p q
  | _, _ => false
  end.

(** The event each closure is registered under. *)
Definition event_of (h : Handler) : string :=
  match h with
  | HResetAttempts => "connect"
  | HOnDisconnect => "disconnect"
  | HOnConnectError => "connect_error"
  | HConnect _ => "connect"
  | HError _ => "connect_error"
  | HReady _ => "connection:ready"
  end.

(** Registered with [once] (true) or with [on] (false). *)
Definition is_once (h : Handler) : bool :=
  match h with
  | HConnect _ | HError _ => true
  | _ => false
  end.

(** The socket.io client object, as far as this class looks at it. *)
Record Socket : Type := mkSocket {
  connected : bool;
  listeners : list Handler;          (* in registration order *)
  query : option (option string)     (* io.opts.query["user-token"] *)
}.

Record ReconnectionConfig : Type := mkConfig {
  enabled : bool;
  attempts : nat;
  delay : Q;
  maxDelay : Q;
  backoffFactor : Q;
  currentAttempt : nat;
  timeout : option TimerId
}.

(** The instance together with the part of the host it acts on: pending
    timers, the promises it handed out, and the effect log. *)
Record SocketIO : Type := mkSocketIO {
  socket : option Socket;
  initialized : bool;
  reconnectionConfig : ReconnectionConfig;
  timers : list (TimerId * Q);       (* host: pending timers and delays *)
  nextTimer : TimerId;               (* host: next handle to hand out *)
  promises : list PromiseState;      (* host: promise p is [nth p] *)
  log : list Effect
}.

(** *** Field updates *)

Definition set_socket (k : option Socket) (s : SocketIO) : SocketIO :=
  mkSocketIO k (initialized s) (reconnectionConfig s) (timers s)
             (nextTimer s) (promises s) (log s).

Definition set_initialized (b : bool) (s : SocketIO) : SocketIO :=
  mkSocketIO (socket s) b (reconnectionConfig s) (timers s)
             (nextTimer s) (promises s) (log s).

Definition set_config (c : ReconnectionConfig) (s : SocketIO) : SocketIO :=
  mkSocketIO (socket s) (initialized s) c (timers s)
             (nextTimer s) (promises s) (log s).

Definition set_promises (ps : list PromiseState) (s : SocketIO) : SocketIO :=
  mkSocketIO (socket s) (initialized s) (reconnectionConfig s) (timers s)
             (nextTimer s) ps (log s).

Definition emit_effect (e : Effect) (s : SocketIO) : SocketIO :=
  mkSocketIO (socket s) (initialized s) (reconnectionConfig s) (timers s)
             (nextTimer s) (promises s) (log s ++ [e]).

Definition set_enabled (b : bool) (c : ReconnectionConfig) :=
  mkConfig b (attempts c) (delay c) (maxDelay c) (backoffFactor c)
           (currentAttempt c) (timeout c).

Definition set_currentAttempt (n : nat) (c : ReconnectionConfig) :=
  mkConfig (enabled c) (attempts c) (delay c) (maxDelay c) (backoffFactor c)
           n (timeout c).

Definition set_timeout (t : option TimerId) (c : ReconnectionConfig) :=
  mkConfig (enabled c) (attempts c) (delay c) (maxDelay c) (backoffFactor c)
           (currentAttempt c) t.

Definition map_socket (f : Socket -> Socket) (s : SocketIO) : SocketIO :=
  match socket s with
  | Some k => set_socket (Some (f k)) s
  | None => s
  end.

Definition set_connected (b : bool) (k : Socket) : Socket :=
  mkSocket b (listeners k) (query k).

Definition set_listeners (l : list Handler) (k : Socket) : Socket :=
  mkSocket (connected k) l (query k).

Definition set_query (q : option string) (k : Socket) : Socket :=
  mkSocket (connected k) (listeners k) (Some q).

(** *** Host primitives *)

(** [clearTimeout(id)]: the timer, if still pending, is dropped. *)
Definition clearTimeout (id : TimerId) (s : SocketIO) : SocketIO :=
  emit_effect (ClearTimeout id)
    (mkSocketIO (socket s) (initialized s) (reconnectionConfig s)
       (filter (fun t => negb (Nat.eqb (fst t) id)) (timers s))
       (nextTimer s) (promises s) (log s)).

(** [setTimeout(cb, ms)]: a fresh handle; the callback of the only timer
    this class creates is [timer_callback] below. *)
Definition setTimeout (ms : Q) (s : SocketIO) : TimerId * SocketIO :=
  let id := nextTimer s in
  (id, emit_effect (SetTimeout id ms)
         (mkSocketIO (socket s) (initialized s) (reconnectionConfig s)
            (timers s ++ [(id, ms)]) (S id) (promises s) (log s))).

(** Settling a promise that is already settled does nothing. *)
Fixpoint settle_at (p : PromiseId) (v : PromiseState)
    (ps : list PromiseState) : list PromiseState :=
  match ps, p with
  | [], _ => []
  | Pending :: r, O => v :: r
  | x :: r, O => x :: r
  | x :: r, S p' => x :: settle_at p' v r
  end.

Definition resolve (p : PromiseId) (v : bool) (s : SocketIO) : SocketIO :=
  set_promises (settle_at p (Resolved v) (promises s)) s.

Definition reject (p : PromiseId) (m : string) (s : SocketIO) : SocketIO :=
  set_promises (settle_at p (Rejected m) (promises s)) s.

Definition promise (p : PromiseId) (s : SocketIO) : PromiseState :=
  nth p (promises s) Pending.

(** [socket.on(event_of h, h)] *)
Definition on (h : Handler) (s : SocketIO) : SocketIO :=
  map_socket (fun k => set_listeners (listeners k ++ [h]) k) s.

(** [socket.off(event_of h, h)]: the first registration of [h] goes. *)
Fixpoint remove_first (h : Handler) (l : list Handler) : list Handler :=
  match l with
  | [] => []
  | x :: r => if Handler_eqb x h then r else x :: remove_first h r
  end.

Definition off (h : Handler) (s : SocketIO) : SocketIO :=
  map_socket (fun k => set_listeners (remove_first h (listeners k)) k) s.

(** *** The class *)

Definition constructor : SocketIO :=
  mkSocketIO None false
    (mkConfig true 5 1000%Q 5000%Q 1.5%Q 0 None)
    [] 1 [] [].

(** [isConnected()] *)
Definition isConnected (s : SocketIO) : bool :=
  match socket s with
  | Some k => initialized s && connected k
  | None => false
  end.

(** The delay of the retry scheduled at attempt count [k]. *)
Definition retryDelay (c : ReconnectionConfig) (k : nat) : Q :=
  Math_min (delay c * Math_pow (backoffFactor c) k)%Q (maxDelay c).

(** [_attemptReconnection()] *)
Definition _attemptReconnection (s : SocketIO) : SocketIO :=
  if isConnected s || negb (enabled (reconnectionConfig s)) then s
  else
    let s1 :=
      match timeout (reconnectionConfig s) with
      | Some id =>
          let s' := clearTimeout id s in
          set_config (set_timeout None (reconnectionConfig s')) s'
      | None => s
      end in
    let c := reconnectionConfig s1 in
    if attempts c <=? currentAttempt c then s1
    else
      let d := retryDelay c (currentAttempt c) in
      let s2 := set_config (set_currentAttempt (S (currentAttempt c)) c) s1 in
      let (id, s3) := setTimeout d s2 in
      set_config (set_timeout (Some id) (reconnectionConfig s3)) s3.

(** [_resetReconnectionAttempts()] *)
Definition _resetReconnectionAttempts (s : SocketIO) : SocketIO :=
  let s1 := set_config (set_enabled true (reconnectionConfig s)) s in
  let s2 := set_config (set_currentAttempt 0 (reconnectionConfig s1)) s1 in
  match timeout (reconnectionConfig s2) with
  | Some id =>
      let s' := clearTimeout id s2 in
      set_config (set_timeout None (reconnectionConfig s')) s'
  | None => s2
  end.

(** [initialize(options)]: a fresh, unconnected socket with the three
    listeners of the class. *)
Definition initialize (s : SocketIO) : SocketIO :=
  let s1 := set_socket (Some (mkSocket false [] None)) s in
  let s2 := on HResetAttempts s1 in
  let s3 := on HOnDisconnect s2 in
  let s4 := on HOnConnectError s3 in
  set_initialized true s4.

(** [disconnect()] *)
Definition disconnect (s : SocketIO) : SocketIO :=
  let s1 := set_config (set_enabled false (reconnectionConfig s)) s in
  let s2 :=
    match timeout (reconnectionConfig s1) with
    | Some id =>
        let s' := clearTimeout id s1 in
        set_config (set_timeout None (reconnectionConfig s')) s'
    | None => s1
    end in
  let s3 :=
    match socket s2 with
    | Some _ => set_socket None (emit_effect SocketClose s2)
    | None => s2
    end in
  set_initialized false s3.

(** The [cleanup] closure of [setConnection]. *)
Definition cleanup (p : PromiseId) (s : SocketIO) : SocketIO :=
  off (HError p) (off (HConnect p) s).

(** What a listener does when called with the event's argument (the
    disconnect reason, or the error's message). *)
Definition run_handler (h : Handler) (arg : string) (s : SocketIO)
    : SocketIO :=
  match h with
  | HResetAttempts => _resetReconnectionAttempts s
  | HOnDisconnect =>
      if negb (String.eqb arg "io client disconnect")
         && enabled (reconnectionConfig s)
      then _attemptReconnection s else s
  | HOnConnectError =>
      if enabled (reconnectionConfig s) then _attemptReconnection s else s
  | HConnect p => on (HReady p) (cleanup p s)
  | HError p => reject p (String.append "Connection failed: " arg) (cleanup p s)
  | HReady p => resolve p true s
  end.

(** The emitter calls a copy of the listener array; a [once] listener
    unregisters itself before it runs. *)
Fixpoint call_listeners (snapshot : list Handler) (arg : string)
    (s : SocketIO) : SocketIO :=
  match snapshot with
  | [] => s
  | h :: r =>
      call_listeners r arg
        (run_handler h arg (if is_once h then off h s else s))
  end.

(** An event of the socket that the instance holds in [this.socket].  A
    socket that [disconnect] has closed and let go of is no longer part of
    the state: what it might still emit is not described, and on an
    instance without a socket this function leaves the state alone. *)
Definition emit_event (ev : string) (arg : string) (s : SocketIO)
    : SocketIO :=
  match socket s with
  | Some k =>
      call_listeners
        (filter (fun h => String.eqb (event_of h) ev) (listeners k)) arg s
  | None => s
  end.

(** The callback of the reconnection timer. *)
Definition timer_callback (s : SocketIO) : SocketIO :=
  match socket s with
  | Some k => if negb (connected k) then emit_effect SocketOpen s else s
  | None => s
  end.

(** What the outside world delivers: socket events and timer expiry. *)
Inductive Event : Type :=
| EvConnect
| EvConnectError (message : string)
| EvDisconnect (reason : string)
| EvReady
| EvTimer (id : TimerId).

Definition is_EvConnect (e : Event) : bool :=
  match e with EvConnect => true | _ => false end.

Definition fire (id : TimerId) (s : SocketIO) : SocketIO :=
  if existsb (fun t => Nat.eqb (fst t) id) (timers s) then
    timer_callback
      (mkSocketIO (socket s) (initialized s) (reconnectionConfig s)
         (filter (fun t => negb (Nat.eqb (fst t) id)) (timers s))
         (nextTimer s) (promises s) (log s))
  else s.

(** The socket updates its [connected] flag before it emits. *)
Definition deliver (e : Event) (s : SocketIO) : SocketIO :=
  match e with
  | EvConnect => emit_event "connect" "" (map_socket (set_connected true) s)
  | EvConnectError m => emit_event "connect_error" m s
  | EvDisconnect r =>
      emit_event "disconnect" r (map_socket (set_connected false) s)
  | EvReady => emit_event "connection:ready" "" s
  | EvTimer id => fire id s
  end.

Definition run (evs : list Event) (s : SocketIO) : SocketIO :=
  fold_left (fun st e => deliver e st) evs s.

(** A call either returns a value or throws. *)
Inductive Outcome (A : Type) : Type :=
| Returns (a : A) (s : SocketIO)
| Throws (message : string) (s : SocketIO).
Arguments Returns {A} a s.
Arguments Throws {A} message s.

Definition new_promise (v : PromiseState) (s : SocketIO)
    : PromiseId * SocketIO :=
  (List.length (promises s), set_promises (promises s ++ [v]) s).

(** [setConnection(status, token)]; the promise executor runs at once. *)
Definition setConnection (status : bool) (token : option string)
    (s : SocketIO) : Outcome PromiseId :=
  if negb (initialized s) then
    Throws "Socket not initialized. Call initial() first." s
  else if negb status then
    let (p, s1) := new_promise (Resolved false) (disconnect s) in
    Returns p s1
  else
    let s1 := _resetReconnectionAttempts s in
    let (p, s2) := new_promise Pending s1 in
    match socket s2 with
    | None => Returns p (reject p "TypeError" s2)
    | Some _ =>
        let s3 := map_socket (set_query token) s2 in
        let s4 := on (HConnect p) s3 in
        let s5 := on (HError p) s4 in
        Returns p (emit_effect SocketOpen s5)
    end.

(** The delays of the timers set so far, oldest first. *)
Definition scheduled_delays (s : SocketIO) : list Q :=
  flat_map (fun e => match e with SetTimeout _ ms => [ms] | _ => [] end)
           (log s).

(** *** Vocabulary of the reconnection properties *)

(** The [clearTimeout] that a call makes for a handle left in the
    configuration. *)
Definition cancelled (s : SocketIO) : list Effect :=
  match timeout (reconnectionConfig s) with
  | Some id => [ClearTimeout id]
  | None => []
  end.

(** The attempts are used up. *)
Definition exhausted (s : SocketIO) : Prop :=
  attempts (reconnectionConfig s) <= currentAttempt (reconnectionConfig s).

(** An effect that is neither a new timer nor a notification. *)
Definition quiet (e : Effect) : bool :=
  negb (is_SetTimeout e) && negb (is_Notify e).

(** [s'] has the attempt counters of [s], and got from [s] by quiet
    effects only. *)
Definition quietly (s s' : SocketIO) : Prop :=
  attempts (reconnectionConfig s') = attempts (reconnectionConfig s) /\
  currentAttempt (reconnectionConfig s') =
    currentAttempt (reconnectionConfig s) /\
  exists l, log s' = log s ++ l /\ forallb quiet l = true.

(** Scenario: a fresh instance, initialized, asked to connect. *)
Definition scenario_start : SocketIO :=
  match setConnection true (Some "token") (initialize constructor) with
  | Returns _ s => s
  | Throws _ s => s
  end.

(** [n] failed connection attempts in a row: each error is followed by the
    expiry of the retry timer it scheduled, which opens the socket again. *)
Fixpoint failures_from (id : TimerId) (n : nat) : list Event :=
  match n with
  | O => []
  | S n' =>
      EvConnectError "timeout" :: EvTimer id :: failures_from (S id) n'
  end.

Definition failures (n : nat) : list Event := failures_from 1 n.

End SocketIO.

(** ** The two-phase handshake of [setConnection], as the design states it

    The promise waits for the transport-level connect, then for the
    server's ready signal; this automaton is what the code is compared
    with. *)
Module Handshake.
Import SocketIO.

(** Where a promise of [setConnection] stands. *)
Inductive Phase : Type :=
| AwaitConnect
| AwaitReady
| Done
| Failed (message : string).

(** One event, seen by a promise in phase [ph]. *)
Definition handshake_step (ph : Phase) (e : Event) : Phase :=
  match ph, e with
  | AwaitConnect, EvConnect => AwaitReady
  | AwaitConnect, EvConnectError m =>
      Failed (String.append "Connection failed: " m)
  | AwaitReady, EvReady => Done
  | _, _ => ph
  end.

(** The phase after a trace of events, from the call on. *)
Definition handshake (evs : list Event) : Phase :=
  fold_left handshake_step evs AwaitConnect.

(** The state of the promise in each phase. *)
Definition settled (ph : Phase) : PromiseState :=
  match ph with
  | AwaitConnect | AwaitReady => Pending
  | Done => Resolved true
  | Failed m => Rejected m
  end.

(** The promise a closure of [setConnection] belongs to. *)
Definition owner (h : Handler) : option PromiseId :=
  match h with
  | HConnect p | HError p | HReady p => Some p
  | _ => None
  end.

(** The listeners of the socket, if there is one. *)
Definition registered (s : SocketIO) : list Handler :=
  match socket s with
  | Some k => listeners k
  | None => []
  end.

(** How often [h] is registered. *)
Definition occurrences (h : Handler) (l : list Handler) : nat :=
  List.length (filter (Handler_eqb h) l).

(** Closures are registered for promises that exist. *)
Definition well_formed (s : SocketIO) : Prop :=
  forall h q, In h (registered s) -> owner h = Some q ->
              q < List.length (promises s).

(** What the state holds about promise [p]: is there a socket, how many
    promises exist, the state of [p], and how often each of its three
    closures is registered. *)
Definition view (p : PromiseId) (s : SocketIO)
    : bool * nat * PromiseState * nat * nat * nat :=
  (match socket s with Some _ => true | None => false end,
   List.length (promises s),
   promise p s,
   occurrences (HConnect p) (registered s),
   occurrences (HError p) (registered s),
   occurrences (HReady p) (registered s)).

(** The invariant of each phase: the state of promise [p] and which of its
    closures are registered. *)
Definition in_phase (p : PromiseId) (ph : Phase) (s : SocketIO) : Prop :=
  view p s =
  match ph with
  | AwaitConnect => (true, List.length (promises s), Pending, 1, 1, 0)
  | AwaitReady => (true, List.length (promises s), Pending, 0, 0, 1)
  | Done => (true, List.length (promises s), Resolved true, 0, 0,
             occurrences (HReady p) (registered s))
  | Failed m => (true, List.length (promises s), Rejected m, 0, 0, 0)
  end /\ p < List.length (promises s).

(** [handshake_step], by the name of the emitted event. *)
Definition emit_phase (ph : Phase) (ev arg : string) : Phase :=
  match ph with
  | AwaitConnect =>
      if String.eqb ev "connect" then AwaitReady
      else if String.eqb ev "connect_error"
           then Failed (String.append "Connection failed: " arg)
           else AwaitConnect
  | AwaitReady =>
      if String.eqb ev "connection:ready" then Done else AwaitReady
  | _ => ph
  end.

(** A connect, or a connect error. *)
Definition is_connect_or_error (e : Event) : bool :=
  match e with EvConnect | EvConnectError _ => true | _ => false end.

End Handshake.

(** ** VideoPeer: reconnection of the peer transport (src/unnamed/part_000) *)
Module VideoPeer.

Record VideoPeer : Type := mkVideoPeer {
  reconnectAttempts : nat;
  maxReconnectAttempts : nat;
  reconnectDelay : Q;
  disconnected : bool;               (* videoPeer.disconnected *)
  reconnect_fails : bool;            (* host: videoPeer.reconnect() throws *)
  nextTimer : TimerId;
  log : list Effect
}.

Definition constructor : VideoPeer :=
  mkVideoPeer 0 5 1000%Q false false 1 [].

Definition emit_effect (e : Effect) (v : VideoPeer) : VideoPeer :=
  mkVideoPeer (reconnectAttempts v) (maxReconnectAttempts v)
    (reconnectDelay v) (disconnected v) (reconnect_fails v) (nextTimer v)
    (log v ++ [e]).

(** [attemptReconnection()]: the part that runs at once. *)
Definition attemptReconnection (v : VideoPeer) : VideoPeer :=
  if maxReconnectAttempts v <=? reconnectAttempts v then
    emit_effect (Notify "onPeerJsConnectionFailed") v
  else
    emit_effect (SetTimeout (nextTimer v) (reconnectDelay v))
      (mkVideoPeer (reconnectAttempts v) (maxReconnectAttempts v)
         (reconnectDelay v) (disconnected v) (reconnect_fails v)
         (S (nextTimer v)) (log v)).

(** The callback of its timer; [jitter] is the value of [Math.random()]. *)
Definition reconnection_timer (jitter : Q) (v : VideoPeer) : VideoPeer :=
  if disconnected v then
    let v1 := emit_effect PeerReconnect v in
    if reconnect_fails v then v1
    else
      mkVideoPeer (S (reconnectAttempts v1)) (maxReconnectAttempts v1)
        (Math_min 30000 (reconnectDelay v1 * 2 + jitter * 1000))%Q
        (disconnected v1) (reconnect_fails v1) (nextTimer v1) (log v1)
  else v.

(** [resetReconnectionState()] *)
Definition resetReconnectionState (v : VideoPeer) : VideoPeer :=
  mkVideoPeer 0 (maxReconnectAttempts v) 1000%Q (disconnected v)
    (reconnect_fails v) (nextTimer v) (log v).

End VideoPeer.

(** ** People: the roster (src/modules/People.js) *)
Module People.
Local Open Scope js_scope.

Inductive Kind : Type := Video | Audio.

Record Track : Type := mkTrack {
  kind : Kind;
  label : nat
}.

(** An [RTCRtpSender] of a peer connection: the track it sends, if any. *)
Definition Sender := option Track.

(** A PeerJS media connection: its identity as an object, the remote peer,
    and the senders of its [peerConnection]. *)
Record MediaConnection : Type := mkMedia {
  m_handle : nat;
  m_peer : string;
  senders : list Sender
}.

(** A PeerJS data connection. *)
Record DataConnection : Type := mkData {
  d_handle : nat;
  d_peer : string
}.

(** A roster entry, with the fields [People.add] gives it. *)
Record Connection : Type := mkConnection {
  id : string;
  peerJsId : string;
  mediaConnection : MediaConnection;
  dataConnection : DataConnection;
  active : bool;
  camMute : bool;
  micMute : bool;
  share : bool;
  record : bool;
  name : option string;
  isCreator : option bool
}.

(** A member descriptor of [Room.information.users]; a field that the
    server left out is [None]. *)
Record User : Type := mkUser {
  u_peerJsId : string;
  u_name : option string;
  u_roomCreator : option bool
}.

Record RoomInformation : Type := mkInformation {
  room_id : option string;
  users : list User
}.

(** The optional third argument of [People.add]. *)
Record JoinData : Type := mkJoinData {
  j_name : option string;
  j_roomCreator : option bool
}.

Inductive Effect : Type :=
| MediaClose (handle : nat)            (* mediaConnection.close() *)
| DataClose (handle : nat)             (* dataConnection.close() *)
| OnDataOpen (handle : nat)            (* dataConnection.on('open', ...) *)
| OnMediaStream (handle : nat)         (* mediaConnection.on('stream', ...) *)
| ScheduleStreamReset (ms : nat)       (* setTimeout(resetConnectionsStream, ms) *)
| StopShareScreen                      (* Media.screenShare.stopShareScreen() *)
| ConsoleError (text : string).        (* console.error(text, error) *)

(** The module object after [People.setup], with what it reaches through
    [People.parent], and the host: which connection objects fail on
    [close()], and the effect log. *)
Record People : Type := mkPeople {
  connections : list Connection;
  waitingList : list string;               (* peer ids waiting *)
  information : option RoomInformation;    (* parent.Room.information *)
  debug : bool;                            (* parent.configs.debug *)
  close_fails : nat -> bool;               (* host: close() throws *)
  stop_share_fails : bool;                 (* host: stopShareScreen() throws *)
  log : list Effect
}.

Definition set_connections (l : list Connection) (s : People) : People :=
  mkPeople l (waitingList s) (information s) (debug s) (close_fails s)
           (stop_share_fails s) (log s).

Definition set_waitingList (l : list string) (s : People) : People :=
  mkPeople (connections s) l (information s) (debug s) (close_fails s)
           (stop_share_fails s) (log s).

Definition effect (e : Effect) : M People unit :=
  modify (fun s =>
    mkPeople (connections s) (waitingList s) (information s) (debug s)
             (close_fails s) (stop_share_fails s) (log s ++ [e])).

(** [connection.mediaConnection.close()] *)
Definition closeMedia (m : MediaConnection) : M People unit :=
  effect (MediaClose (m_handle m)) ;;
  fails <- gets (fun s => close_fails s (m_handle m)) ;;
  if fails then throw (PlainError "close failed") else ret tt.

(** [connection.dataConnection.close()] *)
Definition closeData (d : DataConnection) : M People unit :=
  effect (DataClose (d_handle d)) ;;
  fails <- gets (fun s => close_fails s (d_handle d)) ;;
  if fails then throw (PlainError "close failed") else ret tt.

(** [a || b] on an optional string: an absent or empty string is falsy. *)
Definition or_string (a : option string) (b : string) : string :=
  match a with
  | Some s => if String.eqb s "" then b else s
  | None => b
  end.

(** [a || false] on an optional boolean. *)
Definition or_false (a : option bool) : bool :=
  match a with Some true => true | _ => false end.

(** The object literal pushed by [People.add]. *)
Definition new_entry (m : MediaConnection) (d : DataConnection)
    (userItem : option User) : Connection :=
  let userName := or_string (match userItem with
                             | Some u => u_name u | None => None end) "" in
  let userType := or_false (match userItem with
                            | Some u => u_roomCreator u | None => None end) in
  mkConnection (m_peer m) (m_peer m) m d
    false true true false false (Some userName) (Some userType).

Definition override (data : option JoinData) (c : Connection) : Connection :=
  match data with
  | Some j =>
      mkConnection (id c) (peerJsId c) (mediaConnection c) (dataConnection c)
        (active c) (camMute c) (micMute c) (share c) (record c)
        (j_name j) (j_roomCreator j)
  | None => c
  end.

(** The [catch] block shared by [add] and [remove]. *)
Definition log_and_rethrow {A : Type} (text : string) (error : JSError)
    : M People A :=
  dbg <- gets debug ;;
  when dbg (effect (ConsoleError text)) ;;
  throw error.

(** [People.add(mediaConnection, dataConnection, data)], for the
    connection objects [m] and [d] of a call that PeerJS has set up, and
    room information whose [users] is an array.  A call with [undefined]
    in the place of a connection (what [Peer.call] and [Peer.connect] hand
    back when they refuse) is a [TypeError] of its own in the source and
    is not described here. *)
Definition add (m : MediaConnection) (d : DataConnection)
    (data : option JoinData) : M People bool :=
  try_catch
    (conns <- gets connections ;;
     match find (fun x => String.eqb (id x) (m_peer m)) conns with
     | Some _ => ret true
     | None =>
         info <- gets information ;;
         match info with
         | None =>
             throw (TypeError "Cannot read properties of null (reading 'users')")
         | Some i =>
             let userItem :=
               find (fun x => String.eqb (u_peerJsId x) (m_peer m)) (users i) in
             let connection := override data (new_entry m d userItem) in
             modify (fun s => set_connections (connections s ++ [connection]) s) ;;
             effect (OnDataOpen (d_handle d)) ;;
             effect (OnMediaStream (m_handle m)) ;;
             ret true
         end
     end)
    (log_and_rethrow "Error add connection:").

(** [People.remove(peerJsId)] *)
Definition remove (p : string) : M People unit :=
  try_catch
    (conns <- gets connections ;;
     match findIndex (fun x => String.eqb (peerJsId x) p) conns with
     | Some index =>
         match nth_error conns index with
         | Some connection =>
             closeMedia (mediaConnection connection) ;;
             closeData (dataConnection connection) ;;
             modify (fun s => set_connections (splice1 index (connections s)) s) ;;
             effect (ScheduleStreamReset 10)
         | None => ret tt
         end
     | None => ret tt
     end)
    (log_and_rethrow "Error removing connection:").

(** [People.closeAll()]: whatever fails inside is logged and dropped. *)
Definition closeAll : M People unit :=
  try_catch
    (effect StopShareScreen ;;
     fails <- gets stop_share_fails ;;
     (if fails then throw (PlainError "stopShareScreen failed") else ret tt) ;;
     conns <- gets connections ;;
     forEach (fun connection =>
                closeMedia (mediaConnection connection) ;;
                closeData (dataConnection connection)) conns ;;
     modify (set_connections []) ;;
     modify (set_waitingList []))
    (fun _ => effect (ConsoleError "Error close connections:")).

(** [People.getConnections()] *)
Definition getConnections (s : People) : list Connection := connections s.

(** The roster invariant of the data model: at most one entry per peer id. *)
Definition one_entry_per_peer (l : list Connection) : Prop :=
  NoDup (map peerJsId l).

(** Rosters built by [add] and [remove] keep one entry per peer id, with
    [id] and [peerJsId] equal. *)
Definition roster_ok (l : list Connection) : Prop :=
  one_entry_per_peer l /\ Forall (fun c => id c = peerJsId c) l.

(** A roster of two peers, in a room that lists three members. *)
Definition example_entry : Connection :=
  mkConnection "p1" "p1" (mkMedia 11 "p1" []) (mkData 12 "p1")
    true false false false false (Some "Ann") (Some true).

Definition example_roster : People :=
  mkPeople
    [example_entry;
     mkConnection "p2" "p2" (mkMedia 21 "p2" []) (mkData 22 "p2")
       false true true false false (Some "Bob") (Some false)]
    []
    (Some (mkInformation (Some "room-1")
             [mkUser "p1" (Some "Ann") (Some true);
              mkUser "p2" (Some "Bob") (Some false);
              mkUser "p3" (Some "Cyd") None]))
    false (fun _ => false) false [].

(** The same roster on a host where closing the media connection of the
    first entry throws. *)
Definition example_roster_stuck : People :=
  mkPeople (connections example_roster) [] (information example_roster)
    false (fun handle => Nat.eqb handle 11) false [].

End People.

(** ** Events: the subscription registry (src/unnamed/part_005, first module) *)
Module Events.
Local Open Scope js_scope.

(** Values that travel through the registry and the action envelopes. *)
Inductive Value : Type :=
| VUndefined
| VNull
| VBool (b : bool)
| VStr (s : string)
| VObj (fields : Fields)
with Fields : Type :=
| no_fields
| with_field (key : string) (v : Value) (rest : Fields).

Fixpoint lookup (key : string) (fields : Fields) : Value :=
  match fields with
  | no_fields => VUndefined
  | with_field k v rest => if String.eqb k key then v else lookup key rest
  end.

(** [v[key]] where [v] is not [null] or [undefined]; a primitive has none
    of the fields the code asks for. *)
Definition field (key : string) (v : Value) : Value :=
  match v with
  | VObj fields => lookup key fields
  | _ => VUndefined
  end.

(** [a === b]; two objects are never the same object here. *)
Definition strict_eq (a b : Value) : bool :=
  match a, b with
  | VUndefined, VUndefined => true
  | VNull, VNull => true
  | VBool x, VBool y => Bool.eqb x y
  | VStr x, VStr y => String.eqb x y
  | _, _ => false
  end.

(** The string a value becomes in a concatenation. *)
Definition to_string (v : Value) : string :=
  match v with
  | VUndefined => "undefined"
  | VNull => "null"
  | VBool true => "true"
  | VBool false => "false"
  | VStr s => s
  | VObj _ => "[object Object]"
  end.

(** The third argument of [addEventHandler]: a function, or something that
    is not one. *)
Inductive Method : Type :=
| Function (f : Value -> Value)
| NotAFunction (v : Value).

(** An element of [Events.events]. *)
Record Registration : Type := mkRegistration {
  type : string;
  event : string;
  method : Method
}.

Inductive Effect : Type :=
| ConsoleLog (text : string)
| ConsoleWarn (text : string).

Record Events : Type := mkEvents {
  events : list Registration;
  debug : bool;                       (* parent.configs.debug *)
  log : list Effect
}.

Definition effect (e : Effect) : M Events unit :=
  modify (fun s => mkEvents (events s) (debug s) (log s ++ [e])).



(** The predicate of the [find] in [executeHandler]. *)
Definition matches (ty ev : string) (x : Registration) : bool :=
  String.eqb (type x) ty && String.eqb (event x) ev.

(** [Events.executeHandler(type, event, data)] *)
Definition executeHandler (ty ev : string) (data : Value) : M Events Value :=
  evs <- gets events ;;
  match find (matches ty ev) evs with
  | Some (mkRegistration _ _ (Function f)) => ret (f data)
  | _ =>
      dbg <- gets debug ;;
      when dbg (effect (ConsoleWarn "Handler not found")) ;;
      ret VUndefined
  end.


End Events.

(** ** Room: join, leave and the action dispatcher (src/unnamed/part_006) *)
Module Room.
Import Events.
Local Open Scope js_scope.

(** *** Names *)

Definition is_lower (c : ascii) : bool :=
  (97 <=? nat_of_ascii c) && (nat_of_ascii c <=? 122).

Definition toUpperCase (c : ascii) : ascii :=
  if is_lower c then ascii_of_nat (nat_of_ascii c - 32) else c.

(** [name.replace(/-[a-z]/g, m => m.slice(1).toUpperCase())] *)
Fixpoint kebabToCamel (s : string) : string :=
  match s with
  | EmptyString => EmptyString
  | String c r =>
      if Ascii.eqb c "-"%char then
        match r with
        | String d r' =>
            if is_lower d then String (toUpperCase d) (kebabToCamel r')
            else String c (kebabToCamel r)
        | EmptyString => String c EmptyString
        end
      else String c (kebabToCamel r)
  end.

(** [name.charAt(0).toUpperCase() + name.slice(1)] *)
Definition capitalize (s : string) : string :=
  match s with
  | EmptyString => EmptyString
  | String c r => String (toUpperCase c) r
  end.

(** *** State *)

(** The action envelope, as the dispatcher reads it. *)
Record Action : Type := mkAction {
  a_name : string;
  attributes : Value
}.

Inductive Effect : Type :=
| Emit (name : string) (detail : Value)     (* parent.emit(name, {detail}) *)
| Alert (title text : string)               (* api.notify(title, text) *)
| LeftRoomRequested                         (* api.leftRoom() *)
| ConsoleLog (text : string)
| PeopleCloseAll                            (* parent.People.closeAll() *)
| MediaRelease                              (* parent.Media.release() *)
| PeerDisconnect                            (* parent.peerJs.disconnect() *)
| SocketEmit (event roomId : string)        (* parent.socket.emit(event, roomId, ...) *)
| CloseConnection.                          (* parent.closeConnection() *)

(** An action module: what [run(api, data)] does for the local peer id, and
    the error it ends with, if it throws. *)
Record ActionItem : Type := mkItem {
  run : option string -> Action -> list Effect * option JSError
}.

(** The outcome of building an action item. *)
Inductive Made : Type :=
| Built (item : ActionItem)
| BuildThrows (e : JSError).

(** What the free identifier [parent] in the [catch] block of [Room.left]
    resolves to: nothing (a module without such a global), an object
    without [configs] (the browser's [window.parent]), or an object with
    [configs.debug]. *)
Inductive GlobalParent : Type :=
| Undeclared
| WithoutConfigs
| WithConfigs (debug : bool).

Record Room : Type := mkRoom {
  information : option People.RoomInformation;
  actions : list (string * ActionItem);       (* Room.actions *)
  custom : string -> option Made;             (* parent.actions[n].script() *)
  builtin : string -> option ActionItem;      (* require('../actions/'+n+'Action')() *)
  debug : bool;                               (* parent.configs.debug *)
  localPeerJsId : option string;              (* parent.peerJsId *)
  socket : option bool;                       (* parent.socket, and isConnected() *)
  peerJs : bool;                              (* parent.peerJs is not null *)
  shareMedia : bool;                          (* userSettings.shareMedia still holds
                                                 the shared stream when left reads it *)
  people : People.People;                     (* parent.People *)
  release_fails : option JSError;             (* host: Media.release() throws *)
  global_parent : GlobalParent;
  log : list Effect
}.

Definition set_actions (l : list (string * ActionItem)) (s : Room) : Room :=
  mkRoom (information s) l (custom s) (builtin s) (debug s) (localPeerJsId s)
         (socket s) (peerJs s) (shareMedia s) (people s) (release_fails s)
         (global_parent s) (log s).

Definition set_people (p : People.People) (s : Room) : Room :=
  mkRoom (information s) (actions s) (custom s) (builtin s) (debug s)
         (localPeerJsId s) (socket s) (peerJs s) (shareMedia s) p
         (release_fails s) (global_parent s) (log s).

Definition set_socket (k : option bool) (s : Room) : Room :=
  mkRoom (information s) (actions s) (custom s) (builtin s) (debug s)
         (localPeerJsId s) k (peerJs s) (shareMedia s) (people s)
         (release_fails s) (global_parent s) (log s).

Definition effects (l : list Effect) : M Room unit :=
  modify (fun s =>
    mkRoom (information s) (actions s) (custom s) (builtin s) (debug s)
           (localPeerJsId s) (socket s) (peerJs s) (shareMedia s) (people s)
           (release_fails s) (global_parent s) (log s ++ l)).

Definition effect (e : Effect) : M Room unit := effects [e].

(** A call into the roster module. *)
Definition in_people {A : Type} (m : M People.People A) : M Room A :=
  fun s =>
    match m (people s) with
    | Ok a p => Ok a (set_people p s)
    | Throw e p => Throw e (set_people p s)
    end.

(** *** Leaving *)

(** [Room.information?.id], when truthy. *)
Definition joined_room (s : Room) : option string :=
  match information s with
  | Some info =>
      match People.room_id info with
      | Some r => if String.eqb r "" then None else Some r
      | None => None
      end
  | None => None
  end.

(** The [catch] block of [Room.left]: it reads [parent.configs.debug] from
    the global [parent] before it throws the error on. *)
Definition left_catch (error : JSError) : M Room bool :=
  gp <- gets global_parent ;;
  match gp with
  | Undeclared => throw (ReferenceError "parent is not defined")
  | WithoutConfigs =>
      throw (TypeError "Cannot read properties of undefined (reading 'debug')")
  | WithConfigs dbg =>
      when dbg (effect (ConsoleLog "Error to left the room!")) ;;
      throw error
  end.

(** [Room.left(userData)].  The only values that the program stores in
    [userSettings.shareMedia] are the [MediaStream] of a running screen
    share and [null]; a stream has no [destroy] method, so the optional
    call [shareMedia?.destroy()] is skipped on [null] and is a [TypeError]
    on a stream.  [stopShareScreen], started by [closeAll], sets the field
    to [null] when it runs to its end; [shareMedia] is what [left] finds. *)
Definition left : M Room bool :=
  sock <- gets socket ;;
  room <- gets joined_room ;;
  match sock, room with
  | Some true, Some roomId =>
      try_catch
        (effect PeopleCloseAll ;;
         in_people People.closeAll ;;
         effect MediaRelease ;;
         fails <- gets release_fails ;;
         match fails with Some e => throw e | None => ret tt end ;;
         has_peer <- gets peerJs ;;
         (if has_peer then effect PeerDisconnect
          else throw (TypeError
                 "Cannot read properties of null (reading 'disconnect')")) ;;
         has_share <- gets shareMedia ;;
         when has_share
           (throw (TypeError
              "Room.parent.userSettings.shareMedia?.destroy is not a function")) ;;
         effect (SocketEmit "left-room" roomId) ;;
         ret true)
        left_catch
  | _, _ => ret false
  end.

(** The acknowledgement callback handed to the [left-room] emit. *)
Definition left_acknowledged : M Room unit :=
  effect CloseConnection ;;
  modify (set_socket None).

(** *** The action dispatcher *)

(** The handler that a name resolves to: the cached item, else the custom
    script, else the built-in module. *)
Definition make_item (actionName : string) (s : Room) : Made :=
  match custom s actionName with
  | Some made => made
  | None =>
      match builtin s actionName with
      | Some item => Built item
      | None => BuildThrows (PlainError "Cannot find module")
      end
  end.

(** [actionItem.run(Room.parent.getDevTools(), action)] *)
Definition run_item (item : ActionItem) (action : Action) : M Room unit :=
  me <- gets localPeerJsId ;;
  let (effs, error) := run item me action in
  effects effs ;;
  match error with
  | Some e => throw e
  | None => ret tt
  end.

(** [Room.runRequestedAction(action)] *)
Definition runRequestedAction (action : Action) : M Room unit :=
  let actionName := kebabToCamel (a_name action) in
  acts <- gets actions ;;
  let index := findIndex (fun x => String.eqb (fst x) actionName) acts in
  try_catch
    (actionItem <-
       match index with
       | Some i =>
           match nth_error acts i with
           | Some x => ret (snd x)
           | None => throw (TypeError "Cannot read properties of undefined")
           end
       | None =>
           made <- gets (make_item actionName) ;;
           match made with
           | Built item =>
               modify (fun s =>
                 set_actions (actions s ++ [(actionName, item)]) s) ;;
               ret item
           | BuildThrows e => throw e
           end
       end ;;
     run_item actionItem action ;;
     effect (Emit (String.append "on"
                     (String.append (capitalize actionName) "Action"))
                  (attributes action)))
    (fun error =>
       dbg <- gets debug ;;
       when dbg (effect (ConsoleLog "Action run failed!")) ;;
       throw error).

(** The handler the dispatcher will use for a name. *)
Definition resolved (actionName : string) (s : Room) : Made :=
  match find (fun x => String.eqb (fst x) actionName) (actions s) with
  | Some x => Built (snd x)
  | None => make_item actionName s
  end.

(** *** The built-in actions of the repository *)

(** src/actions/banAction.js *)
Definition banAction : ActionItem :=
  mkItem (fun me data =>
    let peerJsId := match me with Some p => VStr p | None => VNull end in
    match attributes data with
    | VUndefined | VNull =>
        ([], Some (TypeError
           "Cannot read properties of undefined (reading 'ban')"))
    | attrs =>
        match field "ban" attrs with
        | VUndefined | VNull =>
            ([], Some (TypeError
               "Cannot read properties of undefined (reading 'peerJsId')"))
        | ban =>
            if strict_eq (field "peerJsId" ban) peerJsId then
              ([Alert "User ban"
                  "You have been banned from this meeting by a moderator.";
                LeftRoomRequested;
                Emit "onExitConference" VUndefined], None)
            else
              ([Alert "User ban"
                  (String.append (to_string (field "name" ban))
                     " have been banned from this meeting by a moderator.")],
               None)
        end
    end).

(** src/actions/faceApiAction.js *)
Definition faceApiAction : ActionItem :=
  mkItem (fun _ data => ([Emit "onFaceDetectDraw" (attributes data)], None)).

(** [!!v] *)
Definition truthy (v : Value) : bool :=
  match v with
  | VUndefined | VNull | VBool false => false
  | VStr s => negb (String.eqb s "")
  | _ => true
  end.

(** src/actions/admitAction.js *)
Definition admitAction : ActionItem :=
  mkItem (fun me data =>
    let peerJsId := match me with Some p => VStr p | None => VNull end in
    match attributes data with
    | VUndefined | VNull =>
        ([], Some (TypeError
           "Cannot read properties of undefined (reading 'peerJsId')"))
    | attrs =>
        if strict_eq (field "peerJsId" attrs) peerJsId then
          if truthy (field "status" attrs) && truthy (field "access" attrs)
          then ([SocketEmit "join-room-from-waiting-list"
                   (to_string (field "roomId" attrs))], None)
          else ([Alert "Request Declined"
                   "Your request to join this room was not approved.";
                 Emit "onExitConference" VUndefined], None)
        else ([], None)
    end).

Definition repository_actions (n : string) : option ActionItem :=
  if String.eqb n "ban" then Some banAction
  else if String.eqb n "admit" then Some admitAction
  else if String.eqb n "faceApi" then Some faceApiAction
  else None.

(** A joined, connected session with nothing cached yet. *)
Definition example_room : Room :=
  mkRoom
    (People.information People.example_roster)
    [] (fun _ => None) repository_actions false (Some "p2")
    (Some true) true false People.example_roster None WithoutConfigs [].

(** The same session before the peer transport came up. *)
Definition example_room_without_peer : Room :=
  mkRoom
    (People.information People.example_roster)
    [] (fun _ => None) repository_actions false (Some "p2")
    (Some true) false false People.example_roster None WithoutConfigs [].

(** The same session with the stream of a screen share left in place. *)
Definition example_room_sharing : Room :=
  mkRoom
    (People.information People.example_roster)
    [] (fun _ => None) repository_actions false (Some "p2")
    (Some true) true true People.example_roster None WithoutConfigs [].

(** A ban envelope without its [ban] attribute. *)
Definition malformed_ban : Action := mkAction "ban" (VObj no_fields).

(** What the [catch] block of [Room.left] logs. *)
Definition left_catch_log (s : Room) : list Effect :=
  match global_parent s with
  | WithConfigs true => [ConsoleLog "Error to left the room!"]
  | _ => []
  end.

End Room.

(** ** Media: capture, mute and renegotiation (src/unnamed/part_005, second module) *)
Module Media.
Import People.
Local Open Scope js_scope.

Record Devices : Type := mkDevices {
  camera : string;
  microphone : string
}.

(** A stream is the list of its tracks.  The [enabled] and [readyState]
    of a track belong to the host: the code writes them (see [TrackEnabled]
    and [TrackStop] below) and never reads them. *)
Definition MediaStream := list Track.

Definition is_kind (k : Kind) (t : Track) : bool :=
  match k, kind t with
  | Video, Video | Audio, Audio => true
  | _, _ => false
  end.

(** What the device layer answers to [getUserMedia]. *)
Inductive GumOutcome : Type :=
| Granted (media : MediaStream)
| Denied (error : JSError).

(** What [Media.grab] resolves to: the processed stream, or the value its
    [catch] block returns (a string, or [undefined]). *)
Inductive GrabResult : Type :=
| Stream (media : MediaStream)
| Message (text : option string).

(** A [grab] whose promise carries the callback of
    [terminateConnectionsVideoAudioMedia]. *)
Inductive Pending : Type :=
| AwaitingDevice (muteAudio : bool)     (* suspended at getUserMedia *)
| Settled (result : GrabResult).        (* failed before it got there *)

Inductive Effect : Type :=
| GetUserMedia (video audio : bool)        (* constraints asked for *)
| ClearInterval
| TrackStop (label : nat)                  (* track.stop() *)
| TrackEnabled (label : nat) (on : bool)   (* track.enabled = on *)
| SetLocalVideo                            (* the local element's srcObject *)
| ReplaceTrack (conn index : nat) (k : Kind)  (* senders[index].replaceTrack *)
| AddTrack (conn : nat) (k : Kind)         (* peerConnection.addTrack *)
| DataSend (conn : nat) (camMute micMute : bool)  (* send({event:'muteMedia'}) *)
| Emit (name : string).                    (* parent.emit(name) *)

Definition is_track_op (e : Effect) : bool :=
  match e with
  | ReplaceTrack _ _ _ | AddTrack _ _ => true
  | _ => false
  end.

Definition op_kind (e : Effect) : option Kind :=
  match e with
  | ReplaceTrack _ _ k | AddTrack _ k => Some k
  | _ => None
  end.

Record Media : Type := mkMediaState {
  camDisable : bool;                       (* parent.userSettings.camDisable *)
  micDisable : bool;                       (* parent.userSettings.micDisable *)
  devices : option Devices;                (* Media.devices *)
  video : option (option MediaStream);     (* Media.video, and its srcObject *)
  local_element : bool;                    (* the page has the local <video> *)
  userMedia : option MediaStream;          (* Media.userMedia *)
  connections : list Connection;           (* parent.People.getConnections() *)
  pending : list Pending;
  log : list Effect
}.

Definition effect (e : Effect) : M Media unit :=
  modify (fun s =>
    mkMediaState (camDisable s) (micDisable s) (devices s) (video s)
      (local_element s) (userMedia s) (connections s) (pending s)
      (log s ++ [e])).

Definition set_camDisable (b : bool) (s : Media) : Media :=
  mkMediaState b (micDisable s) (devices s) (video s) (local_element s)
    (userMedia s) (connections s) (pending s) (log s).

Definition set_micDisable (b : bool) (s : Media) : Media :=
  mkMediaState (camDisable s) b (devices s) (video s) (local_element s)
    (userMedia s) (connections s) (pending s) (log s).

Definition set_devices (d : option Devices) (s : Media) : Media :=
  mkMediaState (camDisable s) (micDisable s) d (video s) (local_element s)
    (userMedia s) (connections s) (pending s) (log s).

Definition set_srcObject (m : MediaStream) (s : Media) : Media :=
  mkMediaState (camDisable s) (micDisable s) (devices s) (Some (Some m))
    (local_element s) (userMedia s) (connections s) (pending s) (log s).

Definition set_userMedia (m : option MediaStream) (s : Media) : Media :=
  mkMediaState (camDisable s) (micDisable s) (devices s) (video s)
    (local_element s) m (connections s) (pending s) (log s).

Definition set_connections (l : list Connection) (s : Media) : Media :=
  mkMediaState (camDisable s) (micDisable s) (devices s) (video s)
    (local_element s) (userMedia s) l (pending s) (log s).

Definition set_pending (l : list Pending) (s : Media) : Media :=
  mkMediaState (camDisable s) (micDisable s) (devices s) (video s)
    (local_element s) (userMedia s) (connections s) l (log s).

(** *** The error table *)

Definition mediaGrabErrors : list (list string * string) :=
  [ (["NotFoundError"; "DevicesNotFoundError"], "required track is missing");
    (["NotReadableError"; "TrackStartError"],
     "webcam or mic are already in use ");
    (["OverconstrainedError"; "ConstraintNotSatisfiedError"],
     "constraints can not be satisfied by avb. devices");
    (["NotAllowedError"; "PermissionDeniedError"],
     "permission denied in browser");
    (["TypeError"], "empty constraints object") ].

(** [e.name.includes(error.name)] *)
Definition includes (names : list string) (n : option string) : bool :=
  match n with
  | Some x => existsb (String.eqb x) names
  | None => false
  end.

(** [a || b] on a string or [undefined]. *)
Definition or_else (a b : option string) : option string :=
  match a with
  | Some s => if String.eqb s "" then b else a
  | None => b
  end.

(** The [catch] block of [Media.grab]. *)
Definition grab_catch (error : JSError) : option string :=
  let errorMessage :=
    find (fun e => includes (fst e) (err_name error)) mediaGrabErrors in
  let message :=
    or_else (match errorMessage with
             | Some e => Some (snd e)
             | None => None
             end) (err_name error) in
  or_else message (err_name error).

(** *** Mute status and track replacement *)

(** [Media.sendUserMediaMuteStatusByDataConnection(video, audio)] *)
Definition sendUserMediaMuteStatusByDataConnection (v a : bool)
    : M Media unit :=
  conns <- gets connections ;;
  forEach (fun c => effect (DataSend (d_handle (dataConnection c)) v a)) conns.

Definition sends (k : Kind) (x : Sender) : bool :=
  match x with
  | Some t => match k, kind t with
              | Video, Video | Audio, Audio => true
              | _, _ => false
              end
  | None => false
  end.

(** The call that brings track kind [k] of the new stream onto a
    connection: replace on the sender that carries that kind, else add. *)
Definition renegotiate (k : Kind) (c : Connection) : Effect :=
  match findIndex (sends k) (senders (mediaConnection c)) with
  | Some index => ReplaceTrack (m_handle (mediaConnection c)) index k
  | None => AddTrack (m_handle (mediaConnection c)) k
  end.

(** The senders of a connection after that call. *)
Fixpoint replace_at (index : nat) (t : Track) (l : list Sender)
    : list Sender :=
  match l, index with
  | [], _ => []
  | _ :: r, O => Some t :: r
  | x :: r, S i => x :: replace_at i t r
  end.

Definition with_track (snapshot : list Sender) (k : Kind) (t : Track)
    (l : list Sender) : list Sender :=
  match findIndex (sends k) snapshot with
  | Some index => replace_at index t l
  | None => l ++ [Some t]
  end.

Definition with_senders (l : list Sender) (c : Connection) : Connection :=
  mkConnection (id c) (peerJsId c)
    (mkMedia (m_handle (mediaConnection c)) (m_peer (mediaConnection c)) l)
    (dataConnection c) (active c) (camMute c) (micMute c) (share c)
    (record c) (name c) (isCreator c).

(** [media.getVideoTracks()[0]], [media.getAudioTracks()[0]] *)
Definition first_track (k : Kind) (media : MediaStream) : Track :=
  match find (is_kind k) media with
  | Some t => t
  | None => mkTrack k 0
  end.

(** One round of the [forEach] in [resetConnectionsVideoAudioMedia]. *)
Definition reset_connection (media : MediaStream) (c : Connection)
    : Connection :=
  let snapshot := senders (mediaConnection c) in
  with_senders
    (with_track snapshot Audio (first_track Audio media)
       (with_track snapshot Video (first_track Video media) snapshot)) c.

(** [Media.resetConnectionsVideoAudioMedia(media)] *)
Definition resetConnectionsVideoAudioMedia (media : MediaStream)
    : M Media unit :=
  conns <- gets connections ;;
  forEach (fun c =>
             effect (renegotiate Video c) ;;
             effect (renegotiate Audio c) ;;
             cam <- gets camDisable ;;
             mic <- gets micDisable ;;
             effect (DataSend (d_handle (dataConnection c)) cam mic)) conns ;;
  modify (set_connections (map (reset_connection media) conns)).

(** [Media.streamVideo(null, media)] *)
Definition streamVideo_local (media : GrabResult) : M Media unit :=
  has <- gets local_element ;;
  if has then
    effect SetLocalVideo ;;
    match media with
    | Stream _ => ret tt
    | Message _ =>
        throw (TypeError "The provided value is not of type 'MediaStream'")
    end
  else ret tt.

(** *** Release *)

(** [Media.release()] *)
Definition release : M Media unit :=
  v <- gets video ;;
  match v with
  | None => ret tt
  | Some src =>
      match src with
      | Some tracks => forEach (fun t => effect (TrackStop (label t))) tracks
      | None => ret tt
      end ;;
      effect ClearInterval ;;
      modify (set_userMedia None)
  end.

(** *** Terminate, grab, and the mute toggles *)

(** The second and third branch of
    [Media.terminateConnectionsVideoAudioMedia], and its last statement. *)
Definition terminate_tracks (k : Kind) : M Media unit :=
  v <- gets video ;;
  match v with
  | Some (Some tracks) =>
      match k with
      | Video =>
          forEach (fun t => effect (TrackStop (label t)))
                  (filter (is_kind Video) tracks) ;;
          effect ClearInterval
      | Audio =>
          mic <- gets micDisable ;;
          forEach (fun t => effect (TrackEnabled (label t) (negb mic)))
                  (filter (is_kind Audio) tracks)
      end
  | _ => throw (TypeError "Cannot read properties of null")
  end.

Definition send_status : M Media unit :=
  cam <- gets camDisable ;;
  mic <- gets micDisable ;;
  sendUserMediaMuteStatusByDataConnection cam mic.

(** [Media.muteMicrophone(status)]; without an argument it toggles. *)
Definition muteMicrophone (status : option bool) : M Media unit :=
  mic <- gets micDisable ;;
  modify (set_micDisable (match status with Some b => b | None => negb mic end)) ;;
  terminate_tracks Audio ;;
  send_status.

(** [Media.grab], up to the point where it waits for the device: the
    constraints are built from [devices], which must be there. *)
Definition grab_begin (d : option Devices) (muteVideo : bool)
    : M Media unit :=
  modify (set_devices d) ;;
  match d with
  | None => throw (TypeError "Cannot read properties of null")
  | Some _ => effect (GetUserMedia (negb muteVideo) true)
  end.

(** The track of [createEmptyVideoTrack], and the track of the canvas. *)
Definition empty_video_track : Track := mkTrack Video 0.
Definition canvas_track : Track := mkTrack Video 1.

(** [Media.grab], from the answer of the device to the end of the [try]
    block. *)
Definition grab_rest (muteAudio : bool) (answer : GumOutcome)
    : M Media MediaStream :=
  match answer with
  | Denied error => throw error
  | Granted media0 =>
      effect ClearInterval ;;
      cam <- gets camDisable ;;
      let media := if cam then media0 ++ [empty_video_track] else media0 in
      v <- gets video ;;
      match v with
      | None => throw (TypeError "Cannot set properties of null")
      | Some _ =>
          modify (set_srcObject media) ;;
          match find (is_kind Audio) media with
          | None => throw (TypeError "parameter 1 is not of type 'MediaStreamTrack'")
          | Some audioTrack =>
              let processedMedia := [canvas_track; audioTrack] in
              modify (set_userMedia (Some processedMedia)) ;;
              effect (Emit "onMediaStreamReady") ;;
              when muteAudio (muteMicrophone (Some true)) ;;
              ret processedMedia
          end
      end
  end.

(** The [try]/[catch] of [Media.grab] around a part of its body. *)
Definition caught (body : M Media MediaStream) : M Media GrabResult :=
  try_catch (media <- body ;; ret (Stream media))
            (fun error => ret (Message (grab_catch error))).

(** [Media.grab(devices, muteVideo, muteAudio)], given what the device is
    going to answer. *)
Definition grab (d : option Devices) (muteVideo muteAudio : bool)
    (answer : GumOutcome) : M Media GrabResult :=
  caught (grab_begin d muteVideo ;; grab_rest muteAudio answer).

(** The callback that [terminateConnectionsVideoAudioMedia] attaches to
    the promise of [grab]. *)
Definition grab_then (media : GrabResult) : M Media unit :=
  streamVideo_local media ;;
  match media with
  | Stream m => resetConnectionsVideoAudioMedia m
  | Message _ =>
      conns <- gets connections ;;
      match conns with
      | [] => ret tt
      | _ :: _ => throw (TypeError "media.getVideoTracks is not a function")
      end
  end.

(** [Media.terminateConnectionsVideoAudioMedia(type)]: what runs before
    the call returns. *)
Definition terminateConnectionsVideoAudioMedia (k : Kind) : M Media unit :=
  cam <- gets camDisable ;;
  match k, cam with
  | Video, false =>
      release ;;
      d <- gets devices ;;
      mic <- gets micDisable ;;
      started <- caught (grab_begin d cam ;; ret []) ;;
      modify (fun s =>
        set_pending (pending s ++
                       [match started with
                        | Stream _ => AwaitingDevice mic
                        | Message _ => Settled started
                        end]) s)
  | Video, true => terminate_tracks Video
  | Audio, _ => terminate_tracks Audio
  end ;;
  send_status.

(** [Media.muteCamera(status)]; without an argument it toggles. *)
Definition muteCamera (status : option bool) : M Media unit :=
  cam <- gets camDisable ;;
  modify (set_camDisable (match status with Some b => b | None => negb cam end)) ;;
  terminateConnectionsVideoAudioMedia Video.

(** The oldest pending [grab] settles (the device answers, if it was
    asked), and its callback runs. *)
Definition grab_settles (answer : GumOutcome) : M Media unit :=
  p <- gets pending ;;
  match p with
  | [] => ret tt
  | first :: others =>
      modify (set_pending others) ;;
      media <- match first with
               | AwaitingDevice muteAudio => caught (grab_rest muteAudio answer)
               | Settled result => ret result
               end ;;
      grab_then media
  end.

(** The replace-or-add calls among some effects. *)
Definition track_ops (l : list Effect) : list Effect := filter is_track_op l.

(** [s'] is [s] with [l] added to the log; the stream fields, the mute
    flags and the devices may differ. *)
Definition quiet_step (s s' : Media) : Prop :=
  connections s' = connections s /\ pending s' = pending s /\
  local_element s' = local_element s /\
  exists l, log s' = log s ++ l /\ track_ops l = [].

(** [s'] is a quiet step away from [s] and has its mute flags, devices
    and local stream. *)
Definition keeps (s s' : Media) : Prop :=
  camDisable s' = camDisable s /\ micDisable s' = micDisable s /\
  devices s' = devices s /\ video s' = video s /\
  connections s' = connections s /\ pending s' = pending s /\
  local_element s' = local_element s /\
  exists l, log s' = log s ++ l /\ filter is_track_op l = [].

(** What one connection sees of a renegotiation pass. *)
Definition renegotiation (cam mic : bool) (c : Connection) : list Effect :=
  [renegotiate Video c; renegotiate Audio c;
   DataSend (d_handle (dataConnection c)) cam mic].

(** A computation all of whose steps are quiet, whether it returns or
    throws. *)
Definition quiet {A : Type} (m : M Media A) : Prop :=
  forall s, quiet_step s (state_of (m s)).

(** [m] returns normally from every state, into a state related by [R]. *)
Definition returning (R : Media -> Media -> Prop) {A : Type} (m : M Media A)
    : Prop :=
  forall s, exists a s', m s = Ok a s' /\ R s s'.

(** The names and the messages of the error table. *)
Definition known_names : list string := flat_map fst mediaGrabErrors.
Definition taxonomy : list string := map snd mediaGrabErrors.

(** A session with the camera off, the microphone on, and one peer whose
    connection carries a video and an audio sender. *)
Definition example_peer : Connection :=
  mkConnection "p1" "p1"
    (mkMedia 11 "p1" [Some (mkTrack Video 7); Some (mkTrack Audio 8)])
    (mkData 12 "p1") true false false false false (Some "Ann") (Some true).

Definition example_session : Media :=
  mkMediaState true false (Some (mkDevices "cam0" "mic0"))
    (Some (Some [mkTrack Video 7; mkTrack Audio 8]))
    true (Some [canvas_track; mkTrack Audio 8])
    [example_peer] [] [].

Definition example_answer : GumOutcome :=
  Granted [mkTrack Video 9; mkTrack Audio 10].

End Media.

(** ** SocketIO, continued: the rest of the class and whole sessions *)
Module SocketIOSession.
Import SocketIO.

(** An argument of [emit]: a function (an acknowledgement callback) or a
    plain value. *)
Inductive Arg : Type :=
| AFunction (id : nat)
| AValue (text : string).

Definition is_function (a : Arg) : bool :=
  match a with AFunction _ => true | AValue _ => false end.

(** The instance, and what it has handed to [socket.emit] and
    [socket.on] on behalf of its user. *)
Record Session : Type := mkSession {
  io : SocketIO;
  sent : list (string * list Arg);     (* socket.emit(event, ...args) *)
  listening : list (string * nat)      (* socket.on(event, handler) *)
}.

(** [emit(eventName, ...args)]: a trailing callback is popped and passed
    again after the rest.  Reading [emit] off a null socket is a
    TypeError. *)
Definition emit (eventName : string) (args : list Arg) (x : Session)
    : Outcome unit * Session :=
  if negb (initialized (io x)) then
    (Throws "Socket not initialized. Call initial() first." (io x), x)
  else
    let passed :=
      match rev args with
      | lastArg :: before =>
          if is_function lastArg then rev before ++ [lastArg] else args
      | [] => args
      end in
    match socket (io x) with
    | Some _ =>
        (Returns tt (io x),
         mkSession (io x) (sent x ++ [(eventName, passed)]) (listening x))
    | None =>
        (Throws "Cannot read properties of null (reading 'emit')" (io x), x)
    end.

(** [listen(eventName, handler)] *)
Definition listen (eventName : string) (handler : nat) (x : Session)
    : Outcome unit * Session :=
  if negb (initialized (io x)) then
    (Throws "Socket not initialized. Call initial() first." (io x), x)
  else
    match socket (io x) with
    | Some _ =>
        (Returns tt (io x),
         mkSession (io x) (sent x) (listening x ++ [(eventName, handler)]))
    | None =>
        (Throws "Cannot read properties of null (reading 'on')" (io x), x)
    end.

(** [getId()]: the socket's id ([id_of] stands for the [id] property), or
    null. *)
Definition getId (id_of : Socket -> string) (s : SocketIO) : option string :=
  if isConnected s then
    match socket s with Some k => Some (id_of k) | None => None end
  else None.

(** What can happen to an instance: a call of its user, or an event. *)
Inductive Call : Type :=
| CInitialize
| CSetConnection (status : bool) (token : option string)
| CDisconnect
| CEvent (e : Event).

Definition call (c : Call) (s : SocketIO) : SocketIO :=
  match c with
  | CInitialize => initialize s
  | CSetConnection status token =>
      match setConnection status token s with
      | Returns _ s' => s'
      | Throws _ s' => s'
      end
  | CDisconnect => disconnect s
  | CEvent e => deliver e s
  end.

Definition exec (calls : list Call) (s : SocketIO) : SocketIO :=
  fold_left (fun st c => call c st) calls s.

(** At most one retry timer is pending, and it is the one whose handle the
    configuration holds. *)
Definition single_timer (s : SocketIO) : Prop :=
  match timers s with
  | [] => True
  | [t] => timeout (reconnectionConfig s) = Some (fst t)
  | _ :: _ :: _ => False
  end.

(** An initialized instance has its socket. *)
Definition opened (s : SocketIO) : Prop :=
  initialized s = true -> socket s <> None.

(** [s'] is initialized if [s] is, and has a socket if [s] has. *)
Definition same_shape (s s' : SocketIO) : Prop :=
  initialized s' = initialized s /\ (socket s' = None <-> socket s = None).

(** The number of timers set in a log. *)
Definition retries (l : list Effect) : nat :=
  List.length (filter is_SetTimeout l).

(** The attempt counter only grew from [s] to [s'], never past the
    maximum, and each step of it was one timer. *)
Definition counted (s s' : SocketIO) : Prop :=
  attempts (reconnectionConfig s') = attempts (reconnectionConfig s) /\
  currentAttempt (reconnectionConfig s)
    <= currentAttempt (reconnectionConfig s') /\
  currentAttempt (reconnectionConfig s')
    <= Nat.max (attempts (reconnectionConfig s))
               (currentAttempt (reconnectionConfig s)) /\
  retries (log s') + currentAttempt (reconnectionConfig s)
    = retries (log s) + currentAttempt (reconnectionConfig s').

(** The configuration right after a successful connect. *)
Definition rearmed (s : SocketIO) : Prop :=
  enabled (reconnectionConfig s) = true /\
  currentAttempt (reconnectionConfig s) = 0 /\
  timeout (reconnectionConfig s) = None.

End SocketIOSession.

(** ** People, continued: whole histories of the roster *)
Module Roster.
Import People.
Local Open Scope js_scope.

(** The state with some more effects logged. *)
Definition logged (es : list Effect) (s : People) : People :=
  mkPeople (connections s) (waitingList s) (information s) (debug s)
           (close_fails s) (stop_share_fails s) (log s ++ es).

(** Closing the media and then the data connection of each entry, in
    roster order. *)
Definition closes (l : list Connection) : list Effect :=
  flat_map (fun c => [MediaClose (m_handle (mediaConnection c));
                      DataClose (d_handle (dataConnection c))]) l.


(** [parent.Room.information = data], done by the room-information
    handler of [Events]. *)
Definition set_information (i : option RoomInformation) (s : People)
    : People :=
  mkPeople (connections s) (waitingList s) i (debug s) (close_fails s)
           (stop_share_fails s) (log s).

(** What happens to the roster: a call of its user (who goes on whether
    or not the call threw), or new room information. *)
Inductive Call : Type :=
| CAdd (m : MediaConnection) (d : DataConnection) (data : option JoinData)
| CRemove (peerJsId : string)
| CCloseAll
| CInformation (i : option RoomInformation).

Definition call (c : Call) (s : People) : People :=
  match c with
  | CAdd m d data => state_of (add m d data s)
  | CRemove p => state_of (remove p s)
  | CCloseAll => state_of (closeAll s)
  | CInformation i => set_information i s
  end.

(** The effects that [remove p] may perform on a roster: closing a
    connection object of an entry of [p], scheduling the stream reset,
    and the console. *)
Definition concerns (p : string) (l : list Connection) (e : Effect) : Prop :=
  match e with
  | MediaClose h =>
      exists c, In c l /\ peerJsId c = p /\ m_handle (mediaConnection c) = h
  | DataClose h =>
      exists c, In c l /\ peerJsId c = p /\ d_handle (dataConnection c) = h
  | ScheduleStreamReset _ => True
  | ConsoleError _ => True
  | _ => False
  end.

(** The entries of the other peers. *)
Definition others (p : string) (l : list Connection) : list Connection :=
  filter (fun c => negb (String.eqb (peerJsId c) p)) l.

Definition exec (calls : list Call) (s : People) : People :=
  fold_left (fun st c => call c st) calls s.

End Roster.

(** ** People, continued: the waiting list (src/modules/People.js) *)
Module WaitingList.
Import Events.
Local Open Scope js_scope.

(** [People.waitingList]: the descriptors that were pushed, as they came
    from the server. *)
Definition WaitingList : Type := list Value.

(** Reading a property of [null] or [undefined] throws. *)
Definition nullish (x : Value) : bool :=
  match x with VNull | VUndefined => true | _ => false end.

Definition no_property : JSError :=
  TypeError "Cannot read properties of null (reading 'peerJsId')".

(** [list.some(x => x.peerJsId === data.peerJsId)]: the callback reads
    [x.peerJsId] and then [data.peerJsId], for each element until one
    matches. *)
Fixpoint some_same_peer (data : Value) (l : list Value)
    : M WaitingList bool :=
  match l with
  | [] => ret false
  | x :: r =>
      if nullish x || nullish data then throw no_property
      else if strict_eq (field "peerJsId" x) (field "peerJsId" data)
           then ret true
           else some_same_peer data r
  end.

(** [People.addToWaitingList(data)] *)
Definition addToWaitingList (data : Value) : M WaitingList unit :=
  waiting <- gets (fun l => l) ;;
  found <- some_same_peer data waiting ;;
  if found then ret tt else modify (fun l => l ++ [data]).

(** [People.removeFromWaitingList(index)], for an integer index. *)
Definition removeFromWaitingList (index : Z) : M WaitingList unit :=
  if (-1 <? index)%Z then modify (splice1 (Z.to_nat index)) else ret tt.

(** [list.findIndex(x => x.peerJsId === peerJsId)], from position [i]. *)
Fixpoint findIndex_peer (peerJsId : Value) (i : Z) (l : list Value)
    : M WaitingList Z :=
  match l with
  | [] => ret (-1)%Z
  | x :: r =>
      if nullish x then throw no_property
      else if strict_eq (field "peerJsId" x) peerJsId then ret i
           else findIndex_peer peerJsId (i + 1)%Z r
  end.

(** [People.removeFromWaitingListByPeerJsId(peerJsId)] *)
Definition removeFromWaitingListByPeerJsId (peerJsId : Value)
    : M WaitingList unit :=
  waiting <- gets (fun l => l) ;;
  index <- findIndex_peer peerJsId 0%Z waiting ;;
  removeFromWaitingList index.

(** What is done to the waiting list. *)
Inductive Call : Type :=
| CAdd (data : Value)
| CRemoveAt (index : Z)
| CRemovePeer (peerJsId : Value)
| CClear.                               (* [closeAll] empties it *)

Definition call (c : Call) (l : WaitingList) : WaitingList :=
  match c with
  | CAdd data => state_of (addToWaitingList data l)
  | CRemoveAt index => state_of (removeFromWaitingList index l)
  | CRemovePeer p => state_of (removeFromWaitingListByPeerJsId p l)
  | CClear => []
  end.

Definition exec (calls : list Call) (l : WaitingList) : WaitingList :=
  fold_left (fun st c => call c st) calls l.

(** No two entries carry the same peer id. *)
Definition distinct_peers (l : WaitingList) : Prop :=
  ForallOrdPairs
    (fun a b => strict_eq (field "peerJsId" a) (field "peerJsId" b) = false)
    l.

(** The entry has the peer id [p]. *)
Definition is_peer (p : Value) (x : Value) : bool :=
  strict_eq (field "peerJsId" x) p.

(** A descriptor as the server sends it. *)
Definition descriptor (peer name : string) : Value :=
  VObj (with_field "peerJsId" (VStr peer)
          (with_field "name" (VStr name) no_fields)).

End WaitingList.

(** ** VideoPeer, continued: histories of the peer transport *)
Module VideoPeerSession.
Import VideoPeer.

(** The host changes what [videoPeer.disconnected] reads and whether
    [videoPeer.reconnect()] throws. *)
Definition set_host (d f : bool) (v : VideoPeer) : VideoPeer :=
  mkVideoPeer (reconnectAttempts v) (maxReconnectAttempts v)
    (reconnectDelay v) d f (nextTimer v) (log v).

(** What happens to the transport: the peer's [disconnected] and [open]
    events, the expiry of a reconnection timer (with the value
    [Math.random()] returns in its callback), and changes of the host. *)
Inductive Event : Type :=
| EvDisconnected
| EvTimer (jitter : Q)
| EvOpen
| EvHost (disconnected reconnect_fails : bool).

Definition deliver (e : Event) (v : VideoPeer) : VideoPeer :=
  match e with
  | EvDisconnected => attemptReconnection v
  | EvTimer jitter => reconnection_timer jitter v
  | EvOpen => resetReconnectionState v
  | EvHost d f => set_host d f v
  end.

Definition run (evs : list Event) (v : VideoPeer) : VideoPeer :=
  fold_left (fun st e => deliver e st) evs v.

(** [Math.random()] returns a number in [0, 1). *)
Definition random_value (e : Event) : Prop :=
  match e with
  | EvTimer jitter => (0 <= jitter)%Q /\ (jitter < 1)%Q
  | _ => True
  end.

(** Between one and thirty seconds. *)
Definition in_range (ms : Q) : Prop := (1000 <= ms)%Q /\ (ms <= 30000)%Q.

(** The delays of the timers set so far, oldest first. *)
Definition timer_delays (l : list Effect) : list Q :=
  flat_map (fun e => match e with SetTimeout _ ms => [ms] | _ => [] end) l.

(** The current delay is in range and so is that of every timer set so
    far. *)
Definition steady (v : VideoPeer) : Prop :=
  in_range (reconnectDelay v) /\ Forall in_range (timer_delays (log v)).

End VideoPeerSession.

(** ** Room, continued: histories of the dispatcher, and action names *)
Module RoomSession.
Import Events Room.
Local Open Scope js_scope.

(** The state with some more effects logged. *)
Definition logged (es : list Effect) (s : Room) : Room :=
  mkRoom (information s) (actions s) (custom s) (builtin s) (debug s)
         (localPeerJsId s) (socket s) (peerJs s) (shareMedia s) (people s)
         (release_fails s) (global_parent s) (log s ++ es).

(** The state once the handler of [actionName] is in [Room.actions]. *)
Definition cached (actionName : string) (item : ActionItem) (s : Room)
    : Room :=
  match find (fun x => String.eqb (fst x) actionName) (actions s) with
  | Some _ => s
  | None => set_actions (actions s ++ [(actionName, item)]) s
  end.

(** The notification that follows a handler that returned. *)
Definition action_event (action : Action) : Effect :=
  Emit (String.append "on"
          (String.append (capitalize (kebabToCamel (a_name action)))
             "Action"))
       (attributes action).

(** The run-action handler of [Events] is called for each envelope the
    server sends; what it throws goes to the socket library. *)
Definition dispatch (action : Action) (s : Room) : Room :=
  state_of (runRequestedAction action s).

Definition dispatch_all (l : list Action) (s : Room) : Room :=
  fold_left (fun st a => dispatch a st) l s.

(** [Room.actions] holds at most one handler per name. *)
Definition one_handler_per_name (s : Room) : Prop :=
  NoDup (map fst (actions s)).

(** [null] or [undefined]. *)
Definition nullish (v : Value) : bool :=
  match v with VNull | VUndefined => true | _ => false end.

(** *** Names (src/helpers/userTokenHelper.js, class Webrtc) *)

Definition is_upper (c : ascii) : bool :=
  (65 <=? nat_of_ascii c) && (nat_of_ascii c <=? 90).

Definition toLowerCase (c : ascii) : ascii :=
  if is_upper c then ascii_of_nat (nat_of_ascii c + 32) else c.

(** [name.replace(/[A-Z]/g, m => '-' + m.toLowerCase())] *)
Fixpoint camelToKebab (s : string) : string :=
  match s with
  | EmptyString => EmptyString
  | String c r =>
      if is_upper c then String "-" (String (toLowerCase c) (camelToKebab r))
      else String c (camelToKebab r)
  end.

(** No hyphen in the name. *)
Fixpoint no_hyphen (s : string) : bool :=
  match s with
  | EmptyString => true
  | String c r => negb (Ascii.eqb c "-") && no_hyphen r
  end.

(** No hyphen that is followed by a lower-case letter. *)
Fixpoint no_hyphen_letter (s : string) : bool :=
  match s with
  | EmptyString => true
  | String c r =>
      negb (Ascii.eqb c "-"
            && match r with String d _ => is_lower d | EmptyString => false end)
      && no_hyphen_letter r
  end.

(** A kebab-case name: no capital, and a lower-case letter after each
    hyphen. *)
Fixpoint is_kebab (s : string) : bool :=
  match s with
  | EmptyString => true
  | String c r =>
      negb (is_upper c)
      && (if Ascii.eqb c "-"
          then match r with String d _ => is_lower d | EmptyString => false end
          else true)
      && is_kebab r
  end.

End RoomSession.

(** ** Media, continued: muting the camera, and a refused device *)
Module MediaSession.
Import People Media.
Local Open Scope js_scope.

(** The state with some more effects logged. *)
Definition logged (es : list Effect) (s : Media) : Media :=
  mkMediaState (camDisable s) (micDisable s) (devices s) (video s)
    (local_element s) (userMedia s) (connections s) (pending s)
    (log s ++ es).

(** The mute status, as sent to every connection of a roster. *)
Definition status_sent (cam mic : bool) (l : list Connection) : list Effect :=
  map (fun c => DataSend (d_handle (dataConnection c)) cam mic) l.

(** Stopping the tracks of a stream, in order. *)
Definition stops (tracks : MediaStream) : list Effect :=
  map (fun t => TrackStop (label t)) tracks.

(** The value of the flag after a call with [status], or with no
    argument. *)
Definition requested (status : option bool) (current : bool) : bool :=
  match status with Some b => b | None => negb current end.

(** Unmuting the camera and then hearing from the device. *)
Definition unmute_then (answer : GumOutcome) : M Media unit :=
  muteCamera (Some false) ;; grab_settles answer.

(** Some sender of the connection carries a track of kind [k]. *)
Definition has_sender (k : Kind) (l : list Sender) : bool :=
  existsb (sends k) l.

Definition is_add (e : Effect) : bool :=
  match e with AddTrack _ _ => true | _ => false end.

(** A stream with a video and an audio track, as [grab] returns it. *)
Definition complete (media : MediaStream) : bool :=
  existsb (is_kind Video) media && existsb (is_kind Audio) media.

(** Two renegotiation passes, as after two unmutes. *)
Definition two_passes (media media' : MediaStream) : M Media unit :=
  resetConnectionsVideoAudioMedia media ;;
  resetConnectionsVideoAudioMedia media'.

End MediaSession.

(** ** Media, continued: the play handlers and the face-detector callbacks
    (src/unnamed/part_005, second module) *)
Module MediaRegistry.
Local Open Scope js_scope.

(** An element of [Media.events[section]]; the handler is a function,
    known by a number, or a falsy value. *)
Record EventItem : Type := mkEventItem {
  e_name : string;
  e_handler : option nat
}.

(** The sections of [Media.events], by name. *)
Definition Sections : Type := string -> option (list EventItem).

(** [array[index] = item] for an index inside the array. *)
Fixpoint set_nth {A : Type} (index : nat) (item : A) (l : list A) : list A :=
  match l, index with
  | [], _ => []
  | _ :: r, O => item :: r
  | x :: r, S i => x :: set_nth i item r
  end.

(** What [Media.setup] leaves in [Media.events]. *)
Definition initial_events : option Sections :=
  Some (fun k => if String.eqb k "play" then Some [] else None).

(** [Media.setEvent(name, handler, section)] *)
Definition setEvent (name : string) (handler : option nat) (section : string)
    (events : option Sections) : option Sections :=
  let events1 : Sections :=
    match events with Some e => e | None => fun _ => None end in
  let items := match events1 section with Some l => l | None => [] end in
  let item := mkEventItem name handler in
  let items' :=
    match findIndex (fun x => String.eqb (e_name x) name) items with
    | Some index => set_nth index item items
    | None => items ++ [item]
    end in
  Some (fun k => if String.eqb k section then Some items' else events1 k).

(** The handlers that the [forEach] of the play listener calls. *)
Definition handlers_called (items : list EventItem) : list nat :=
  flat_map (fun item => match e_handler item with
                        | Some h => [h]
                        | None => []
                        end) items.

(** The listener that [Media.streamVideo] attaches to the [play] event of
    a video element: the handlers it calls, or the error it ends with.
    An array is truthy, [undefined] is not. *)
Definition play_listener (events : option Sections)
    : Result unit (list nat) :=
  match events with
  | None =>
      Throw (TypeError "Cannot read properties of null (reading 'play')") tt
  | Some e =>
      let play := e "play" in
      let truthy := match play with Some _ => true | None => false end in
      if negb truthy then
        match play with
        | None =>
            Throw (TypeError
                     "Cannot read properties of undefined (reading 'length')")
                  tt
        | Some items =>
            if 0 <? List.length items then Ok (handlers_called items) tt
            else Ok [] tt
        end
      else Ok [] tt
  end.

(** A sequence of [setEvent] calls. *)
Definition setEvents (calls : list (string * option nat * string))
    (events : option Sections) : option Sections :=
  fold_left (fun ev c => setEvent (fst (fst c)) (snd (fst c)) (snd c) ev)
            calls events.

(** An element of [Media.faceDetector.callbacks]. *)
Record Callback : Type := mkCallback {
  cb_name : string;
  enable : bool;
  callback : nat
}.

(** [Media.registerFaceDetectorCallback(name, callback)]: the array
    afterwards, and the index of the element it returns. *)
Definition registerFaceDetectorCallback (name : string) (cb : nat)
    (callbacks : list Callback) : list Callback * nat :=
  match findIndex (fun c => String.eqb (cb_name c) name) callbacks with
  | Some index =>
      (match nth_error callbacks index with
       | Some c => set_nth index (mkCallback (cb_name c) (enable c) cb)
                           callbacks
       | None => callbacks
       end, index)
  | None =>
      (callbacks ++ [mkCallback name false cb], List.length callbacks)
  end.

(** What the owner of a returned element does with it
    ([callbacks[type].enable = status] in the canvas helper). *)
Definition set_enable (index : nat) (status : bool)
    (callbacks : list Callback) : list Callback :=
  match nth_error callbacks index with
  | Some c => set_nth index (mkCallback (cb_name c) status (callback c))
                      callbacks
  | None => callbacks
  end.

(** The callbacks that [Media.processOnMedia] runs on a detected face. *)
Definition faceDetectorCallbacks (callbacks : list Callback)
    : list Callback :=
  filter enable callbacks.

Inductive Call : Type :=
| CRegister (name : string) (cb : nat)
| CEnable (index : nat) (status : bool).

Definition call (c : Call) (callbacks : list Callback) : list Callback :=
  match c with
  | CRegister name cb => fst (registerFaceDetectorCallback name cb callbacks)
  | CEnable index status => set_enable index status callbacks
  end.

Definition exec (calls : list Call) (callbacks : list Callback)
    : list Callback :=
  fold_left (fun st c => call c st) calls callbacks.

(** The entry of a name, if there is one. *)
Definition entry (name : string) (callbacks : list Callback)
    : option Callback :=
  find (fun c => String.eqb (cb_name c) name) callbacks.

End MediaRegistry.

(** ** Data from a peer (src/unnamed/part_000, class VideoPeer) *)
Module PeerData.
Import Events.
Local Open Scope js_scope.

(** [object[key] = v]: an own property keeps its place. *)
Fixpoint set_field (key : string) (v : Value) (fields : Fields) : Fields :=
  match fields with
  | no_fields => with_field key v no_fields
  | with_field k x rest =>
      if String.eqb k key then with_field k v rest
      else with_field k x (set_field key v rest)
  end.

(** [data.event || 'unknown'] as the name [executeHandler] looks up: a
    truthy value that is not a string is equal to no registered name. *)
Definition event_name (v : Value) : option string :=
  match v with
  | VStr e => Some (if String.eqb e "" then "unknown" else e)
  | VUndefined | VNull | VBool false => Some "unknown"
  | VBool true | VObj _ => None
  end.

(** The end of [executeHandler] when no registration matches. *)
Definition handler_not_found : M Events Value :=
  dbg <- gets debug ;;
  when dbg (effect (ConsoleWarn "Handler not found")) ;;
  ret VUndefined.

(** The listener that the [connection] handler of the peer attaches to the
    [data] event of a connection with [peer]. *)
Definition on_data (peer : string) (data : Value) : M Events Value :=
  match data with
  | VObj fields =>
      let stamped := VObj (set_field "peerJsId" (VStr peer) fields) in
      match event_name (field "event" stamped) with
      | Some e => executeHandler "peerJsData" e stamped
      | None => handler_not_found
      end
  | VUndefined | VNull =>
      throw (TypeError
               "Cannot set properties of undefined (setting 'peerJsId')")
  | VBool _ | VStr _ =>
      throw (TypeError "Cannot create property 'peerJsId'")
  end.

End PeerData.

(** ** RecordScreen: the recording flag of a peer
    (src/modules/RecordScreen.js) *)
Module RecordScreen.
Import People.

Inductive Effect : Type :=
| Emit (name : string) (status : bool).     (* parent.emit(name, {detail}) *)

(** [array.find] result written back: the first entry that satisfies [f]
    is replaced by [g] of it. *)
Fixpoint update_first {A : Type} (f : A -> bool) (g : A -> A) (l : list A)
    : list A :=
  match l with
  | [] => []
  | x :: r => if f x then g x :: r else x :: update_first f g r
  end.

Definition set_record (b : bool) (c : Connection) : Connection :=
  mkConnection (id c) (peerJsId c) (mediaConnection c) (dataConnection c)
    (active c) (camMute c) (micMute c) (share c) b (name c) (isCreator c).

(** [RecordScreen.setStatus(data)], for a message whose [record] is a
    boolean, as [eventTrigger] sends it: the roster afterwards and what
    was emitted. *)
Definition setStatus (peer : string) (record : bool)
    (connections : list Connection) : list Connection * list Effect :=
  match find (fun x => String.eqb (peerJsId x) peer) connections with
  | Some _ =>
      (update_first (fun x => String.eqb (peerJsId x) peer)
                    (set_record record) connections,
       [Emit "onScreenRecordStateChange" record])
  | None => (connections, [])
  end.

(** [x.isCreator === true && x.record === true] *)
Definition creator_records (x : Connection) : bool :=
  match isCreator x with Some true => People.record x | _ => false end.

(** [RecordScreen.isRecordingScreen()] *)
Definition isRecordingScreen (connections : list Connection) : bool :=
  match findIndex creator_records connections with
  | Some _ => true
  | None => false
  end.

End RecordScreen.

(** ** The action helper: the users of an action
    (src/helpers/actionHelper.js) *)
Module ActionHelper.
Import Events.

(** The [users] argument: an array, or a value that is not one. *)
Inductive Users : Type :=
| UArray (items : list Value)
| UValue (v : Value).

Fixpoint has_own (key : string) (fields : Fields) : bool :=
  match fields with
  | no_fields => false
  | with_field k _ rest => String.eqb k key || has_own key rest
  end.

(** [typeof item === 'object' && item !== null &&
    item.hasOwnProperty('peerJsId')] *)
Definition addressable (item : Value) : bool :=
  match item with
  | VObj fields => has_own "peerJsId" fields
  | _ => false
  end.

(** [setUsers(users)]: what ends up in [_actionItem.users]. *)
Definition setUsers (users : Users) : list Value :=
  let users1 :=
    match users with
    | UValue (VStr p) =>
        UArray [VObj (with_field "peerJsId" (VStr p) no_fields)]
    | other => other
    end in
  let users2 :=
    match users1 with
    | UArray items => items
    | UValue v => [v]
    end in
  filter addressable users2.

End ActionHelper.

(** ** Events, continued: the handlers of the server's events
    (src/unnamed/part_005, first module) *)
Module EventHandlers.
Import Events.
Local Open Scope js_scope.

(** What the handlers reach through [Events.parent]: the roster, the
    waiting list, and the local notifications emitted so far. *)
Record Parent : Type := mkParent {
  roster : People.People;
  waiting : WaitingList.WaitingList;
  emitted : list (string * Value)       (* parent.emit(name, data) *)
}.

(** A call into [parent.People] on the roster. *)
Definition in_roster {A : Type} (m : M People.People A) : M Parent A :=
  fun s =>
    match m (roster s) with
    | Ok a p => Ok a (mkParent p (waiting s) (emitted s))
    | Throw e p => Throw e (mkParent p (waiting s) (emitted s))
    end.

(** A call into [parent.People] on the waiting list. *)
Definition in_waiting {A : Type} (m : M WaitingList.WaitingList A)
    : M Parent A :=
  fun s =>
    match m (waiting s) with
    | Ok a w => Ok a (mkParent (roster s) w (emitted s))
    | Throw e w => Throw e (mkParent (roster s) w (emitted s))
    end.

Definition emit (name : string) (data : Value) : M Parent unit :=
  modify (fun s =>
    mkParent (roster s) (waiting s) (emitted s ++ [(name, data)])).

(** [data.peerJsId], which throws on [null] and [undefined]. *)
Definition peerJsId_of (data : Value) : M Parent Value :=
  if WaitingList.nullish data then throw WaitingList.no_property
  else ret (field "peerJsId" data).

(** [People.remove(v)] for any value: only a string is equal to the peer
    id of an entry. *)
Definition remove_value (v : Value) : M Parent unit :=
  match v with
  | VStr p => in_roster (People.remove p)
  | _ =>
      (* [findIndex] finds nothing; the [try] block ends *)
      ret tt
  end.

(** [Events._handleUserLeftRoom(data)]; [_handleUserDisconnected] has the
    same body. *)
Definition _handleUserLeftRoom (data : Value) : M Parent unit :=
  p <- peerJsId_of data ;;
  remove_value p ;;
  emit "onRoomLeft" data.

(** [Events._handleAdmitUserToJoin(data)] *)
Definition _handleAdmitUserToJoin (data : Value) : M Parent unit :=
  in_waiting (WaitingList.addToWaitingList data) ;;
  emit "onAdmissionRequest" data.

(** [Events._handleRemoveUserFromWaitingList(data)] *)
Definition _handleRemoveUserFromWaitingList (data : Value) : M Parent unit :=
  p <- peerJsId_of data ;;
  in_waiting (WaitingList.removeFromWaitingListByPeerJsId p) ;;
  emit "onAdmissionCancel" data.

End EventHandlers.

(** * Properties *)

(** ** The signaling channel *)
Module SocketIOProofs.
Import SocketIO Handshake.

(** *** Arithmetic of the backoff formula *)

Lemma Math_pow_pos (b : Q) (e : nat) :
  (1 <= b)%Q -> (1 <= Math_pow b e)%Q.
Proof.
  intros Hb. induction e as [|e IH]; simpl.
  - apply Qle_refl.
  - apply Qle_trans with (y := (1 * Math_pow b e)%Q).
    + rewrite Qmult_1_l. exact IH.
    + apply Qmult_le_compat_r; [exact Hb|].
      apply Qle_trans with (y := 1%Q); [discriminate | exact IH].
Qed.

Lemma Math_pow_step (b : Q) (e : nat) :
  (1 <= b)%Q -> (Math_pow b e <= Math_pow b (S e))%Q.
Proof.
  intros Hb. simpl.
  apply Qle_trans with (y := (1 * Math_pow b e)%Q).
  - rewrite Qmult_1_l. apply Qle_refl.
  - apply Qmult_le_compat_r; [exact Hb|].
    apply Qle_trans with (y := 1%Q); [discriminate | apply Math_pow_pos; exact Hb].
Qed.

Lemma Math_pow_mono (b : Q) (j k : nat) :
  (1 <= b)%Q -> j <= k -> (Math_pow b j <= Math_pow b k)%Q.
Proof.
  intros Hb Hjk. induction Hjk as [|k Hjk IH].
  - apply Qle_refl.
  - eapply Qle_trans; [exact IH | apply Math_pow_step; exact Hb].
Qed.

Lemma retryDelay_mono (c : ReconnectionConfig) (j k : nat) :
  (0 <= delay c)%Q -> (1 <= backoffFactor c)%Q -> j <= k ->
  (retryDelay c j <= retryDelay c k)%Q.
Proof.
  intros Hd Hb Hjk. unfold retryDelay, Math_min.
  apply Q.min_le_compat_r.
  rewrite (Qmult_comm (delay c) (Math_pow (backoffFactor c) j)).
  rewrite (Qmult_comm (delay c) (Math_pow (backoffFactor c) k)).
  apply Qmult_le_compat_r; [|exact Hd].
  apply Math_pow_mono; assumption.
Qed.

(** The shipped configuration reaches its cap at the fifth retry. *)
Lemma shipped_delay_capped (j : nat) :
  4 <= j -> (retryDelay (reconnectionConfig constructor) j == 5000)%Q.
Proof.
  intros Hj. unfold retryDelay, Math_min. simpl.
  apply Q.min_r.
  apply Qle_trans with (y := (1000 * Math_pow 1.5 4)%Q).
  - vm_compute. discriminate.
  - rewrite (Qmult_comm 1000 (Math_pow 1.5 4)).
    rewrite (Qmult_comm 1000 (Math_pow 1.5 j)).
    apply Qmult_le_compat_r; [|discriminate].
    apply Math_pow_mono; [vm_compute; discriminate | exact Hj].
Qed.

(** *** One call of [_attemptReconnection] *)

Lemma attempt_schedules (s : SocketIO) :
  isConnected s = false ->
  enabled (reconnectionConfig s) = true ->
  currentAttempt (reconnectionConfig s) < attempts (reconnectionConfig s) ->
  let c := reconnectionConfig s in
  let d := retryDelay c (currentAttempt c) in
  let s' := _attemptReconnection s in
  timeout (reconnectionConfig s') = Some (nextTimer s) /\
  In (nextTimer s, d) (timers s') /\
  log s' = log s ++ cancelled s ++ [SetTimeout (nextTimer s) d] /\
  currentAttempt (reconnectionConfig s') = S (currentAttempt c).
Proof.
  intros Hc He Hk. unfold _attemptReconnection, cancelled.
  rewrite Hc, He. simpl orb. cbv iota.
  destruct (timeout (reconnectionConfig s)) as [id|] eqn:Ht; simpl.
  - destruct (Nat.leb_spec (attempts (reconnectionConfig s))
                (currentAttempt (reconnectionConfig s))) as [H|H]; [lia|].
    simpl. repeat split.
    + apply in_or_app. right. left. reflexivity.
    + rewrite <- app_assoc. reflexivity.
  - destruct (Nat.leb_spec (attempts (reconnectionConfig s))
                (currentAttempt (reconnectionConfig s))) as [H|H]; [lia|].
    simpl. repeat split.
    apply in_or_app. right. left. reflexivity.
Qed.


(** *** After the attempts are used up *)

Lemma quietly_refl (s : SocketIO) : quietly s s.
Proof.
  repeat split. exists []. split; [now rewrite app_nil_r | reflexivity].
Qed.

Lemma quietly_trans (a b c : SocketIO) :
  quietly a b -> quietly b c -> quietly a c.
Proof.
  intros (Ha & Hk & l & Hl & Hq) (Ha' & Hk' & l' & Hl' & Hq').
  split; [congruence|]. split; [congruence|].
  exists (l ++ l'). split.
  - rewrite Hl', Hl, app_assoc. reflexivity.
  - rewrite forallb_app, Hq, Hq'. reflexivity.
Qed.

Lemma quietly_exhausted (s s' : SocketIO) :
  quietly s s' -> exhausted s -> exhausted s'.
Proof. unfold exhausted. intros (Ha & Hk & _) H. rewrite Ha, Hk. exact H. Qed.

(** Steps that touch neither the configuration nor the log. *)
Lemma quietly_same (s s' : SocketIO) :
  reconnectionConfig s' = reconnectionConfig s -> log s' = log s ->
  quietly s s'.
Proof.
  intros Hc Hl. unfold quietly. rewrite Hc, Hl. repeat split.
  exists []. split; [now rewrite app_nil_r | reflexivity].
Qed.

Lemma quietly_map_socket (f : Socket -> Socket) (s : SocketIO) :
  quietly s (map_socket f s).
Proof.
  apply quietly_same; unfold map_socket; destruct (socket s); reflexivity.
Qed.

Lemma quietly_off (h : Handler) (s : SocketIO) : quietly s (off h s).
Proof. apply quietly_map_socket. Qed.

Lemma quietly_on (h : Handler) (s : SocketIO) : quietly s (on h s).
Proof. apply quietly_map_socket. Qed.

Lemma quietly_attempt (s : SocketIO) :
  exhausted s -> quietly s (_attemptReconnection s).
Proof.
  unfold exhausted. intros Hx. unfold _attemptReconnection.
  destruct (isConnected s || negb (enabled (reconnectionConfig s)));
    [apply quietly_refl|].
  destruct (timeout (reconnectionConfig s)) as [id|]; simpl.
  - destruct (Nat.leb_spec (attempts (reconnectionConfig s))
                (currentAttempt (reconnectionConfig s))) as [H|H]; [|lia].
    repeat split. exists [ClearTimeout id]. split; reflexivity.
  - destruct (Nat.leb_spec (attempts (reconnectionConfig s))
                (currentAttempt (reconnectionConfig s))) as [H|H]; [|lia].
    apply quietly_refl.
Qed.

Lemma quietly_handler (h : Handler) (arg : string) (s : SocketIO) :
  h <> HResetAttempts -> exhausted s -> quietly s (run_handler h arg s).
Proof.
  intros Hh Hx. destruct h; simpl; try congruence.
  - destruct (_ && _); [apply quietly_attempt; exact Hx | apply quietly_refl].
  - destruct (enabled _); [apply quietly_attempt; exact Hx | apply quietly_refl].
  - unfold cleanup.
    eapply quietly_trans; [apply quietly_off|].
    eapply quietly_trans; [apply quietly_off|]. apply quietly_on.
  - unfold cleanup.
    eapply quietly_trans; [apply quietly_off|].
    eapply quietly_trans; [apply quietly_off|].
    apply quietly_same; reflexivity.
  - apply quietly_same; reflexivity.
Qed.

Lemma quietly_call_listeners (snapshot : list Handler) (arg : string) :
  forall s : SocketIO,
    (forall h, In h snapshot -> h <> HResetAttempts) ->
    exhausted s -> quietly s (call_listeners snapshot arg s).
Proof.
  induction snapshot as [|h r IH]; intros s Hs Hx; simpl.
  - apply quietly_refl.
  - assert (H1 : quietly s (if is_once h then off h s else s)).
    { destruct (is_once h); [apply quietly_off | apply quietly_refl]. }
    assert (H2 : quietly s
              (run_handler h arg (if is_once h then off h s else s))).
    { eapply quietly_trans; [exact H1|].
      apply quietly_handler; [apply Hs; now left|].
      eapply quietly_exhausted; eassumption. }
    eapply quietly_trans; [exact H2|].
    apply IH; [intros h' Hin; apply Hs; now right|].
    eapply quietly_exhausted; eassumption.
Qed.

Lemma quietly_emit_event (ev arg : string) (s : SocketIO) :
  ev <> "connect" -> exhausted s -> quietly s (emit_event ev arg s).
Proof.
  intros Hev Hx. unfold emit_event.
  destruct (socket s) as [k|]; [|apply quietly_refl].
  apply quietly_call_listeners; [|exact Hx].
  intros h Hin Heq. apply filter_In in Hin. destruct Hin as [_ Hin].
  subst h. apply String.eqb_eq in Hin. simpl in Hin. congruence.
Qed.

Lemma quietly_fire (id : TimerId) (s : SocketIO) : quietly s (fire id s).
Proof.
  unfold fire. destruct (existsb _ _); [|apply quietly_refl].
  unfold timer_callback. simpl.
  destruct (socket s) as [k|]; [|apply quietly_same; reflexivity].
  destruct (negb (connected k)); [|apply quietly_same; reflexivity].
  repeat split. exists [SocketOpen]. split; reflexivity.
Qed.

Lemma quietly_deliver (e : Event) (s : SocketIO) :
  is_EvConnect e = false -> exhausted s -> quietly s (deliver e s).
Proof.
  intros He Hx. destruct e; simpl in *; try discriminate.
  - apply quietly_emit_event; [discriminate | exact Hx].
  - eapply quietly_trans; [apply quietly_map_socket|].
    apply quietly_emit_event; [discriminate|].
    eapply quietly_exhausted; [apply quietly_map_socket | exact Hx].
  - apply quietly_emit_event; [discriminate | exact Hx].
  - apply quietly_fire.
Qed.

Lemma quietly_run (evs : list Event) :
  forall s : SocketIO,
    forallb (fun e => negb (is_EvConnect e)) evs = true ->
    exhausted s -> quietly s (run evs s).
Proof.
  induction evs as [|e r IH]; intros s He Hx; simpl in *.
  - apply quietly_refl.
  - apply andb_prop in He. destruct He as [He Hr].
    apply negb_true_iff in He.
    eapply quietly_trans; [apply quietly_deliver; eassumption|].
    apply IH; [exact Hr|].
    eapply quietly_exhausted; [apply quietly_deliver|]; eassumption.
Qed.


(** *** The handshake *)


Lemma Handler_eqb_eq (a b : Handler) : Handler_eqb a b = true <-> a = b.
Proof.
  destruct a, b; simpl; split; intros H;
    try discriminate; try reflexivity;
    try (apply Nat.eqb_eq in H; congruence);
    try (injection H as ->; apply Nat.eqb_refl).
Qed.

Lemma Handler_eqb_refl (a : Handler) : Handler_eqb a a = true.
Proof. apply Handler_eqb_eq. reflexivity. Qed.

Lemma Handler_eqb_neq (a b : Handler) : a <> b -> Handler_eqb a b = false.
Proof.
  intros H. destruct (Handler_eqb a b) eqn:E; [|reflexivity].
  apply Handler_eqb_eq in E. contradiction.
Qed.

Lemma occurrences_app (h : Handler) (l r : list Handler) :
  occurrences h (l ++ r) = occurrences h l + occurrences h r.
Proof. unfold occurrences. rewrite filter_app, length_app. reflexivity. Qed.

Lemma occurrences_remove_other (h x : Handler) (l : list Handler) :
  h <> x -> occurrences h (remove_first x l) = occurrences h l.
Proof.
  intros Hne. induction l as [|y r IH]; simpl; [reflexivity|].
  destruct (Handler_eqb y x) eqn:E.
  - apply Handler_eqb_eq in E. subst y. unfold occurrences. simpl.
    rewrite (Handler_eqb_neq h x Hne). reflexivity.
  - unfold occurrences in *. simpl. destruct (Handler_eqb h y); simpl; congruence.
Qed.

Lemma occurrences_remove_same (h : Handler) (l : list Handler) :
  occurrences h (remove_first h l) = pred (occurrences h l).
Proof.
  induction l as [|y r IH]; simpl; [reflexivity|].
  destruct (Handler_eqb y h) eqn:E.
  - apply Handler_eqb_eq in E. subst y. unfold occurrences. simpl.
    rewrite Handler_eqb_refl. reflexivity.
  - unfold occurrences in *. simpl.
    destruct (Handler_eqb h y) eqn:E'.
    + apply Handler_eqb_eq in E'. subst y. rewrite Handler_eqb_refl in E. discriminate.
    + exact IH.
Qed.

Lemma occurrences_filter (h : Handler) (f : Handler -> bool) (l : list Handler) :
  occurrences h (filter f l) = if f h then occurrences h l else 0.
Proof.
  unfold occurrences. induction l as [|y r IH]; simpl.
  - destruct (f h); reflexivity.
  - destruct (f y) eqn:Fy; simpl; destruct (Handler_eqb h y) eqn:E; simpl.
    + apply Handler_eqb_eq in E. subst y. rewrite Fy in *. rewrite IH. reflexivity.
    + exact IH.
    + apply Handler_eqb_eq in E. subst y. rewrite Fy in *. exact IH.
    + exact IH.
Qed.

Lemma occurrences_zero_notin (h : Handler) (l : list Handler) :
  occurrences h l = 0 <-> ~ In h l.
Proof.
  unfold occurrences. induction l as [|y r IH]; simpl.
  - tauto.
  - destruct (Handler_eqb h y) eqn:E; simpl.
    + apply Handler_eqb_eq in E. subst. split; [discriminate | intros H; exfalso; apply H; now left].
    + rewrite IH. split.
      * intros H [H1|H1]; [subst; rewrite Handler_eqb_refl in E; discriminate | tauto].
      * tauto.
Qed.

Lemma settle_at_length (p : PromiseId) (v : PromiseState) (ps : list PromiseState) :
  List.length (settle_at p v ps) = List.length ps.
Proof.
  revert p. induction ps as [|x r IH]; intros p; simpl.
  - destruct p; reflexivity.
  - destruct x, p; simpl; rewrite ?IH; reflexivity.
Qed.

Lemma settle_at_other (p q : PromiseId) (v : PromiseState) (ps : list PromiseState) :
  p <> q -> nth p (settle_at q v ps) Pending = nth p ps Pending.
Proof.
  revert p q. induction ps as [|x r IH]; intros p q Hne; simpl.
  - destruct q; reflexivity.
  - destruct q, p; simpl; try congruence; try (destruct x; reflexivity).
    + destruct x; simpl; apply IH; congruence.
Qed.

Lemma settle_at_pending (p : PromiseId) (v : PromiseState) (ps : list PromiseState) :
  p < List.length ps -> nth p ps Pending = Pending ->
  nth p (settle_at p v ps) Pending = v.
Proof.
  revert p. induction ps as [|x r IH]; intros p Hlt Hp; simpl in *.
  - lia.
  - destruct p; simpl in *.
    + subst x. reflexivity.
    + destruct x; simpl; apply IH; try lia; assumption.
Qed.

Lemma settle_at_settled (p : PromiseId) (v : PromiseState) (ps : list PromiseState) :
  nth p ps Pending <> Pending ->
  nth p (settle_at p v ps) Pending = nth p ps Pending.
Proof.
  revert p. induction ps as [|x r IH]; intros p Hp; simpl in *.
  - destruct p; reflexivity.
  - destruct p; simpl in *.
    + destruct x; try reflexivity. congruence.
    + destruct x; simpl; apply IH; assumption.
Qed.


Lemma registered_off (h : Handler) (s : SocketIO) :
  registered (off h s) = remove_first h (registered s).
Proof.
  unfold registered, off, map_socket.
  destruct (socket s) as [k|] eqn:Hs; simpl; [reflexivity | now rewrite Hs].
Qed.

Lemma registered_on (h : Handler) (s : SocketIO) :
  socket s <> None -> registered (on h s) = registered s ++ [h].
Proof.
  unfold registered, on, map_socket.
  destruct (socket s); [reflexivity | congruence].
Qed.

Lemma some_map_socket (f : Socket -> Socket) (s : SocketIO) :
  match socket (map_socket f s) with Some _ => true | None => false end =
  match socket s with Some _ => true | None => false end.
Proof.
  unfold map_socket.
  destruct (socket s) eqn:Hs; simpl; rewrite ?Hs; reflexivity.
Qed.

Lemma promises_map_socket (f : Socket -> Socket) (s : SocketIO) :
  promises (map_socket f s) = promises s.
Proof.
  unfold map_socket.
  destruct (socket s) eqn:Hs; simpl; rewrite ?Hs; reflexivity.
Qed.

Lemma occurrences_single (h x : Handler) :
  occurrences h [x] = if Handler_eqb h x then 1 else 0.
Proof. unfold occurrences. simpl. destruct (Handler_eqb h x); reflexivity. Qed.

Lemma view_off (p : PromiseId) (h : Handler) (s : SocketIO) :
  owner h <> Some p -> view p (off h s) = view p s.
Proof.
  intros Ho. unfold view, promise.
  rewrite registered_off. unfold off.
  rewrite some_map_socket, promises_map_socket.
  rewrite !occurrences_remove_other; [reflexivity | | |];
    intros E; subst h; simpl in Ho; congruence.
Qed.

Lemma view_on (p : PromiseId) (h : Handler) (s : SocketIO) :
  owner h <> Some p -> view p (on h s) = view p s.
Proof.
  intros Ho. unfold view, promise.
  destruct (socket s) as [k|] eqn:Hs.
  - rewrite registered_on by congruence. unfold on.
    rewrite some_map_socket, promises_map_socket, Hs.
    rewrite !occurrences_app, !occurrences_single.
    rewrite !Handler_eqb_neq; [now rewrite !Nat.add_0_r | | |];
      intros E; subst h; simpl in Ho; congruence.
  - unfold on, map_socket. rewrite !Hs. reflexivity.
Qed.

Lemma view_attempt (p : PromiseId) (s : SocketIO) :
  view p (_attemptReconnection s) = view p s.
Proof.
  unfold _attemptReconnection.
  destruct (isConnected s || negb (enabled (reconnectionConfig s)));
    [reflexivity|].
  destruct (timeout (reconnectionConfig s)); simpl;
    destruct (_ <=? _); reflexivity.
Qed.

Lemma view_reset (p : PromiseId) (s : SocketIO) :
  view p (_resetReconnectionAttempts s) = view p s.
Proof.
  unfold _resetReconnectionAttempts. simpl.
  destruct (timeout (reconnectionConfig s)); reflexivity.
Qed.

Lemma view_settle_other (p q : PromiseId) (v : PromiseState) (s : SocketIO) :
  p <> q ->
  view p (set_promises (settle_at q v (promises s)) s) = view p s.
Proof.
  intros Hne. unfold view, promise. simpl.
  rewrite settle_at_length, settle_at_other by exact Hne. reflexivity.
Qed.

(** A closure that belongs to another promise, or to the class, leaves the
    view of [p] alone. *)
Lemma view_other_handler (p : PromiseId) (h : Handler) (arg : string)
    (s : SocketIO) :
  owner h <> Some p -> view p (run_handler h arg s) = view p s.
Proof.
  intros Ho. destruct h as [| | |q|q|q]; simpl.
  - apply view_reset.
  - destruct (_ && _); [apply view_attempt | reflexivity].
  - destruct (enabled _); [apply view_attempt | reflexivity].
  - assert (Hq : q <> p) by (simpl in Ho; congruence).
    unfold cleanup.
    rewrite view_on, !view_off; simpl; congruence.
  - assert (Hq : q <> p) by (simpl in Ho; congruence).
    unfold reject, cleanup.
    rewrite view_settle_other by congruence.
    rewrite !view_off; simpl; congruence.
  - assert (Hq : q <> p) by (simpl in Ho; congruence).
    unfold resolve. apply view_settle_other. congruence.
Qed.

Lemma in_phase_view (p : PromiseId) (ph : Phase) (s s' : SocketIO) :
  view p s' = view p s -> in_phase p ph s -> in_phase p ph s'.
Proof.
  unfold in_phase. intros Hv [H Hlt].
  assert (Hl : List.length (promises s') = List.length (promises s)).
  { unfold view in Hv. congruence. }
  assert (Hr : occurrences (HReady p) (registered s') =
               occurrences (HReady p) (registered s)).
  { unfold view in Hv. congruence. }
  rewrite Hv, Hl, Hr. split; assumption.
Qed.

Lemma in_phase_other_listener (p : PromiseId) (ph : Phase) (h : Handler)
    (arg : string) (s : SocketIO) :
  owner h <> Some p -> in_phase p ph s ->
  in_phase p ph (run_handler h arg (if is_once h then off h s else s)).
Proof.
  intros Ho. apply in_phase_view.
  rewrite view_other_handler by exact Ho.
  destruct (is_once h); [apply view_off; exact Ho | reflexivity].
Qed.


(** *** The three closures of promise [p], one phase at a time *)

Lemma in_phase_facts (p : PromiseId) (ph : Phase) (s : SocketIO) :
  in_phase p ph s ->
  socket s <> None /\ p < List.length (promises s) /\
  promise p s = settled ph /\
  occurrences (HConnect p) (registered s) =
    match ph with AwaitConnect => 1 | _ => 0 end /\
  occurrences (HError p) (registered s) =
    match ph with AwaitConnect => 1 | _ => 0 end /\
  (ph = AwaitConnect \/ (exists m, ph = Failed m) ->
     occurrences (HReady p) (registered s) = 0) /\
  (ph = AwaitReady -> occurrences (HReady p) (registered s) = 1).
Proof.
  intros [Hv Hlt]. unfold view in Hv.
  destruct (socket s) eqn:Hs;
    [| destruct ph; discriminate].
  destruct ph; injection Hv; intros; repeat split;
    try discriminate; try assumption;
    try (intros [E|[m' E]]; congruence); try congruence.
Qed.

Lemma view_off_any (p : PromiseId) (h : Handler) (s : SocketIO) :
  view p (off h s) =
  (match socket s with Some _ => true | None => false end,
   List.length (promises s), promise p s,
   occurrences (HConnect p) (remove_first h (registered s)),
   occurrences (HError p) (remove_first h (registered s)),
   occurrences (HReady p) (remove_first h (registered s))).
Proof.
  unfold view, promise. rewrite registered_off. unfold off.
  rewrite some_map_socket, promises_map_socket. reflexivity.
Qed.

Lemma view_on_any (p : PromiseId) (h : Handler) (s : SocketIO) :
  socket s <> None ->
  view p (on h s) =
  (true, List.length (promises s), promise p s,
   occurrences (HConnect p) (registered s ++ [h]),
   occurrences (HError p) (registered s ++ [h]),
   occurrences (HReady p) (registered s ++ [h])).
Proof.
  intros Hs. unfold view, promise. rewrite registered_on by exact Hs.
  unfold on. rewrite some_map_socket, promises_map_socket.
  destruct (socket s); [reflexivity | congruence].
Qed.

Lemma view_settle (p : PromiseId) (v : PromiseState) (s : SocketIO) :
  view p (set_promises (settle_at p v (promises s)) s) =
  (match socket s with Some _ => true | None => false end,
   List.length (promises s),
   nth p (settle_at p v (promises s)) Pending,
   occurrences (HConnect p) (registered s),
   occurrences (HError p) (registered s),
   occurrences (HReady p) (registered s)).
Proof. unfold view, promise. simpl. rewrite settle_at_length. reflexivity. Qed.

Lemma socket_off (h : Handler) (s : SocketIO) :
  socket s <> None -> socket (off h s) <> None.
Proof.
  unfold off, map_socket. destruct (socket s) eqn:E; simpl; congruence.
Qed.

Lemma length_promises_view (p : PromiseId) (s s' : SocketIO) :
  view p s' = view p s ->
  List.length (promises s') = List.length (promises s).
Proof. unfold view. congruence. Qed.

Ltac phase_facts H :=
  let Hs := fresh "Hs" in let Hlt := fresh "Hlt" in let Hp := fresh "Hp" in
  let Hc := fresh "Hc" in let He := fresh "He" in let Hr0 := fresh "Hr0" in
  let Hr1 := fresh "Hr1" in
  destruct (in_phase_facts _ _ _ H) as (Hs & Hlt & Hp & Hc & He & Hr0 & Hr1).

(** The view after [cleanup], whatever the phase. *)
Lemma view_cleanup (p : PromiseId) (s : SocketIO) :
  view p (cleanup p s) =
  (match socket s with Some _ => true | None => false end,
   List.length (promises s), promise p s,
   pred (occurrences (HConnect p) (registered s)),
   pred (occurrences (HError p) (registered s)),
   occurrences (HReady p) (registered s)).
Proof.
  unfold cleanup. rewrite view_off_any, registered_off.
  pose proof (view_off_any p (HConnect p) s) as Hv. unfold view in Hv.
  injection Hv as H1 H2 H3 _ _ _. rewrite H1, H2, H3.
  repeat first [ rewrite occurrences_remove_same
               | rewrite occurrences_remove_other by discriminate ].
  reflexivity.
Qed.

Lemma socket_cleanup (p : PromiseId) (s : SocketIO) :
  socket s <> None -> socket (cleanup p s) <> None.
Proof. intros H. unfold cleanup. now apply socket_off, socket_off. Qed.

Lemma connectHandler_phase (p : PromiseId) (arg : string) (s : SocketIO) :
  in_phase p AwaitConnect s ->
  in_phase p AwaitReady (run_handler (HConnect p) arg (off (HConnect p) s)).
Proof.
  intros H. phase_facts H. specialize (Hr0 (or_introl eq_refl)).
  unfold run_handler.
  pose proof (view_off_any p (HConnect p) s) as Ho.
  rewrite occurrences_remove_same in Ho.
  rewrite (occurrences_remove_other (HError p) (HConnect p)) in Ho
    by discriminate.
  rewrite (occurrences_remove_other (HReady p) (HConnect p)) in Ho
    by discriminate.
  set (s1 := off (HConnect p) s) in *.
  assert (Hs1 : socket s1 <> None) by (apply socket_off; exact Hs).
  pose proof (view_cleanup p s1) as Hc1.
  assert (Hl1 : List.length (promises s1) = List.length (promises s)).
  { unfold view in Ho. congruence. }
  unfold view in Ho. injection Ho as _ _ Hp1 Hc' He' Hr'.
  rewrite Hc', He', Hr', Hp1, Hc, He, Hr0, Hp in Hc1. simpl in Hc1.
  set (s2 := cleanup p s1) in *.
  assert (Hs2 : socket s2 <> None) by (apply socket_cleanup; exact Hs1).
  pose proof (view_on_any p (HReady p) s2 Hs2) as Hv.
  unfold view in Hc1. injection Hc1 as _ Hl2 Hp2 Hc2 He2 Hr2.
  rewrite !occurrences_app, !occurrences_single, Hc2, He2, Hr2, Hp2, Hl2
    in Hv.
  simpl in Hv. rewrite Nat.eqb_refl in Hv.
  unfold in_phase. rewrite Hv.
  assert (Hl3 : List.length (promises (on (HReady p) s2)) =
                List.length (promises s1)).
  { unfold view in Hv. congruence. }
  rewrite Hl3, Hl1. split; [reflexivity | exact Hlt].
Qed.

Lemma errorHandler_phase (p : PromiseId) (arg : string) (s : SocketIO) :
  in_phase p AwaitConnect s ->
  in_phase p (Failed (String.append "Connection failed: " arg))
    (run_handler (HError p) arg (off (HError p) s)).
Proof.
  intros H. phase_facts H. specialize (Hr0 (or_introl eq_refl)).
  unfold run_handler, reject.
  pose proof (view_off_any p (HError p) s) as Ho.
  rewrite occurrences_remove_same in Ho.
  rewrite (occurrences_remove_other (HConnect p) (HError p)) in Ho
    by discriminate.
  rewrite (occurrences_remove_other (HReady p) (HError p)) in Ho
    by discriminate.
  set (s1 := off (HError p) s) in *.
  pose proof (view_cleanup p s1) as Hc1.
  unfold view in Ho. injection Ho as Hk1 Hl1 Hp1 Hc' He' Hr'.
  rewrite Hc', He', Hr', Hp1, Hl1, Hk1, Hc, He, Hr0, Hp in Hc1.
  simpl in Hc1.
  set (s2 := cleanup p s1) in *.
  unfold in_phase. rewrite view_settle.
  unfold view in Hc1. injection Hc1 as Hk2 Hl2 Hp2 Hc2 He2 Hr2.
  rewrite Hk2, Hl2, Hc2, He2, Hr2.
  unfold promise in Hp2.
  rewrite settle_at_pending by (try rewrite Hl2; assumption).
  change (promises (set_promises ?a ?b)) with a.
  rewrite settle_at_length, Hl2.
  destruct (socket s); [|congruence].
  split; [reflexivity | exact Hlt].
Qed.

Lemma readyHandler_phase (p : PromiseId) (arg : string) (s : SocketIO) :
  in_phase p AwaitReady s ->
  in_phase p Done (run_handler (HReady p) arg s).
Proof.
  intros H. phase_facts H.
  unfold run_handler, resolve, in_phase. rewrite view_settle.
  unfold promise in Hp.
  rewrite settle_at_pending by assumption.
  change (promises (set_promises ?a ?b)) with a.
  change (registered (set_promises ?a ?b)) with (registered b).
  rewrite settle_at_length, Hc, He.
  destruct (socket s); [|congruence].
  split; [reflexivity | exact Hlt].
Qed.

Lemma readyHandler_again (p : PromiseId) (arg : string) (s : SocketIO) :
  in_phase p Done s ->
  in_phase p Done (run_handler (HReady p) arg s).
Proof.
  intros H. phase_facts H.
  unfold run_handler, resolve, in_phase. rewrite view_settle.
  unfold promise in Hp.
  rewrite settle_at_settled by (rewrite Hp; discriminate).
  change (promises (set_promises ?a ?b)) with a.
  change (registered (set_promises ?a ?b)) with (registered b).
  rewrite settle_at_length, Hc, He, Hp.
  destruct (socket s); [|congruence].
  split; [reflexivity | exact Hlt].
Qed.


(** *** One emitted event *)

Lemma call_listeners_harmless (p : PromiseId) (ph : Phase) (arg : string) :
  forall (snapshot : list Handler) (s : SocketIO),
    (forall h, In h snapshot ->
               owner h <> Some p \/ (h = HReady p /\ ph = Done)) ->
    in_phase p ph s -> in_phase p ph (call_listeners snapshot arg s).
Proof.
  induction snapshot as [|h r IH]; intros s Hall Hs; simpl; [exact Hs|].
  apply IH; [intros x Hx; apply Hall; now right|].
  destruct (Hall h (or_introl eq_refl)) as [Ho|[E1 E2]].
  - apply in_phase_other_listener; assumption.
  - subst h ph. simpl. apply (readyHandler_again p arg s Hs).
Qed.

Lemma call_listeners_one (p : PromiseId) (ph ph' : Phase) (h : Handler)
    (arg : string) :
  (forall s, in_phase p ph s ->
     in_phase p ph' (run_handler h arg (if is_once h then off h s else s))) ->
  (h = HReady p -> ph' = Done) ->
  forall (snapshot : list Handler) (s : SocketIO),
    occurrences h snapshot = 1 ->
    (forall x, In x snapshot -> x <> h -> owner x <> Some p) ->
    in_phase p ph s -> in_phase p ph' (call_listeners snapshot arg s).
Proof.
  intros Hstep Hdone.
  induction snapshot as [|x r IH]; intros s Hocc Hothers Hs.
  - discriminate.
  - simpl. unfold occurrences in Hocc. simpl in Hocc.
    destruct (Handler_eqb h x) eqn:E.
    + apply Handler_eqb_eq in E. subst x. simpl in Hocc.
      apply call_listeners_harmless; [|apply Hstep; exact Hs].
      intros y Hy. left. apply Hothers; [now right|].
      intros ->. injection Hocc as Hocc.
      apply (proj1 (occurrences_zero_notin h r) Hocc). exact Hy.
    + assert (Hx : x <> h).
      { intros ->. rewrite Handler_eqb_refl in E. discriminate. }
      apply IH; [exact Hocc | intros y Hy; apply Hothers; now right |].
      apply in_phase_other_listener; [|exact Hs].
      apply Hothers; [now left | exact Hx].
Qed.

Lemma owner_cases (p : PromiseId) (x : Handler) :
  owner x = Some p -> x = HConnect p \/ x = HError p \/ x = HReady p.
Proof. destruct x; simpl; intros H; try discriminate; injection H as ->; auto. Qed.

Lemma occurrences_in (h : Handler) (l : list Handler) :
  In h l -> occurrences h l <> 0.
Proof. intros Hin H0. apply occurrences_zero_notin in H0. contradiction. Qed.

(** Which closure of [p] can be in the copy of the listener array that an
    event named [ev] is emitted with. *)
Lemma snapshot_owned (p : PromiseId) (ph : Phase) (ev : string)
    (s : SocketIO) (x : Handler) :
  in_phase p ph s ->
  In x (filter (fun h => String.eqb (event_of h) ev) (registered s)) ->
  owner x = Some p ->
  (x = HConnect p /\ ph = AwaitConnect /\ ev = "connect") \/
  (x = HError p /\ ph = AwaitConnect /\ ev = "connect_error") \/
  (x = HReady p /\ (ph = AwaitReady \/ ph = Done) /\
   ev = "connection:ready").
Proof.
  intros H Hin Ho. phase_facts H.
  apply filter_In in Hin. destruct Hin as [Hin Hev].
  apply String.eqb_eq in Hev. apply occurrences_in in Hin.
  destruct (owner_cases p x Ho) as [ -> | [ -> | -> ] ]; simpl in Hev.
  - left. rewrite Hc in Hin. destruct ph; auto; congruence.
  - right. left. rewrite He in Hin. destruct ph; auto; congruence.
  - right. right. destruct ph as [| | |m]; auto.
    + exfalso. apply Hin. apply Hr0. now left.
    + exfalso. apply Hin. apply Hr0. right. now exists m.
Qed.

Lemma emit_event_phase (p : PromiseId) (ph : Phase) (ev arg : string)
    (s : SocketIO) :
  in_phase p ph s -> in_phase p (emit_phase ph ev arg) (emit_event ev arg s).
Proof.
  intros H. pose proof H as H'. phase_facts H'.
  pose proof (snapshot_owned p ph ev s) as Hown. specialize (fun x => Hown x H).
  unfold emit_event. unfold registered in Hown.
  destruct (socket s) as [k|] eqn:Hk; [|congruence].
  unfold registered in Hc, He, Hr0, Hr1. rewrite Hk in *.
  set (snap := filter (fun h => String.eqb (event_of h) ev) (listeners k))
    in *.
  assert (Hquiet : forall ph0, ph0 = ph ->
            (forall x, In x snap -> owner x = Some p ->
                       x = HReady p /\ ph = Done) ->
            in_phase p ph0 (call_listeners snap arg s)).
  { intros ph0 -> Hq. apply call_listeners_harmless; [|exact H].
    intros x Hx.
    destruct (owner x) as [q|] eqn:Eo; [|left; discriminate].
    destruct (Nat.eq_dec q p) as [ -> | Hne ]; [|left; congruence].
    right. apply Hq; assumption. }
  destruct ph as [| | |m]; unfold emit_phase.
  - destruct (String.eqb_spec ev "connect") as [ -> | Hn1 ].
    + apply (call_listeners_one p AwaitConnect AwaitReady (HConnect p) arg).
      * intros s' Hs'. exact (connectHandler_phase p arg s' Hs').
      * discriminate.
      * unfold snap. rewrite occurrences_filter. simpl. exact Hc.
      * intros x Hx Hne Ho.
        destruct (Hown x Hx Ho) as [ [ -> _ ] | [ (_ & _ & E) | (_ & _ & E) ] ];
          congruence.
      * exact H.
    + destruct (String.eqb_spec ev "connect_error") as [ -> | Hn2 ].
      * apply (call_listeners_one p AwaitConnect
                 (Failed (String.append "Connection failed: " arg))
                 (HError p) arg).
        -- intros s' Hs'. exact (errorHandler_phase p arg s' Hs').
        -- discriminate.
        -- unfold snap. rewrite occurrences_filter. simpl. exact He.
        -- intros x Hx Hne Ho.
           destruct (Hown x Hx Ho) as [ (_ & _ & E) | [ [ -> _ ] | (_ & _ & E) ] ];
             congruence.
        -- exact H.
      * apply Hquiet; [reflexivity|]. intros x Hx Ho.
        destruct (Hown x Hx Ho) as [(_ & _ & E)|[(_ & _ & E)|(_ & [E|E] & _)]];
          congruence.
  - destruct (String.eqb_spec ev "connection:ready") as [ -> | Hn1 ].
    + apply (call_listeners_one p AwaitReady Done (HReady p) arg).
      * intros s' Hs'. exact (readyHandler_phase p arg s' Hs').
      * reflexivity.
      * unfold snap. rewrite occurrences_filter. simpl. apply Hr1. reflexivity.
      * intros x Hx Hne Ho.
        destruct (Hown x Hx Ho) as [ (_ & E & _) | [ (_ & E & _) | [ -> _ ] ] ];
          congruence.
      * exact H.
    + apply Hquiet; [reflexivity|]. intros x Hx Ho.
      destruct (Hown x Hx Ho) as [(_ & E & _)|[(_ & E & _)|(_ & _ & E)]];
        congruence.
  - apply Hquiet; [reflexivity|]. intros x Hx Ho.
    destruct (Hown x Hx Ho) as [(_ & E & _)|[(_ & E & _)|(E & _ & _)]];
      try congruence. split; [exact E | reflexivity].
  - apply Hquiet; [reflexivity|]. intros x Hx Ho.
    destruct (Hown x Hx Ho) as [(_ & E & _)|[(_ & E & _)|(_ & [E|E] & _)]];
      congruence.
Qed.


(** *** Delivered events, and whole traces *)

Lemma view_set_connected (p : PromiseId) (b : bool) (s : SocketIO) :
  view p (map_socket (set_connected b) s) = view p s.
Proof.
  unfold view, promise, registered, map_socket.
  destruct (socket s) eqn:E; simpl; rewrite ?E; reflexivity.
Qed.

Lemma view_fire (p : PromiseId) (id : TimerId) (s : SocketIO) :
  view p (fire id s) = view p s.
Proof.
  unfold fire. destruct (existsb _ _); [|reflexivity].
  unfold timer_callback. simpl.
  destruct (socket s) as [k|] eqn:E; [|unfold view, registered; simpl; now rewrite E].
  destruct (negb (connected k)); unfold view, registered; simpl; now rewrite E.
Qed.

Lemma deliver_phase (p : PromiseId) (ph : Phase) (e : Event) (s : SocketIO) :
  in_phase p ph s -> in_phase p (handshake_step ph e) (deliver e s).
Proof.
  intros H. destruct e as [|m|r| |id]; unfold deliver.
  - replace (handshake_step ph EvConnect) with (emit_phase ph "connect" "")
      by (destruct ph; reflexivity).
    apply emit_event_phase.
    apply (in_phase_view p ph s); [apply view_set_connected | exact H].
  - replace (handshake_step ph (EvConnectError m))
      with (emit_phase ph "connect_error" m) by (destruct ph; reflexivity).
    apply emit_event_phase. exact H.
  - replace (handshake_step ph (EvDisconnect r))
      with (emit_phase ph "disconnect" r) by (destruct ph; reflexivity).
    apply emit_event_phase.
    apply (in_phase_view p ph s); [apply view_set_connected | exact H].
  - replace (handshake_step ph EvReady)
      with (emit_phase ph "connection:ready" "")
      by (destruct ph; reflexivity).
    apply emit_event_phase. exact H.
  - replace (handshake_step ph (EvTimer id)) with ph
      by (destruct ph; reflexivity).
    apply (in_phase_view p ph s); [apply view_fire | exact H].
Qed.

Lemma run_phase (p : PromiseId) (evs : list Event) :
  forall (ph : Phase) (s : SocketIO),
    in_phase p ph s ->
    in_phase p (fold_left handshake_step evs ph) (run evs s).
Proof.
  induction evs as [|e r IH]; intros ph s H; simpl; [exact H|].
  apply IH. apply deliver_phase. exact H.
Qed.

(** [setConnection(true, token)] on an initialized instance returns a fresh
    pending promise whose two closures are registered once each. *)
Lemma setConnection_starts (s : SocketIO) (token : option string) :
  initialized s = true -> socket s <> None -> well_formed s ->
  exists s1,
    setConnection true token s = Returns (List.length (promises s)) s1 /\
    in_phase (List.length (promises s)) AwaitConnect s1.
Proof.
  intros Hi Hs Hwf. unfold setConnection. rewrite Hi. simpl negb. cbv iota.
  set (s1 := _resetReconnectionAttempts s).
  assert (E1 : socket s1 = socket s /\ promises s1 = promises s).
  { unfold s1, _resetReconnectionAttempts. simpl.
    destruct (timeout (reconnectionConfig s)); split; reflexivity. }
  destruct E1 as [Es Ep].
  unfold new_promise. rewrite Ep.
  change (socket (set_promises ?a ?b)) with (socket b). rewrite Es.
  destruct (socket s) as [k|] eqn:Ek; [|congruence].
  eexists. split; [reflexivity|].
  set (p := List.length (promises s)).
  assert (Hfresh : forall h, owner h = Some p -> occurrences h (listeners k) = 0).
  { intros h Ho. apply occurrences_zero_notin. intros Hin.
    assert (Hlt : p < List.length (promises s)).
    { apply (Hwf h p); [unfold registered; rewrite Ek; exact Hin | exact Ho]. }
    unfold p in Hlt. lia. }
  unfold in_phase, view, promise, registered, on, map_socket. simpl.
  rewrite !Es. simpl.
  rewrite !length_app. simpl.
  rewrite !occurrences_app, !occurrences_single.
  rewrite (Hfresh (HConnect p) eq_refl), (Hfresh (HError p) eq_refl),
    (Hfresh (HReady p) eq_refl).
  simpl. rewrite Nat.eqb_refl.
  rewrite app_nth2 by (unfold p; lia).
  replace (p - List.length (promises s)) with 0 by (unfold p; lia).
  split; [reflexivity | unfold p; lia].
Qed.

(** *** The specification automaton *)

Lemma handshake_Done_absorbs (evs : list Event) :
  fold_left handshake_step evs Done = Done.
Proof. induction evs as [|e r IH]; simpl; [reflexivity | exact IH]. Qed.

Lemma handshake_Failed_absorbs (evs : list Event) (m : string) :
  fold_left handshake_step evs (Failed m) = Failed m.
Proof. induction evs as [|e r IH]; simpl; [reflexivity | exact IH]. Qed.

Lemma handshake_ready_needed (evs : list Event) :
  fold_left handshake_step evs AwaitReady = Done ->
  exists mid post, evs = mid ++ EvReady :: post.
Proof.
  induction evs as [|e r IH]; simpl; intros H; [discriminate|].
  destruct e; simpl in H;
    try (destruct (IH H) as (mid & post & ->);
         eexists (_ :: mid), post; reflexivity).
  exists [], r. reflexivity.
Qed.

Lemma handshake_both_needed (evs : list Event) :
  fold_left handshake_step evs AwaitConnect = Done ->
  exists pre mid post, evs = pre ++ EvConnect :: mid ++ EvReady :: post.
Proof.
  induction evs as [|e r IH]; simpl; intros H; [discriminate|].
  destruct e; simpl in H;
    try (destruct (IH H) as (pre & mid & post & ->);
         eexists (_ :: pre), mid, post; reflexivity).
  - destruct (handshake_ready_needed r H) as (mid & post & ->).
    exists [], mid, post. reflexivity.
  - rewrite handshake_Failed_absorbs in H. discriminate.
Qed.

Lemma handshake_ready_completes (mid post : list Event) :
  fold_left handshake_step (mid ++ EvReady :: post) AwaitReady = Done.
Proof.
  induction mid as [|e r IH]; simpl.
  - apply handshake_Done_absorbs.
  - destruct e; simpl; try exact IH. apply handshake_Done_absorbs.
Qed.

Lemma handshake_completes (pre mid post : list Event) :
  forallb (fun e => negb (is_connect_or_error e)) pre = true ->
  fold_left handshake_step (pre ++ EvConnect :: mid ++ EvReady :: post)
    AwaitConnect = Done.
Proof.
  induction pre as [|e r IH]; simpl; intros H.
  - apply handshake_ready_completes.
  - apply andb_prop in H. destruct H as [He Hr].
    destruct e; simpl in *; try discriminate; apply IH; exact Hr.
Qed.

Lemma handshake_error_first (pre post : list Event) (m : string) :
  forallb (fun e => negb (is_EvConnect e)) pre = true ->
  exists m', fold_left handshake_step (pre ++ EvConnectError m :: post)
               AwaitConnect = Failed m'.
Proof.
  induction pre as [|e r IH]; simpl; intros H.
  - eexists. apply handshake_Failed_absorbs.
  - apply andb_prop in H. destruct H as [He Hr].
    destruct e; simpl in *; try discriminate; try (apply IH; exact Hr).
    eexists. apply handshake_Failed_absorbs.
Qed.

(** C3 (amended).  [setConnection(true, token)] on an initialized channel
    returns a promise that follows the two-phase handshake exactly: it
    resolves only after a transport-level connect followed by the server's
    "connection:ready"; it does resolve on such a trace when no connect
    error came before the connect; and a connect error that arrives before
    the transport-level connect rejects it.  (An error that arrives after
    the connect does not: [errorHandler] was removed by [cleanup].) *)
Theorem setConnection_two_phase_handshake :
  forall (s : SocketIO) (token : option string),
    initialized s = true -> socket s <> None -> well_formed s ->
    exists (p : PromiseId) (s1 : SocketIO),
      setConnection true token s = Returns p s1 /\
      (forall evs, promise p (run evs s1) = settled (handshake evs)) /\
      (forall evs v, promise p (run evs s1) = Resolved v ->
         exists pre mid post,
           evs = pre ++ EvConnect :: mid ++ EvReady :: post) /\
      (forall pre mid post,
         forallb (fun e => negb (is_connect_or_error e)) pre = true ->
         promise p (run (pre ++ EvConnect :: mid ++ EvReady :: post) s1)
           = Resolved true) /\
      (forall pre m post,
         forallb (fun e => negb (is_EvConnect e)) pre = true ->
         exists m', promise p (run (pre ++ EvConnectError m :: post) s1)
                      = Rejected m').
Proof.
  intros s token Hi Hs Hwf.
  destruct (setConnection_starts s token Hi Hs Hwf) as (s1 & Hret & Hph).
  exists (List.length (promises s)), s1.
  assert (Hrun : forall evs,
            promise (List.length (promises s)) (run evs s1)
              = settled (handshake evs)).
  { intros evs. pose proof (run_phase _ evs _ _ Hph) as H.
    apply in_phase_facts in H. apply H. }
  split; [exact Hret|]. split; [exact Hrun|]. repeat split.
  - intros evs v H. rewrite Hrun in H. apply handshake_both_needed.
    unfold handshake in *.
    destruct (fold_left handshake_step evs AwaitConnect);
      simpl in H; try discriminate. reflexivity.
  - intros pre mid post H. rewrite Hrun. unfold handshake.
    rewrite handshake_completes by exact H. reflexivity.
  - intros pre m post H. rewrite Hrun. unfold handshake.
    destruct (handshake_error_first pre post m H) as [m' ->].
    exists m'. reflexivity.
Qed.


Lemma initialize_well_formed : well_formed (initialize constructor).
Proof.
  intros h q Hin Ho. simpl in Hin.
  destruct Hin as [<-|[<-|[<-|[]]]]; discriminate.
Qed.

Lemma setConnection_two_phase_handshake_witness :
  initialized (initialize constructor) = true /\
  socket (initialize constructor) <> None /\
  exists (p : PromiseId) (s1 : SocketIO),
    setConnection true (Some "token") (initialize constructor)
      = Returns p s1 /\
    promise p (run [EvConnect; EvReady] s1) = Resolved true.
Proof.
  split; [reflexivity|]. split; [discriminate|].
  destruct (setConnection_two_phase_handshake (initialize constructor)
              (Some "token") eq_refl
              (fun H => match H with eq_refl => I end)
              initialize_well_formed)
    as (p & s1 & Hret & Hrun & _).
  exists p, s1. split; [exact Hret|]. rewrite Hrun. reflexivity.
Defined.

(** C3, as stated, fails: the connection is established, drops before the
    server said "connection:ready", and the retry then fails.  That is a
    transport-level error before the ready phase, and the promise is still
    pending. *)
Lemma connect_error_after_connect_keeps_pending :
  let evs := [EvConnect; EvDisconnect "transport close"; EvTimer 1;
              EvConnectError "timeout"] in
  In (EvConnectError "timeout") evs /\ ~ In EvReady evs /\
  promise 0 (run evs scenario_start) = Pending.
Proof.
  split; [simpl; tauto|]. split.
  - simpl. intros [H|[H|[H|[H|[]]]]]; discriminate.
  - vm_compute. reflexivity.
Qed.

(** *** Backoff schedule *)

(** C1 (amended).  While the channel is enabled and not connected, the
    retry scheduled at attempt count [k] below the configured maximum has
    delay [min(delay * backoffFactor^k, maxDelay)], and the count becomes
    [k + 1]; with a non-negative base delay and a factor of at least one
    the delay is non-decreasing in [k].  With the shipped configuration
    (1000, 1.5, 5000, five attempts) the delays of five failures in a row
    are 1000, 1500, 2250, 3375 and 5000, and the formula stays at 5000 from
    the fifth retry on. *)
Theorem retry_delay_schedule :
  forall (s : SocketIO) (k : nat),
    isConnected s = false ->
    enabled (reconnectionConfig s) = true ->
    currentAttempt (reconnectionConfig s) = k ->
    k < attempts (reconnectionConfig s) ->
    let c := reconnectionConfig s in
    let s' := _attemptReconnection s in
    log s' = log s ++ cancelled s ++
      [SetTimeout (nextTimer s)
         (Math_min (delay c * Math_pow (backoffFactor c) k)%Q (maxDelay c))] /\
    timeout (reconnectionConfig s') = Some (nextTimer s) /\
    currentAttempt (reconnectionConfig s') = S k /\
    ((0 <= delay c)%Q -> (1 <= backoffFactor c)%Q ->
     forall j, j <= k -> (retryDelay c j <= retryDelay c k)%Q) /\
    Forall2 Qeq (scheduled_delays (run (failures 5) scenario_start))
      [1000%Q; 1500%Q; 2250%Q; 3375%Q; 5000%Q] /\
    (forall j, 4 <= j ->
       (retryDelay (reconnectionConfig constructor) j == 5000)%Q).
Proof.
  intros s k Hc He Hk Hlt c s'. subst k.
  destruct (attempt_schedules s Hc He Hlt) as (Ht & _ & Hl & Hn).
  cbv zeta in Ht, Hl, Hn. subst c s'.
  split; [exact Hl|]. split; [exact Ht|]. split; [exact Hn|]. split; [|split].
  - intros Hd Hb j Hj. apply retryDelay_mono; assumption.
  - vm_compute. repeat (constructor; [reflexivity|]). constructor.
  - apply shipped_delay_capped.
Qed.

Lemma retry_delay_schedule_witness :
  let s := run (failures 2) scenario_start in
  isConnected s = false /\
  enabled (reconnectionConfig s) = true /\
  currentAttempt (reconnectionConfig s) = 2 /\
  2 < attempts (reconnectionConfig s) /\
  (0 <= delay (reconnectionConfig s))%Q /\
  (1 <= backoffFactor (reconnectionConfig s))%Q /\
  currentAttempt (reconnectionConfig (_attemptReconnection s)) = 3 /\
  (retryDelay (reconnectionConfig s) 1 <= retryDelay (reconnectionConfig s) 2)%Q.
Proof.
  intros s.
  assert (Hc : isConnected s = false) by reflexivity.
  assert (He : enabled (reconnectionConfig s) = true) by reflexivity.
  assert (Hk : currentAttempt (reconnectionConfig s) = 2) by reflexivity.
  assert (Hlt : 2 < attempts (reconnectionConfig s)) by (vm_compute; lia).
  assert (Hd : (0 <= delay (reconnectionConfig s))%Q)
    by (vm_compute; discriminate).
  assert (Hb : (1 <= backoffFactor (reconnectionConfig s))%Q)
    by (vm_compute; discriminate).
  repeat (split; [assumption|]).
  destruct (retry_delay_schedule s 2 Hc He Hk Hlt)
    as (_ & _ & Hn & Hmono & _).
  split; [exact Hn|]. apply (Hmono Hd Hb 1). lia.
Defined.

(** C1, as stated, fails at the fourth retry of the shipped configuration:
    its delay is 3375, not the cap of 5000. *)
Lemma fourth_delay_is_not_the_cap :
  let d := nth 3 (scheduled_delays (run (failures 5) scenario_start)) 0%Q in
  (d == 3375)%Q /\ ~ (d == 5000)%Q.
Proof. split; vm_compute; [reflexivity | discriminate]. Qed.

(** *** Exhaustion *)

(** C4 (amended).  Once the attempt count has reached the configured
    maximum, no event other than a successful connect makes the channel
    schedule a retry: whatever errors, disconnects, ready signals and timer
    expiries arrive, no timer is set, the count stays where it is, and the
    channel raises no notification either. *)
Theorem exhausted_stops_retrying :
  forall (s : SocketIO) (evs : list Event),
    attempts (reconnectionConfig s) <= currentAttempt (reconnectionConfig s) ->
    forallb (fun e => negb (is_EvConnect e)) evs = true ->
    exists l : list Effect,
      log (run evs s) = log s ++ l /\
      forallb (fun e => negb (is_SetTimeout e)) l = true /\
      forallb (fun e => negb (is_Notify e)) l = true /\
      currentAttempt (reconnectionConfig (run evs s))
        = currentAttempt (reconnectionConfig s).
Proof.
  intros s evs Hx Hev.
  destruct (quietly_run evs s Hev Hx) as (_ & Hk & l & Hl & Hq).
  exists l. split; [exact Hl|]. repeat split; [| |exact Hk].
  - rewrite forallb_forall in *. intros e He.
    specialize (Hq e He). unfold quiet in Hq.
    apply andb_prop in Hq. tauto.
  - rewrite forallb_forall in *. intros e He.
    specialize (Hq e He). unfold quiet in Hq.
    apply andb_prop in Hq. tauto.
Qed.

Lemma exhausted_stops_retrying_witness :
  let s := run (failures 5) scenario_start in
  let evs := [EvConnectError "timeout"; EvDisconnect "transport close";
              EvConnectError "timeout"] in
  attempts (reconnectionConfig s) <= currentAttempt (reconnectionConfig s) /\
  forallb (fun e => negb (is_EvConnect e)) evs = true /\
  exists l : list Effect,
    log (run evs s) = log s ++ l /\
    forallb (fun e => negb (is_SetTimeout e)) l = true.
Proof.
  intros s evs.
  assert (Hx : attempts (reconnectionConfig s)
               <= currentAttempt (reconnectionConfig s))
    by (vm_compute; lia).
  assert (Hev : forallb (fun e => negb (is_EvConnect e)) evs = true)
    by reflexivity.
  split; [exact Hx|]. split; [exact Hev|].
  destruct (exhausted_stops_retrying s evs Hx Hev) as (l & Hl & Hs & _).
  exists l. split; assumption.
Defined.

(** C4, as stated, fails in its last part: the sixth failure in a row finds
    the five attempts used up; the call cancels the stale handle and
    returns, and nothing in the log of the whole run is a notification. *)
Lemma exhaustion_raises_no_notification :
  let s := run (failures 5) scenario_start in
  exhausted s /\
  log (deliver (EvConnectError "timeout") s) = log s ++ [ClearTimeout 5] /\
  existsb is_Notify (log (deliver (EvConnectError "timeout") s)) = false.
Proof.
  split; [vm_compute; lia|]. split; vm_compute; reflexivity.
Qed.

(** The peer transport, by contrast, does raise a notification when its
    attempts are used up. *)
Lemma peer_transport_exhaustion_notifies (v : VideoPeer.VideoPeer) :
  VideoPeer.maxReconnectAttempts v <= VideoPeer.reconnectAttempts v ->
  VideoPeer.log (VideoPeer.attemptReconnection v)
    = VideoPeer.log v ++ [Notify "onPeerJsConnectionFailed"].
Proof.
  intros H. unfold VideoPeer.attemptReconnection.
  destruct (Nat.leb_spec (VideoPeer.maxReconnectAttempts v)
              (VideoPeer.reconnectAttempts v)); [reflexivity | lia].
Qed.

End SocketIOProofs.
(** ** The roster *)
Module PeopleProofs.
Import People.
Local Open Scope js_scope.

Lemma findIndex_None {A : Type} (f : A -> bool) (l : list A) :
  findIndex f l = None <-> forall x, In x l -> f x = false.
Proof.
  induction l as [|y r IH]; simpl.
  - split; [intros _ x [] | reflexivity].
  - destruct (f y) eqn:Fy.
    + split; [discriminate|]. intros H.
      rewrite (H y (or_introl eq_refl)) in Fy. discriminate.
    + destruct (findIndex f r) as [i|]; simpl.
      * split; [discriminate|]. intros H.
        assert (E : Some i = None).
        { apply IH. intros x Hx. apply H. now right. }
        discriminate.
      * split; [|reflexivity]. intros _ x [<-|Hx]; [exact Fy|].
        apply (proj1 IH eq_refl x Hx).
Qed.

Lemma findIndex_Some {A : Type} (f : A -> bool) (l : list A) (i : nat) :
  findIndex f l = Some i ->
  exists x, nth_error l i = Some x /\ f x = true /\
            forall j y, j < i -> nth_error l j = Some y -> f y = false.
Proof.
  revert i. induction l as [|y r IH]; simpl; intros i H; [discriminate|].
  destruct (f y) eqn:Fy.
  - injection H as <-. exists y. repeat split; [exact Fy|]. intros j z Hj. lia.
  - destruct (findIndex f r) as [k|] eqn:E; simpl in H; [|discriminate].
    injection H as <-. destruct (IH k eq_refl) as (x & Hx & Fx & Hbefore).
    exists x. repeat split; [exact Hx | exact Fx |].
    intros j z Hj Hz. destruct j as [|j]; simpl in Hz.
    + injection Hz as <-. exact Fy.
    + apply (Hbefore j z); [lia | exact Hz].
Qed.

Lemma splice1_In {A : Type} (i : nat) (l : list A) (x : A) :
  In x (splice1 i l) -> In x l.
Proof.
  revert i. induction l as [|y r IH]; intros i H; simpl in *.
  - destruct i; exact H.
  - destruct i; simpl in H; [now right|].
    destruct H as [<-|H]; [now left | right; apply (IH i H)].
Qed.

Lemma splice1_map {A B : Type} (g : A -> B) (i : nat) (l : list A) :
  map g (splice1 i l) = splice1 i (map g l).
Proof.
  revert i. induction l as [|y r IH]; intros i; simpl.
  - destruct i; reflexivity.
  - destruct i; simpl; [reflexivity | now rewrite IH].
Qed.

Lemma splice1_NoDup {A : Type} (i : nat) (l : list A) :
  NoDup l -> NoDup (splice1 i l).
Proof.
  revert i. induction l as [|y r IH]; intros i H; simpl.
  - destruct i; constructor.
  - inversion H as [|? ? Hy Hr]; subst. destruct i; [exact Hr|].
    constructor; [|apply IH; exact Hr].
    intros Hin. apply Hy. apply (splice1_In i r y Hin).
Qed.

(** In a list without repetition, taking out the element at [i] takes that
    value out altogether. *)
Lemma splice1_removes {A : Type} (i : nat) (l : list A) (x : A) :
  NoDup l -> nth_error l i = Some x -> ~ In x (splice1 i l).
Proof.
  revert i. induction l as [|y r IH]; intros i Hnd Hx; simpl in *.
  - destruct i; discriminate.
  - inversion Hnd as [|? ? Hy Hr]; subst. destruct i; simpl in *.
    + injection Hx as <-. exact Hy.
    + intros [<-|Hin].
      * apply Hy. apply (nth_error_In r i Hx).
      * apply (IH i Hr Hx Hin).
Qed.

Lemma nth_error_map_Some {A B : Type} (g : A -> B) (l : list A) (i : nat)
    (x : A) :
  nth_error l i = Some x -> nth_error (map g l) i = Some (g x).
Proof.
  revert i. induction l as [|y r IH]; intros i H; destruct i; simpl in *;
    try discriminate.
  - injection H as <-. reflexivity.
  - apply IH. exact H.
Qed.

(** The entry that [remove] picks for a peer id that is in the roster. *)
Lemma remove_picks (l : list Connection) (p : string) (c : Connection) :
  one_entry_per_peer l -> In c l -> peerJsId c = p ->
  exists i, findIndex (fun x => String.eqb (peerJsId x) p) l = Some i /\
            nth_error l i = Some c /\
            ~ In p (map peerJsId (splice1 i l)).
Proof.
  intros Hnd Hin Hp.
  destruct (findIndex (fun x => String.eqb (peerJsId x) p) l) as [i|] eqn:E.
  - exists i. destruct (findIndex_Some _ _ _ E) as (x & Hx & Fx & _).
    apply String.eqb_eq in Fx.
    assert (Hxp : nth_error (map peerJsId l) i = Some p).
    { rewrite <- Fx. apply nth_error_map_Some. exact Hx. }
    assert (Hgone : ~ In p (map peerJsId (splice1 i l))).
    { rewrite splice1_map. apply splice1_removes; assumption. }
    split; [reflexivity|]. split; [|exact Hgone].
    (* [x] and [c] carry the same peer id, so they are the same entry *)
    clear E. revert i Hx Hxp Hgone.
    induction l as [|y r IH]; intros i Hx Hxp Hgone; [destruct Hin|].
    unfold one_entry_per_peer in Hnd. simpl in Hnd.
    inversion Hnd as [|? ? Hy Hr]; subst.
    destruct i; simpl in *.
    + injection Hx as <-. destruct Hin as [<-|Hin]; [reflexivity|].
      exfalso. apply Hy. rewrite Fx. apply in_map. exact Hin.
    + destruct Hin as [<-|Hin].
      * exfalso. apply Hy. rewrite <- Fx. apply in_map.
        apply (nth_error_In r i Hx).
      * apply (IH Hr Hin i Hx Hxp). intros H. apply Hgone. now right.
  - exfalso. rewrite findIndex_None in E. specialize (E c Hin).
    simpl in E. rewrite Hp, String.eqb_refl in E. discriminate.
Qed.

Lemma remove_absent (s : People) (p : string) :
  ~ In p (map peerJsId (connections s)) -> remove p s = Ok tt s.
Proof.
  intros H. unfold remove, try_catch, bind, gets.
  assert (E : findIndex (fun x => String.eqb (peerJsId x) p) (connections s)
              = None).
  { apply findIndex_None. intros x Hx.
    destruct (String.eqb_spec (peerJsId x) p) as [Heq|]; [|reflexivity].
    exfalso. apply H. rewrite <- Heq. apply in_map. exact Hx. }
  rewrite E. reflexivity.
Qed.

Lemma remove_present (s : People) (p : string) (c : Connection) :
  In c (connections s) -> peerJsId c = p ->
  one_entry_per_peer (connections s) ->
  close_fails s (m_handle (mediaConnection c)) = false ->
  close_fails s (d_handle (dataConnection c)) = false ->
  exists s1 : People,
    remove p s = Ok tt s1 /\
    log s1 = log s ++ [MediaClose (m_handle (mediaConnection c));
                       DataClose (d_handle (dataConnection c));
                       ScheduleStreamReset 10] /\
    ~ In p (map peerJsId (connections s1)).
Proof.
  intros Hin Hp Hnd Hm Hd.
  destruct (remove_picks _ p c Hnd Hin Hp) as (i & Hi & Hc & Hgone).
  unfold remove, try_catch, bind, gets.
  rewrite Hi, Hc. unfold closeMedia, closeData, bind, gets, effect, modify.
  simpl. rewrite Hm. simpl. rewrite Hd. simpl.
  eexists. split; [reflexivity|]. simpl. split; [|exact Hgone].
  rewrite <- !app_assoc. reflexivity.
Qed.

(** C6 (amended).  Removing a peer id that is not in the roster returns
    normally and leaves everything as it was.  For an entry that is in a
    roster with at most one entry per peer id, and whose sub-connections
    close normally, two removals in a row close its media connection once
    and its data connection once: the first removal closes both and drops
    the entry, the second finds nothing and changes nothing. *)
Theorem remove_is_idempotent :
  forall (s : People) (p : string),
    (~ In p (map peerJsId (connections s)) -> remove p s = Ok tt s) /\
    (forall c : Connection,
       In c (connections s) -> peerJsId c = p ->
       one_entry_per_peer (connections s) ->
       close_fails s (m_handle (mediaConnection c)) = false ->
       close_fails s (d_handle (dataConnection c)) = false ->
       exists s1 : People,
         remove p s = Ok tt s1 /\
         log s1 = log s ++ [MediaClose (m_handle (mediaConnection c));
                            DataClose (d_handle (dataConnection c));
                            ScheduleStreamReset 10] /\
         ~ In c (connections s1) /\
         remove p s1 = Ok tt s1 /\
         (remove p ;; remove p) s = Ok tt s1).
Proof.
  intros s p. split; [apply remove_absent|].
  intros c Hin Hp Hnd Hm Hd.
  destruct (remove_present s p c Hin Hp Hnd Hm Hd) as (s1 & H1 & Hlog & Hgone).
  pose proof (remove_absent s1 p Hgone) as H2.
  exists s1. repeat split; try assumption.
  - intros H. apply Hgone. rewrite <- Hp. apply in_map. exact H.
  - unfold bind. rewrite H1. exact H2.
Qed.

Lemma remove_is_idempotent_witness :
  let s := example_roster in
  ~ In "p9" (map peerJsId (connections s)) /\
  remove "p9" s = Ok tt s /\
  In example_entry (connections s) /\
  one_entry_per_peer (connections s) /\
  exists s1 : People,
    (remove "p1" ;; remove "p1") s = Ok tt s1 /\
    log s1 = [MediaClose 11; DataClose 12; ScheduleStreamReset 10].
Proof.
  intros s.
  assert (Habsent : ~ In "p9" (map peerJsId (connections s))).
  { simpl. intros [H|[H|[]]]; discriminate. }
  assert (Hin : In example_entry (connections s)) by (simpl; auto).
  assert (Hnd : one_entry_per_peer (connections s)).
  { unfold one_entry_per_peer. simpl.
    constructor; [simpl; intros [H|[]]; discriminate|].
    constructor; [simpl; tauto | constructor]. }
  split; [exact Habsent|].
  split; [exact (proj1 (remove_is_idempotent s "p9") Habsent)|].
  split; [exact Hin|]. split; [exact Hnd|].
  destruct (proj2 (remove_is_idempotent s "p1") example_entry Hin eq_refl Hnd
              eq_refl eq_refl) as (s1 & _ & Hlog & _ & _ & Htwice).
  exists s1. split; [exact Htwice | exact Hlog].
Defined.

(** C6, as stated, fails: where closing the media connection of a listed
    peer throws, the first removal throws and keeps the entry, and the
    second removal closes that media connection a second time and throws
    again; the data connection is never closed. *)
Lemma second_remove_closes_again :
  let s := example_roster_stuck in
  let first := remove "p1" s in
  let second := remove "p1" (state_of first) in
  In "p1" (map peerJsId (connections s)) /\
  throws first = true /\
  connections (state_of first) = connections s /\
  throws second = true /\
  log (state_of second) = [MediaClose 11; MediaClose 11] /\
  connections (state_of second) = connections s.
Proof.
  simpl. split; [left; reflexivity|]. repeat split; reflexivity.
Qed.

(** When a sub-connection fails to close, [remove] throws the error on and
    keeps the entry, so the hypothesis on [close_fails] above is needed. *)
Lemma remove_rethrows_close_failure (s : People) (p : string)
    (c : Connection) :
  In c (connections s) -> peerJsId c = p ->
  one_entry_per_peer (connections s) ->
  close_fails s (m_handle (mediaConnection c)) = true ->
  throws (remove p s) = true /\
  connections (state_of (remove p s)) = connections s.
Proof.
  intros Hin Hp Hnd Hm.
  destruct (remove_picks _ p c Hnd Hin Hp) as (i & Hi & Hc & _).
  unfold remove, try_catch, bind, gets. rewrite Hi, Hc.
  unfold closeMedia, bind, gets, effect, modify. simpl. rewrite Hm. simpl.
  unfold log_and_rethrow, bind, gets, when, effect, modify, ret, throw.
  simpl. destruct (debug s); split; reflexivity.
Qed.

(** *** Adding *)

Lemma find_none_not_in (l : list Connection) (p : string) :
  find (fun x => String.eqb (id x) p) l = None -> ~ In p (map id l).
Proof.
  intros H Hin. apply in_map_iff in Hin. destruct Hin as (x & Hx & Hin).
  apply (find_none _ _ H) in Hin. simpl in Hin.
  rewrite Hx, String.eqb_refl in Hin. discriminate.
Qed.

(** C10.  When the peer is not yet in the roster, [add] (which succeeds as
    soon as the room information is there) appends exactly one entry, for
    that peer, and the entry starts with camera and microphone muted, no
    share, no recording, and inactive. *)
Theorem add_creates_muted_inactive_entry :
  forall (s : People) (m : MediaConnection) (d : DataConnection)
         (data : option JoinData),
    find (fun x => String.eqb (id x) (m_peer m)) (connections s) = None ->
    (information s <> None -> exists s', add m d data s = Ok true s') /\
    (forall (r : bool) (s' : People),
       add m d data s = Ok r s' ->
       exists c : Connection,
         connections s' = connections s ++ [c] /\
         id c = m_peer m /\ peerJsId c = m_peer m /\
         camMute c = true /\ micMute c = true /\
         share c = false /\ record c = false /\ active c = false).
Proof.
  intros s m d data Hnew.
  unfold add, try_catch, bind, gets. rewrite Hnew.
  destruct (information s) as [info|]; simpl.
  - split; [intros _; eexists; reflexivity|].
    intros r s' H. injection H as <- <-.
    eexists. simpl. split; [reflexivity|].
    destruct data; simpl; repeat split; reflexivity.
  - split; [congruence|]. intros r s' H.
    unfold log_and_rethrow, bind, gets, when, effect, modify, ret, throw in H.
    simpl in H. destruct (debug s); discriminate.
Qed.

Lemma add_creates_muted_inactive_entry_witness :
  let s := example_roster in
  let m := mkMedia 31 "p3" [] in
  let d := mkData 32 "p3" in
  find (fun x => String.eqb (id x) (m_peer m)) (connections s) = None /\
  information s <> None /\
  exists s', add m d None s = Ok true s' /\
    exists c, connections s' = connections s ++ [c] /\
              camMute c = true /\ micMute c = true /\ active c = false.
Proof.
  intros s m d.
  assert (Hnew : find (fun x => String.eqb (id x) (m_peer m)) (connections s)
                 = None) by reflexivity.
  assert (Hinfo : information s <> None) by discriminate.
  split; [exact Hnew|]. split; [exact Hinfo|].
  destruct (add_creates_muted_inactive_entry s m d None Hnew) as [Htot Hnewc].
  destruct (Htot Hinfo) as [s' Hs']. exists s'. split; [exact Hs'|].
  destruct (Hnewc true s' Hs') as (c & Hc & _ & _ & Hcam & Hmic & _ & _ & Hact).
  exists c. repeat split; assumption.
Defined.

(** An entry for a peer that is already in the roster is not added again. *)
Lemma add_existing_is_noop (s : People) (m : MediaConnection)
    (d : DataConnection) (data : option JoinData) (c : Connection) :
  find (fun x => String.eqb (id x) (m_peer m)) (connections s) = Some c ->
  add m d data s = Ok true s.
Proof.
  intros H. unfold add, try_catch, bind, gets. rewrite H. reflexivity.
Qed.

(** [add] keeps the roster well formed. *)
Lemma add_keeps_roster_ok (s : People) (m : MediaConnection)
    (d : DataConnection) (data : option JoinData) :
  roster_ok (connections s) ->
  roster_ok (connections (state_of (add m d data s))).
Proof.
  intros [Hnd Hid].
  destruct (find (fun x => String.eqb (id x) (m_peer m)) (connections s))
    as [c|] eqn:Hf.
  - rewrite (add_existing_is_noop s m d data c Hf). split; assumption.
  - unfold add, try_catch, bind, gets. rewrite Hf.
    destruct (information s) as [info|]; simpl.
    + split.
      * unfold one_entry_per_peer in *. rewrite map_app. simpl.
        apply find_none_not_in in Hf.
        assert (Hsame : map id (connections s) = map peerJsId (connections s)).
        { clear -Hid. induction Hid as [|x l Hx _ IH]; simpl; congruence. }
        rewrite Hsame in Hf.
        assert (Hp : peerJsId (override data
                       (new_entry m d
                          (find (fun x => String.eqb (u_peerJsId x) (m_peer m))
                             (users info)))) = m_peer m)
          by (destruct data; reflexivity).
        rewrite Hp. clear -Hnd Hf.
        induction (map peerJsId (connections s)) as [|y r IH]; simpl.
        -- constructor; [intros []|constructor].
        -- inversion Hnd as [|? ? Hy Hr]; subst. constructor.
           ++ intros Hin. apply in_app_or in Hin. destruct Hin as [Hin|[<-|[]]].
              ** contradiction.
              ** apply Hf. now left.
           ++ apply IH; [exact Hr|]. intros H. apply Hf. now right.
      * apply Forall_app. split; [exact Hid|]. constructor; [|constructor].
        destruct data; reflexivity.
    + unfold log_and_rethrow, bind, gets, when, effect, modify, ret, throw.
      simpl. destruct (debug s); simpl; split; assumption.
Qed.

End PeopleProofs.
(** ** The subscription registry *)
Module EventsProofs.
Import Events.
Local Open Scope js_scope.







End EventsProofs.
(** ** The room protocol *)
Module RoomProofs.
Import Events Room.
Local Open Scope js_scope.

(** *** The cache of action items *)

Lemma findIndex_find {A : Type} (f : A -> bool) (l : list A) :
  match findIndex f l with
  | Some i => exists x, nth_error l i = Some x /\ find f l = Some x
  | None => find f l = None
  end.
Proof.
  induction l as [|y r IH]; simpl; [reflexivity|].
  destruct (f y).
  - exists y. split; reflexivity.
  - destruct (findIndex f r) as [i|]; simpl; exact IH.
Qed.

Lemma find_snoc_other {A : Type} (f : A -> bool) (l : list A) (x : A) :
  f x = false -> find f (l ++ [x]) = find f l.
Proof.
  intros Hx. induction l as [|y r IH]; simpl.
  - rewrite Hx. reflexivity.
  - destruct (f y); [reflexivity | exact IH].
Qed.

Lemma find_snoc_new {A : Type} (f : A -> bool) (l : list A) (x : A) :
  find f l = None -> f x = true -> find f (l ++ [x]) = Some x.
Proof.
  intros Hn Hx. induction l as [|y r IH]; simpl in *.
  - rewrite Hx. reflexivity.
  - destruct (f y); [discriminate | apply IH; exact Hn].
Qed.

(** C2 (amended).  When the handler that the dispatcher resolves for an
    action throws, the dispatcher catches the exception, logs it if
    debugging is on, and throws it again to its caller; it emits no
    notification for that action.  The registry stays usable: every action
    name resolves to the same handler as before, so later dispatches are
    not affected. *)
Theorem handler_exception_is_rethrown :
  forall (s : Room) (action : Action) (item : ActionItem)
         (effs : list Effect) (e : JSError),
    resolved (kebabToCamel (a_name action)) s = Built item ->
    run item (localPeerJsId s) action = (effs, Some e) ->
    exists s' : Room,
      runRequestedAction action s = Throw e s' /\
      log s' = log s ++ effs ++
               (if debug s then [ConsoleLog "Action run failed!"] else []) /\
      forall n : string, resolved n s' = resolved n s.
Proof.
  intros s action item effs e Hres Hrun.
  unfold runRequestedAction, resolved in *.
  set (actionName := kebabToCamel (a_name action)) in *.
  unfold bind at 1. unfold gets at 1.
  pose proof (findIndex_find (fun x => String.eqb (fst x) actionName)
                (actions s)) as Hfi.
  destruct (findIndex (fun x => String.eqb (fst x) actionName) (actions s))
    as [i|] eqn:Ei.
  - destruct Hfi as (x & Hx & Hf). rewrite Hf in Hres.
    injection Hres as Hitem.
    unfold try_catch, bind. rewrite Hx. unfold ret at 1.
    unfold run_item, bind, gets. rewrite Hitem, Hrun.
    unfold effects, modify, throw, when, effect, effects, modify, ret.
    simpl. destruct (debug s) eqn:Ed; simpl.
    + eexists. split; [reflexivity|]. simpl. split.
      * rewrite <- app_assoc. reflexivity.
      * intros n. reflexivity.
    + eexists. split; [reflexivity|]. simpl. split.
      * rewrite app_nil_r. reflexivity.
      * intros n. reflexivity.
  - rewrite Hfi in Hres.
    unfold try_catch, bind, gets. rewrite Hres.
    unfold modify at 1. unfold ret at 1.
    unfold run_item, bind, gets. simpl. rewrite Hrun.
    unfold effects, modify, throw, when, effect, effects, modify, ret.
    simpl.
    assert (Hsame : forall n : string,
              match find (fun x => String.eqb (fst x) n)
                         (actions s ++ [(actionName, item)]) with
              | Some x => Built (snd x)
              | None => make_item n s
              end
              = match find (fun x => String.eqb (fst x) n) (actions s) with
                | Some x => Built (snd x)
                | None => make_item n s
                end).
    { intros n. destruct (String.eqb_spec actionName n) as [<-|Hne].
      - rewrite Hfi.
        rewrite (find_snoc_new _ _ (actionName, item) Hfi)
          by (simpl; apply String.eqb_refl).
        simpl. symmetry. exact Hres.
      - rewrite find_snoc_other; [reflexivity|]. simpl.
        apply String.eqb_neq. exact Hne. }
    destruct (debug s) eqn:Ed; simpl.
    + eexists. split; [reflexivity|]. simpl. split.
      * rewrite <- app_assoc. reflexivity.
      * exact Hsame.
    + eexists. split; [reflexivity|]. simpl. split.
      * rewrite app_nil_r. reflexivity.
      * exact Hsame.
Qed.

Lemma handler_exception_is_rethrown_witness :
  resolved (kebabToCamel (a_name malformed_ban)) example_room
    = Built banAction /\
  exists (e : JSError) (s' : Room),
    run banAction (localPeerJsId example_room) malformed_ban = ([], Some e) /\
    runRequestedAction malformed_ban example_room = Throw e s' /\
    log s' = [].
Proof.
  assert (Hres : resolved (kebabToCamel (a_name malformed_ban)) example_room
                 = Built banAction) by reflexivity.
  split; [exact Hres|].
  eexists. 
  destruct (handler_exception_is_rethrown example_room malformed_ban
              banAction [] _ Hres eq_refl) as (s' & Hthrow & Hlog & _).
  exists s'. split; [reflexivity|]. split; [exact Hthrow | exact Hlog].
Defined.

(** C2, as stated, fails: a ban envelope that lacks its [ban] attribute
    makes the ban handler throw; the dispatcher throws the same error at
    its caller and reports nothing. *)
Lemma failing_handler_propagates :
  exists (e : JSError) (s' : Room),
    runRequestedAction malformed_ban example_room = Throw e s' /\
    log s' = [].
Proof. eexists. eexists. split; vm_compute; reflexivity. Qed.

(** A handler that returns normally is followed by the notification named
    after the action. *)
Lemma successful_handler_notifies (s : Room) (action : Action)
    (item : ActionItem) (effs : list Effect) :
  find (fun x => String.eqb (fst x) (kebabToCamel (a_name action)))
       (actions s) = Some (kebabToCamel (a_name action), item) ->
  run item (localPeerJsId s) action = (effs, None) ->
  exists s', runRequestedAction action s = Ok tt s' /\
    log s' = log s ++ effs ++
      [Emit (String.append "on"
               (String.append (capitalize (kebabToCamel (a_name action)))
                  "Action")) (attributes action)].
Proof.
  intros Hf Hrun. unfold runRequestedAction.
  set (actionName := kebabToCamel (a_name action)) in *.
  unfold bind at 1. unfold gets at 1.
  pose proof (findIndex_find (fun x => String.eqb (fst x) actionName)
                (actions s)) as Hfi.
  destruct (findIndex (fun x => String.eqb (fst x) actionName) (actions s))
    as [i|]; [|congruence].
  destruct Hfi as (x & Hx & Hf'). rewrite Hf in Hf'. injection Hf' as <-.
  unfold try_catch, bind. rewrite Hx. unfold ret at 1.
  unfold run_item, bind, gets. simpl. rewrite Hrun.
  unfold effects, modify, effect, effects, modify, ret. simpl.
  eexists. split; [reflexivity|]. simpl. rewrite <- app_assoc. reflexivity.
Qed.


(** *** Leaving the room *)

Lemma closeAll_returns (p : People.People) :
  exists p', People.closeAll p = Ok tt p'.
Proof.
  unfold People.closeAll, try_catch.
  match goal with |- exists p', match ?b with _ => _ end = _ =>
    destruct b as [[] q|err q] end.
  - exists q. reflexivity.
  - eexists. reflexivity.
Qed.

(** [Room.left] up to and including the release of the local media. *)
Lemma left_prefix (s : Room) :
  exists s1 : Room,
    (effect PeopleCloseAll ;; in_people People.closeAll ;;
     effect MediaRelease) s = Ok tt s1 /\
    log s1 = log s ++ [PeopleCloseAll; MediaRelease] /\
    release_fails s1 = release_fails s /\ peerJs s1 = peerJs s /\
    shareMedia s1 = shareMedia s /\ global_parent s1 = global_parent s /\
    socket s1 = socket s /\
    people s1 = state_of (People.closeAll (people s)).
Proof.
  destruct (closeAll_returns (people s)) as [p' Hp].
  unfold bind, effect, effects, modify, in_people. simpl. rewrite Hp.
  eexists. split; [reflexivity|]. simpl.
  rewrite <- app_assoc. repeat split.
Qed.

(** C5 (amended).  With a room joined, the signaling channel connected and
    no screen-share stream left in place, [left] runs its steps in order:
    roster teardown (whose own failures are logged and dropped inside
    [closeAll]), release of the local media, disconnect of the peer
    transport, and the [left-room] message to the server; the signaling
    channel is closed when the server acknowledges that message.  If the
    media release fails, or there is no peer transport to disconnect, the
    steps after it are not run and the call fails.  With a share stream
    still in place the call fails after the disconnect, before the server
    is told: nothing is destroyed. *)
Theorem left_stops_at_first_failure :
  forall (s : Room) (roomId : string),
    socket s = Some true -> joined_room s = Some roomId ->
    (release_fails s = None -> peerJs s = true -> shareMedia s = false ->
       exists s' : Room,
         left s = Ok true s' /\
         log s' = log s ++ [PeopleCloseAll; MediaRelease; PeerDisconnect;
                            SocketEmit "left-room" roomId] /\
         people s' = state_of (People.closeAll (people s)) /\
         socket s' = Some true /\
         log (state_of (left_acknowledged s')) = log s' ++ [CloseConnection] /\
         socket (state_of (left_acknowledged s')) = None) /\
    (release_fails s <> None \/ peerJs s = false ->
       throws (left s) = true /\
       log (state_of (left s))
         = log s ++ [PeopleCloseAll; MediaRelease] ++ left_catch_log s) /\
    (release_fails s = None -> peerJs s = true -> shareMedia s = true ->
       throws (left s) = true /\
       log (state_of (left s))
         = log s ++ [PeopleCloseAll; MediaRelease; PeerDisconnect]
                 ++ left_catch_log s /\
       socket (state_of (left s)) = Some true).
Proof.
  intros s roomId Hsock Hroom.
  destruct (left_prefix s)
    as (s1 & H1 & Hlog & Hrel & Hpeer & Hshare & Hgp & Hsk & Hpeople).
  assert (Hleft : left s =
            try_catch
              (fun s0 =>
                 match (effect PeopleCloseAll ;; in_people People.closeAll ;;
                        effect MediaRelease) s0 with
                 | Ok _ s2 =>
                     (fails <- gets release_fails ;;
                      match fails with Some e => throw e | None => ret tt end ;;
                      has_peer <- gets peerJs ;;
                      (if has_peer then effect PeerDisconnect
                       else throw (TypeError
                         "Cannot read properties of null (reading 'disconnect')")) ;;
                      has_share <- gets shareMedia ;;
                      when has_share
                        (throw (TypeError
                           "Room.parent.userSettings.shareMedia?.destroy is not a function")) ;;
                      effect (SocketEmit "left-room" roomId) ;;
                      ret true) s2
                 | Throw e s2 => Throw e s2
                 end)
              left_catch s).
  { unfold left. unfold bind at 1. unfold gets at 1.
    unfold bind at 1. unfold gets at 1. rewrite Hsock, Hroom.
    unfold try_catch, bind.
    destruct (effect PeopleCloseAll s) as [[] sa|ea sa]; [|reflexivity].
    destruct (in_people People.closeAll sa) as [[] sb|eb sb]; [|reflexivity].
    destruct (effect MediaRelease sb) as [[] sc|ec sc]; reflexivity. }
  rewrite Hleft. unfold try_catch. rewrite H1. clear Hleft H1.
  unfold bind, gets, left_catch, left_catch_log.
  destruct (release_fails s) as [e|] eqn:Er; rewrite Hrel.
  - (* the release of the local media fails *)
    split; [intros Hr; discriminate|].
    split; [|intros Hr; discriminate]. intros _.
    unfold throw. cbn beta iota. unfold bind, gets. rewrite Hgp.
    destruct (global_parent s) as [| |[|]]; simpl;
      rewrite Hlog, ?app_nil_r, <- ?app_assoc; split; reflexivity.
  - unfold ret. cbn beta iota. rewrite Hpeer.
    destruct (peerJs s) eqn:Ep.
    + unfold effect, effects, modify, when, ret, throw. cbn beta iota.
      cbn [shareMedia]. rewrite Hshare.
      destruct (shareMedia s) eqn:Es.
      * (* a share stream is still in place *)
        split; [intros _ _ Hs; discriminate|].
        split; [intros [Hr|Hp]; congruence|]. intros _ _ _.
        unfold bind, gets. cbn [global_parent]. rewrite Hgp.
        destruct (global_parent s) as [| |[|]]; simpl;
          rewrite Hlog, Hsk, Hsock, ?app_nil_r, <- ?app_assoc;
          repeat split; reflexivity.
      * (* every step succeeds *)
        split; [|split; [intros [Hr|Hp]; congruence
                        |intros _ _ Hs; discriminate]].
        intros _ _ _. simpl. eexists. split; [reflexivity|]. simpl.
        rewrite Hlog, Hpeople, Hsk, Hsock, <- !app_assoc. repeat split.
    + (* there is no peer transport *)
      split; [intros _ Hp; discriminate|].
      split; [|intros _ Hp; discriminate]. intros _.
      unfold throw. cbn beta iota. unfold bind, gets. rewrite Hgp.
      destruct (global_parent s) as [| |[|]]; simpl;
        rewrite Hlog, ?app_nil_r, <- ?app_assoc; split; reflexivity.
Qed.

Lemma left_stops_at_first_failure_witness :
  socket example_room = Some true /\
  joined_room example_room = Some "room-1" /\
  release_fails example_room = None /\ peerJs example_room = true /\
  shareMedia example_room = false /\
  (exists s' : Room,
     left example_room = Ok true s' /\
     log s' = [PeopleCloseAll; MediaRelease; PeerDisconnect;
               SocketEmit "left-room" "room-1"]) /\
  shareMedia example_room_sharing = true /\
  throws (left example_room_sharing) = true /\
  log (state_of (left example_room_sharing))
    = [PeopleCloseAll; MediaRelease; PeerDisconnect].
Proof.
  repeat (split; [reflexivity|]).
  split.
  - destruct (proj1 (left_stops_at_first_failure example_room "room-1"
                       eq_refl eq_refl) eq_refl eq_refl eq_refl)
      as (s' & Hleft & Hlog & _).
    exists s'. split; [exact Hleft | exact Hlog].
  - split; [reflexivity|].
    destruct (proj2 (proj2 (left_stops_at_first_failure example_room_sharing
                              "room-1" eq_refl eq_refl))
                eq_refl eq_refl eq_refl) as (Ht & Hlog & _).
    split; [exact Ht | exact Hlog].
Defined.

(** C5, as stated, fails: leaving before the peer transport came up stops
    at the disconnect step; the server is not told and the call fails. *)
Lemma left_skips_server_notification :
  let r := left example_room_without_peer in
  throws r = true /\
  log (state_of r) = [PeopleCloseAll; MediaRelease] /\
  ~ In (SocketEmit "left-room" "room-1") (log (state_of r)).
Proof.
  split; [reflexivity|]. split; [reflexivity|].
  vm_compute. intros [H|[H|[]]]; discriminate.
Qed.

(** Outside a joined room, or without a connected channel, [left] does
    nothing and answers [false]. *)
Lemma left_guard (s : Room) :
  socket s <> Some true \/ joined_room s = None -> left s = Ok false s.
Proof.
  intros H. unfold left, bind, gets.
  destruct (socket s) as [[|]|]; destruct (joined_room s);
    try reflexivity; destruct H; congruence.
Qed.

End RoomProofs.
(** ** The media pipeline *)
Module MediaProofs.
Import People Media.
Local Open Scope js_scope.

(** *** Acquisition failures *)

Lemma unknown_name_not_found (n : string) :
  existsb (String.eqb n) known_names = false ->
  find (fun e => includes (fst e) (Some n)) mediaGrabErrors = None.
Proof.
  intros H. unfold known_names, mediaGrabErrors in *. simpl in *.
  repeat match type of H with
         | (?a || ?b) = false =>
             apply orb_false_elim in H; destruct H as [?H H]
         end.
  repeat match goal with
         | Hn : String.eqb n _ = false |- _ => rewrite Hn; clear Hn
         end.
  reflexivity.
Qed.

Lemma or_else_same (a : option string) : or_else a a = a.
Proof. destruct a as [x|]; simpl; [destruct (String.eqb x ""); reflexivity | reflexivity]. Qed.

(** The body of [grab] before the device is asked never gets past a
    missing [devices] object. *)
Lemma grab_begin_cases (d : option Devices) (muteVideo : bool) (s : Media) :
  match d with
  | Some _ => exists s', grab_begin d muteVideo s = Ok tt s'
  | None => exists e s', grab_begin d muteVideo s = Throw e s'
  end.
Proof.
  unfold grab_begin, bind, modify, effect, modify, throw.
  destruct d; simpl; repeat eexists.
Qed.

(** C9 (amended).  [grab] never throws: whatever fails inside it ends in
    the [catch] block and comes back as a value.  A failure of the device
    is returned as [grab_catch error]: for an error whose name is listed in
    a row of the table (nine names in five rows) that is the message of
    that very row; for any other failure it is the error's own name,
    unchanged. *)
Theorem grab_returns_failures_as_values :
  forall (d : option Devices) (muteVideo muteAudio : bool)
         (answer : GumOutcome) (s : Media),
    (exists (r : GrabResult) (s' : Media),
       grab d muteVideo muteAudio answer s = Ok r s') /\
    (forall error : JSError,
       d <> None -> answer = Denied error ->
       exists s' : Media,
         grab d muteVideo muteAudio answer s
           = Ok (Message (grab_catch error)) s') /\
    (forall (error : JSError) (names : list string) (message : string),
       In (names, message) mediaGrabErrors ->
       includes names (err_name error) = true ->
       grab_catch error = Some message /\ In message taxonomy /\
       (d <> None -> answer = Denied error ->
        exists s' : Media,
          grab d muteVideo muteAudio answer s
            = Ok (Message (Some message)) s')) /\
    (forall error : JSError,
       includes known_names (err_name error) = true ->
       exists (names : list string) (message : string),
         In (names, message) mediaGrabErrors /\
         includes names (err_name error) = true /\
         grab_catch error = Some message) /\
    (forall error : JSError,
       includes known_names (err_name error) = false ->
       grab_catch error = err_name error).
Proof.
  intros d muteVideo muteAudio answer s.
  assert (Hvalue : forall error : JSError,
            d <> None -> answer = Denied error ->
            exists s' : Media,
              grab d muteVideo muteAudio answer s
                = Ok (Message (grab_catch error)) s').
  { intros error Hd ->. destruct d as [dv|]; [|congruence].
    destruct (grab_begin_cases (Some dv) muteVideo s) as [s' Hs'].
    unfold grab, caught, try_catch, bind. rewrite Hs'.
    unfold grab_rest, throw, ret. eexists. reflexivity. }
  assert (Hrow : forall (error : JSError) (names : list string)
                        (message : string),
            In (names, message) mediaGrabErrors ->
            includes names (err_name error) = true ->
            grab_catch error = Some message).
  { intros error names message Hin H. unfold includes in H.
    destruct (err_name error) as [n|] eqn:En; [|discriminate].
    unfold grab_catch. rewrite En.
    unfold mediaGrabErrors in Hin. simpl in Hin.
    repeat (destruct Hin as [Hin|Hin];
            [injection Hin as <- <-; simpl in H;
             repeat (apply orb_prop in H; destruct H as [H|H];
                     [apply String.eqb_eq in H; subst n; reflexivity|]);
             discriminate|]).
    destruct Hin. }
  split; [|split; [exact Hvalue|split; [|split]]].
  - unfold grab, caught, try_catch, bind.
    destruct (match grab_begin d muteVideo s with
              | Ok _ s' => grab_rest muteAudio answer s'
              | Throw e s' => Throw e s'
              end) as [m s'|e s']; unfold ret; eexists; eexists; reflexivity.
  - intros error names message Hin H.
    pose proof (Hrow error names message Hin H) as Hm.
    split; [exact Hm|]. split.
    + unfold taxonomy. apply (in_map snd) in Hin. exact Hin.
    + intros Hd Ha. destruct (Hvalue error Hd Ha) as [s' Hs'].
      exists s'. rewrite Hs', Hm. reflexivity.
  - intros error H. unfold includes in H.
    destruct (err_name error) as [n|] eqn:En; [|discriminate].
    apply existsb_exists in H. destruct H as (x & Hx & Heq).
    unfold known_names in Hx. apply in_flat_map in Hx.
    destruct Hx as ([names message] & Hrowin & Hxin). simpl in Hxin.
    assert (Hinc : includes names (err_name error) = true).
    { rewrite En. simpl. apply existsb_exists. exists x. split; assumption. }
    exists names, message. rewrite <- En.
    split; [exact Hrowin|]. split; [exact Hinc|].
    exact (Hrow error names message Hrowin Hinc).
  - intros error H. unfold includes in H. unfold grab_catch.
    destruct (err_name error) as [n|] eqn:En.
    + rewrite (unknown_name_not_found n H). simpl.
      destruct (String.eqb n ""); reflexivity.
    + simpl. reflexivity.
Qed.

Lemma grab_returns_failures_as_values_witness :
  let refused := mkError (Some "NotAllowedError") "Permission denied" in
  let row := (["NotAllowedError"; "PermissionDeniedError"],
              "permission denied in browser") in
  Some (mkDevices "cam0" "mic0") <> None /\
  In row mediaGrabErrors /\
  includes (fst row) (err_name refused) = true /\
  exists s' : Media,
    grab (Some (mkDevices "cam0" "mic0")) false false (Denied refused)
         example_session
      = Ok (Message (Some "permission denied in browser")) s'.
Proof.
  intros refused row.
  assert (Hd : Some (mkDevices "cam0" "mic0") <> None) by discriminate.
  assert (Hin : In row mediaGrabErrors).
  { unfold mediaGrabErrors, row. simpl. tauto. }
  split; [exact Hd|]. split; [exact Hin|]. split; [reflexivity|].
  destruct (proj1 (proj2 (proj2 (grab_returns_failures_as_values
              (Some (mkDevices "cam0" "mic0")) false false (Denied refused)
              example_session)))
              refused (fst row) (snd row) Hin eq_refl)
    as (_ & _ & Hgrab).
  destruct (Hgrab Hd eq_refl) as [s' Hs']. exists s'. exact Hs'.
Defined.

(** C9, as stated, fails: an acquisition that the device aborts is not in
    the table; [grab] hands back the bare name "AbortError", which is none
    of the five messages. *)
Lemma abort_error_is_outside_the_taxonomy :
  let aborted := Denied (mkError (Some "AbortError") "Starting video failed") in
  exists s' : Media,
    grab (Some (mkDevices "cam0" "mic0")) false false aborted example_session
      = Ok (Message (Some "AbortError")) s' /\
    ~ In "AbortError" taxonomy.
Proof.
  eexists. split; [vm_compute; reflexivity|].
  simpl. intros [H|[H|[H|[H|[H|[]]]]]]; discriminate.
Qed.


(** *** Quiet steps: no track is replaced or added *)

Lemma quiet_refl (s : Media) : quiet_step s s.
Proof.
  repeat split. exists []. split; [now rewrite app_nil_r | reflexivity].
Qed.

Lemma quiet_trans (a b c : Media) :
  quiet_step a b -> quiet_step b c -> quiet_step a c.
Proof.
  intros (Hc & Hp & He & l & Hl & Hq) (Hc' & Hp' & He' & l' & Hl' & Hq').
  repeat split; try congruence.
  exists (l ++ l'). split.
  - rewrite Hl', Hl, app_assoc. reflexivity.
  - unfold track_ops in *. rewrite filter_app, Hq, Hq'. reflexivity.
Qed.

Lemma quiet_ret {A : Type} (a : A) : quiet (ret a).
Proof. intros s. apply quiet_refl. Qed.

Lemma quiet_throw {A : Type} (e : JSError) : quiet (@throw Media A e).
Proof. intros s. apply quiet_refl. Qed.

Lemma quiet_gets {A : Type} (f : Media -> A) : quiet (gets f).
Proof. intros s. apply quiet_refl. Qed.

Lemma quiet_bind {A B : Type} (m : M Media A) (k : A -> M Media B) :
  quiet m -> (forall a, quiet (k a)) -> quiet (bind m k).
Proof.
  intros Hm Hk s. unfold bind. specialize (Hm s).
  destruct (m s) as [a s'|e s']; simpl in *; [|exact Hm].
  eapply quiet_trans; [exact Hm | apply Hk].
Qed.

Lemma quiet_try_catch {A : Type} (m : M Media A) (h : JSError -> M Media A) :
  quiet m -> (forall e, quiet (h e)) -> quiet (try_catch m h).
Proof.
  intros Hm Hh s. unfold try_catch. specialize (Hm s).
  destruct (m s) as [a s'|e s']; simpl in *; [exact Hm|].
  eapply quiet_trans; [exact Hm | apply Hh].
Qed.

Lemma quiet_effect (e : Effect) : is_track_op e = false -> quiet (effect e).
Proof.
  intros He s. unfold effect, modify. simpl. repeat split.
  exists [e]. split; [reflexivity|]. unfold track_ops. simpl.
  rewrite He. reflexivity.
Qed.

Lemma quiet_modify (f : Media -> Media) :
  (forall s, connections (f s) = connections s /\
             pending (f s) = pending s /\
             local_element (f s) = local_element s /\ log (f s) = log s) ->
  quiet (modify f).
Proof.
  intros Hf s. unfold modify. simpl.
  destruct (Hf s) as (Hc & Hp & He & Hl). repeat split; try assumption.
  exists []. split; [now rewrite Hl, app_nil_r | reflexivity].
Qed.

Lemma quiet_when (b : bool) (m : M Media unit) : quiet m -> quiet (when b m).
Proof. intros Hm. destruct b; [exact Hm | apply quiet_ret]. Qed.

Lemma quiet_forEach {A : Type} (f : A -> M Media unit) (l : list A) :
  (forall x, quiet (f x)) -> quiet (forEach f l).
Proof.
  intros Hf. induction l as [|x r IH]; simpl.
  - apply quiet_ret.
  - apply quiet_bind; [apply Hf | intros _; exact IH].
Qed.

Create HintDb quiet_db.

Ltac quiet_head :=
  match goal with
  | |- quiet (ret _) => apply quiet_ret
  | |- quiet (throw _) => apply quiet_throw
  | |- quiet (gets _) => apply quiet_gets
  | |- quiet (effect _) => apply quiet_effect; reflexivity
  | |- quiet (modify _) =>
      apply quiet_modify; intros ?; repeat split; reflexivity
  | |- quiet (when _ _) => apply quiet_when
  | |- quiet (forEach _ _) => apply quiet_forEach; intros ?
  | |- quiet (bind _ _) => apply quiet_bind; [|intros ?]
  | |- quiet (try_catch _ _) => apply quiet_try_catch; [|intros ?]
  | |- quiet (match ?x with Some _ => _ | None => _ end) => destruct x
  | |- quiet (match ?x with Granted _ => _ | Denied _ => _ end) => destruct x
  | |- quiet (match ?x with Video => _ | Audio => _ end) => destruct x
  | |- quiet (if ?x then _ else _) => destruct x
  end.

Ltac quiet_steps := repeat quiet_head; auto with quiet_db.

Lemma quiet_send_status : quiet send_status.
Proof.
  unfold send_status, sendUserMediaMuteStatusByDataConnection. quiet_steps.
Qed.
#[local] Hint Resolve quiet_send_status : quiet_db.

Lemma quiet_terminate_tracks (k : Kind) : quiet (terminate_tracks k).
Proof. unfold terminate_tracks. quiet_steps. Qed.
#[local] Hint Resolve quiet_terminate_tracks : quiet_db.

Lemma quiet_muteMicrophone (status : option bool) :
  quiet (muteMicrophone status).
Proof. unfold muteMicrophone. quiet_steps. Qed.
#[local] Hint Resolve quiet_muteMicrophone : quiet_db.

Lemma quiet_release : quiet release.
Proof. unfold release. quiet_steps. Qed.
#[local] Hint Resolve quiet_release : quiet_db.

Lemma quiet_grab_begin (d : option Devices) (muteVideo : bool) :
  quiet (grab_begin d muteVideo).
Proof. unfold grab_begin. quiet_steps. Qed.
#[local] Hint Resolve quiet_grab_begin : quiet_db.

Lemma quiet_grab_rest (muteAudio : bool) (answer : GumOutcome) :
  quiet (grab_rest muteAudio answer).
Proof. unfold grab_rest. quiet_steps. Qed.
#[local] Hint Resolve quiet_grab_rest : quiet_db.

Lemma quiet_caught (body : M Media MediaStream) :
  quiet body -> quiet (caught body).
Proof. intros H. unfold caught. quiet_steps. Qed.

Lemma quiet_grab (d : option Devices) (muteVideo muteAudio : bool)
    (answer : GumOutcome) :
  quiet (grab d muteVideo muteAudio answer).
Proof. unfold grab. apply quiet_caught. quiet_steps. Qed.

Lemma quiet_streamVideo_local (media : GrabResult) :
  quiet (streamVideo_local media).
Proof. unfold streamVideo_local. quiet_steps. Qed.
#[local] Hint Resolve quiet_streamVideo_local : quiet_db.


(** *** Steps that return normally *)

Section Returning.
Variable R : Media -> Media -> Prop.
Hypothesis R_refl : forall s, R s s.
Hypothesis R_trans : forall a b c, R a b -> R b c -> R a c.

Lemma returning_ret {A : Type} (a : A) : returning R (ret a).
Proof. intros s. exists a, s. split; [reflexivity | apply R_refl]. Qed.

Lemma returning_gets {A : Type} (f : Media -> A) : returning R (gets f).
Proof. intros s. exists (f s), s. split; [reflexivity | apply R_refl]. Qed.

Lemma returning_bind {A B : Type} (m : M Media A) (k : A -> M Media B) :
  returning R m -> (forall a, returning R (k a)) -> returning R (bind m k).
Proof.
  intros Hm Hk s. destruct (Hm s) as (a & s' & Hs' & HR).
  destruct (Hk a s') as (b & s'' & Hs'' & HR').
  exists b, s''. unfold bind. rewrite Hs'. split; [exact Hs''|].
  eapply R_trans; eassumption.
Qed.

Lemma returning_step (f : Media -> Media) :
  (forall s, R s (f s)) -> returning R (modify f).
Proof. intros Hf s. exists tt, (f s). split; [reflexivity | apply Hf]. Qed.

Lemma returning_when (b : bool) (m : M Media unit) :
  returning R m -> returning R (when b m).
Proof. intros Hm. destruct b; [exact Hm | apply returning_ret]. Qed.

Lemma returning_forEach {A : Type} (f : A -> M Media unit) (l : list A) :
  (forall x, returning R (f x)) -> returning R (forEach f l).
Proof.
  intros Hf. induction l as [|x r IH]; simpl.
  - apply returning_ret.
  - apply returning_bind; [apply Hf | intros _; exact IH].
Qed.
End Returning.

Lemma keeps_refl (s : Media) : keeps s s.
Proof.
  repeat split. exists []. split; [now rewrite app_nil_r | reflexivity].
Qed.

Lemma keeps_trans (a b c : Media) : keeps a b -> keeps b c -> keeps a c.
Proof.
  intros (H1 & H2 & H3 & H4 & H5 & H6 & H7 & l & Hl & Hq)
         (G1 & G2 & G3 & G4 & G5 & G6 & G7 & l' & Hl' & Hq').
  repeat split; try congruence.
  exists (l ++ l'). split.
  - rewrite Hl', Hl, app_assoc. reflexivity.
  - rewrite filter_app, Hq, Hq'. reflexivity.
Qed.

Lemma keeps_effect (e : Effect) :
  is_track_op e = false -> returning keeps (effect e).
Proof.
  intros He. apply returning_step. intros s. simpl. repeat split.
  exists [e]. split; [reflexivity|]. simpl. rewrite He. reflexivity.
Qed.

Lemma keeps_set_userMedia (m : option MediaStream) :
  returning keeps (modify (set_userMedia m)).
Proof.
  apply returning_step. intros s. repeat split.
  exists []. split; [simpl; now rewrite app_nil_r | reflexivity].
Qed.

Ltac keeps_head :=
  match goal with
  | |- returning keeps (ret _) => apply (returning_ret keeps keeps_refl)
  | |- returning keeps (gets _) => apply (returning_gets keeps keeps_refl)
  | |- returning keeps (effect _) => apply keeps_effect; reflexivity
  | |- returning keeps (modify (set_userMedia _)) => apply keeps_set_userMedia
  | |- returning keeps (when _ _) =>
      apply (returning_when keeps keeps_refl)
  | |- returning keeps (forEach _ _) =>
      apply (returning_forEach keeps keeps_refl keeps_trans); intros ?
  | |- returning keeps (bind _ _) =>
      apply (returning_bind keeps keeps_trans); [|intros ?]
  | |- returning keeps (match ?x with Some _ => _ | None => _ end) =>
      destruct x
  end.

Lemma release_returns : returning keeps release.
Proof. unfold release. repeat keeps_head. Qed.

Lemma send_status_returns : returning keeps send_status.
Proof.
  unfold send_status, sendUserMediaMuteStatusByDataConnection.
  repeat keeps_head.
Qed.

(** With a local stream in place, the audio branch returns normally. *)
Lemma terminate_audio_returns (s : Media) (src : MediaStream) :
  video s = Some (Some src) ->
  exists s', terminate_tracks Audio s = Ok tt s' /\ keeps s s'.
Proof.
  intros Hv. unfold terminate_tracks. unfold bind at 1. unfold gets at 1.
  rewrite Hv.
  assert (H : returning keeps
            (mic <- gets micDisable ;;
             forEach (fun t => effect (TrackEnabled (label t) (negb mic)))
                     (filter (is_kind Audio) src))) by repeat keeps_head.
  destruct (H s) as ([] & s' & Hs' & Hk). exists s'. split; assumption.
Qed.


(** *** The renegotiation pass *)

Lemma renegotiate_kind (k : Kind) (c : Connection) :
  is_track_op (renegotiate k c) = true /\ op_kind (renegotiate k c) = Some k.
Proof.
  unfold renegotiate.
  destruct (findIndex (sends k) (senders (mediaConnection c)));
    split; reflexivity.
Qed.

Lemma track_ops_renegotiation (cam mic : bool) (c : Connection) :
  track_ops (renegotiation cam mic c)
    = [renegotiate Video c; renegotiate Audio c].
Proof.
  unfold track_ops, renegotiation. simpl.
  rewrite (proj1 (renegotiate_kind Video c)),
          (proj1 (renegotiate_kind Audio c)). reflexivity.
Qed.

Lemma track_ops_pass (cam mic : bool) (l : list Connection) :
  track_ops (flat_map (renegotiation cam mic) l)
    = flat_map (fun c => [renegotiate Video c; renegotiate Audio c]) l.
Proof.
  induction l as [|c r IH]; [reflexivity|].
  change (flat_map (renegotiation cam mic) (c :: r))
    with (renegotiation cam mic c ++ flat_map (renegotiation cam mic) r).
  unfold track_ops in *. rewrite filter_app, IH.
  fold (track_ops (renegotiation cam mic c)).
  rewrite track_ops_renegotiation. reflexivity.
Qed.

Lemma forEach_renegotiation (l : list Connection) :
  forall s : Media,
  exists s' : Media,
    forEach (fun c =>
               effect (renegotiate Video c) ;;
               effect (renegotiate Audio c) ;;
               cam <- gets camDisable ;;
               mic <- gets micDisable ;;
               effect (DataSend (d_handle (dataConnection c)) cam mic)) l s
      = Ok tt s' /\
    log s' = log s ++ flat_map (renegotiation (camDisable s) (micDisable s)) l /\
    camDisable s' = camDisable s /\ micDisable s' = micDisable s.
Proof.
  induction l as [|c r IH]; intros s.
  - exists s. simpl. rewrite app_nil_r. repeat split.
  - simpl forEach. unfold bind at 1.
    unfold bind, effect, modify, gets. simpl.
    match goal with |- exists s', forEach _ _ ?s1 = _ /\ _ =>
      destruct (IH s1) as (s' & Hs' & Hlog & Hcam & Hmic) end.
    exists s'. split; [exact Hs'|]. simpl in *.
    rewrite Hlog, Hcam, Hmic. repeat split.
    rewrite <- !app_assoc. reflexivity.
Qed.

Lemma reset_pass (media : MediaStream) (s : Media) :
  exists s' : Media,
    resetConnectionsVideoAudioMedia media s = Ok tt s' /\
    log s' = log s ++
      flat_map (renegotiation (camDisable s) (micDisable s)) (connections s).
Proof.
  unfold resetConnectionsVideoAudioMedia. unfold bind at 1. unfold gets at 1.
  cbn beta iota.
  destruct (forEach_renegotiation (connections s) s)
    as (s' & Hs' & Hlog & _).
  unfold bind at 1. rewrite Hs'. unfold modify. eexists.
  split; [reflexivity|]. simpl. exact Hlog.
Qed.

(** *** The two toggles *)

Lemma forEach_effect_log {A : Type} (f : A -> Effect) (l : list A) :
  forall s : Media,
  exists s' : Media,
    forEach (fun x => effect (f x)) l s = Ok tt s' /\
    log s' = log s ++ map f l /\
    camDisable s' = camDisable s /\ micDisable s' = micDisable s /\
    video s' = video s /\ connections s' = connections s.
Proof.
  induction l as [|x r IH]; intros s.
  - exists s. simpl. rewrite app_nil_r. repeat split.
  - simpl forEach. unfold bind at 1. unfold effect at 1, modify.
    match goal with |- exists s', forEach _ _ ?s1 = _ /\ _ =>
      destruct (IH s1) as (s' & Hs' & Hlog & H1 & H2 & H3 & H4) end.
    exists s'. split; [exact Hs'|]. simpl in *.
    rewrite Hlog, <- app_assoc. repeat split; assumption.
Qed.

(** Muting or unmuting the microphone while a local stream is in place:
    the audio tracks get their [enabled] flag, then every peer is told. *)
Lemma muteMicrophone_flips (status : option bool) (s : Media)
    (src : MediaStream) :
  video s = Some (Some src) ->
  let mic := match status with Some b => b | None => negb (micDisable s) end in
  exists s' : Media,
    muteMicrophone status s = Ok tt s' /\
    log s' = log s
      ++ map (fun t => TrackEnabled (label t) (negb mic))
             (filter (is_kind Audio) src)
      ++ map (fun c => DataSend (d_handle (dataConnection c))
                                (camDisable s) mic) (connections s).
Proof.
  intros Hv mic. unfold muteMicrophone.
  unfold bind at 1. unfold gets at 1. unfold bind at 1. unfold modify at 1.
  fold mic. set (s0 := set_micDisable mic s).
  unfold bind at 1. unfold terminate_tracks.
  unfold bind at 1. unfold gets at 1.
  change (video s0) with (video s). rewrite Hv.
  unfold bind at 1. unfold gets at 1.
  change (micDisable s0) with mic.
  destruct (forEach_effect_log (fun t => TrackEnabled (label t) (negb mic))
              (filter (is_kind Audio) src) s0)
    as (s1 & Hs1 & Hlog1 & Hcam1 & Hmic1 & _ & Hconn1).
  rewrite Hs1.
  unfold send_status, sendUserMediaMuteStatusByDataConnection.
  unfold bind, gets. rewrite Hcam1, Hmic1, Hconn1.
  change (camDisable s0) with (camDisable s).
  change (micDisable s0) with mic.
  change (connections s0) with (connections s).
  destruct (forEach_effect_log
              (fun c => DataSend (d_handle (dataConnection c))
                                 (camDisable s) mic) (connections s) s1)
    as (s2 & Hs2 & Hlog2 & _).
  exists s2. split; [exact Hs2|].
  rewrite Hlog2, Hlog1, <- app_assoc. reflexivity.
Qed.

(** [muteMicrophone] is the audio branch of
    [terminateConnectionsVideoAudioMedia] after the flag is set. *)
Lemma muteMicrophone_terminates_audio (status : option bool) (s : Media) :
  muteMicrophone status s
  = (mic <- gets micDisable ;;
     modify (set_micDisable
               (match status with Some b => b | None => negb mic end)) ;;
     terminateConnectionsVideoAudioMedia Audio) s.
Proof.
  unfold muteMicrophone, terminateConnectionsVideoAudioMedia, bind, gets,
    modify. simpl. destruct (camDisable s); reflexivity.
Qed.

(** *** Unmuting the camera *)

Lemma bind_Ok {S A B : Type} (m : M S A) (k : A -> M S B) (s s' : S) (a : A) :
  m s = Ok a s' -> bind m k s = k a s'.
Proof. intros H. unfold bind. rewrite H. reflexivity. Qed.

Lemma muteCamera_unmutes (s : Media) (d : Devices) :
  devices s = Some d ->
  exists s1 : Media,
    muteCamera (Some false) s = Ok tt s1 /\
    pending s1 = pending s ++ [AwaitingDevice (micDisable s)] /\
    video s1 = video s /\ camDisable s1 = false /\
    connections s1 = connections s /\
    exists l, log s1 = log s ++ l /\ track_ops l = [].
Proof.
  intros Hd. unfold muteCamera.
  rewrite (bind_Ok _ _ s s (camDisable s)) by reflexivity.
  set (s0 := set_camDisable false s).
  rewrite (bind_Ok _ _ s s0 tt) by reflexivity.
  unfold terminateConnectionsVideoAudioMedia.
  rewrite (bind_Ok _ _ s0 s0 false) by reflexivity.
  destruct (release_returns s0) as ([] & sa & Ha & Hka).
  destruct Hka as (Ka1 & Ka2 & Ka3 & Ka4 & Ka5 & Ka6 & Ka7 & la & Hla & Hqa).
  set (sb := state_of (effect (GetUserMedia true true) (set_devices (Some d) sa))).
  set (sc := set_pending (pending sb ++ [AwaitingDevice (micDisable s)]) sb).
  destruct (send_status_returns sc) as ([] & sd & Hsd & Hkd).
  destruct Hkd as (Kd1 & Kd2 & Kd3 & Kd4 & Kd5 & Kd6 & Kd7 & ld & Hld & Hqd).
  assert (Hbody : (release ;;
                   d0 <- gets devices ;;
                   mic <- gets micDisable ;;
                   started <- caught (grab_begin d0 false ;; ret []) ;;
                   modify (fun s2 =>
                     set_pending (pending s2 ++
                       [match started with
                        | Stream _ => AwaitingDevice mic
                        | Message _ => Settled started
                        end]) s2)) s0 = Ok tt sc).
  { rewrite (bind_Ok _ _ s0 sa tt Ha).
    rewrite (bind_Ok _ _ sa sa (Some d))
      by (unfold gets; rewrite Ka3; simpl; rewrite Hd; reflexivity).
    rewrite (bind_Ok _ _ sa sa (micDisable s))
      by (unfold gets; rewrite Ka2; reflexivity).
    rewrite (bind_Ok _ _ sa sb (Stream [])) by reflexivity.
    reflexivity. }
  cbv iota. erewrite (bind_Ok _ _ s0 sc tt Hbody).
  exists sd. split; [exact Hsd|].
  rewrite Kd6, Kd4, Kd1, Kd5. simpl. rewrite Ka6, Ka4, Ka5, Ka1. simpl.
  split; [reflexivity|]. split; [reflexivity|]. split; [reflexivity|].
  split; [reflexivity|].
  exists (la ++ [GetUserMedia true true] ++ ld). split.
  - rewrite Hld. simpl. rewrite Hla. simpl. rewrite <- !app_assoc. reflexivity.
  - unfold track_ops. rewrite !filter_app, Hqa, Hqd. reflexivity.
Qed.

Lemma grab_rest_granted (s : Media) (mic : bool) (src : option MediaStream)
    (tracks : MediaStream) (audio : Track) :
  video s = Some src -> camDisable s = false ->
  find (is_kind Audio) tracks = Some audio ->
  exists s' : Media,
    grab_rest mic (Granted tracks) s = Ok [canvas_track; audio] s' /\
    quiet_step s s'.
Proof.
  intros Hv Hc Ha. unfold grab_rest.
  set (sb := state_of (effect ClearInterval s)).
  rewrite (bind_Ok _ _ s sb tt) by reflexivity.
  rewrite (bind_Ok _ _ sb sb false) by (unfold gets; simpl; rewrite Hc; reflexivity).
  rewrite (bind_Ok _ _ sb sb (Some src)) by (unfold gets; simpl; rewrite Hv; reflexivity).
  set (sc := set_srcObject tracks sb).
  rewrite (bind_Ok _ _ sb sc tt) by reflexivity.
  rewrite Ha.
  set (sd := state_of (effect (Emit "onMediaStreamReady")
                         (set_userMedia (Some [canvas_track; audio]) sc))).
  rewrite (bind_Ok _ _ sc (set_userMedia (Some [canvas_track; audio]) sc) tt)
    by reflexivity.
  rewrite (bind_Ok _ _ _ sd tt) by reflexivity.
  assert (Hq : quiet_step s sd).
  { repeat split. exists [ClearInterval; Emit "onMediaStreamReady"].
    split; [simpl; rewrite <- app_assoc; reflexivity | reflexivity]. }
  destruct mic.
  - destruct (muteMicrophone_flips (Some true) sd tracks eq_refl)
      as (se & Hse & _).
    simpl when. rewrite (bind_Ok _ _ sd se tt Hse).
    exists se. split; [reflexivity|].
    eapply quiet_trans; [exact Hq|].
    pose proof (quiet_muteMicrophone (Some true) sd) as H.
    rewrite Hse in H. exact H.
  - simpl when. rewrite (bind_Ok _ _ sd sd tt) by reflexivity.
    exists sd. split; [reflexivity | exact Hq].
Qed.

Lemma grab_settles_granted (s1 : Media) (mic : bool)
    (src : option MediaStream) (tracks : MediaStream) (audio : Track) :
  pending s1 = [AwaitingDevice mic] -> video s1 = Some src ->
  camDisable s1 = false ->
  find (is_kind Audio) tracks = Some audio ->
  exists s2 : Media,
    grab_settles (Granted tracks) s1 = Ok tt s2 /\
    exists l, log s2 = log s1 ++ l /\
      track_ops l = flat_map (fun c => [renegotiate Video c;
                                        renegotiate Audio c])
                             (connections s1).
Proof.
  intros Hp Hv Hc Ha. unfold grab_settles.
  rewrite (bind_Ok _ _ s1 s1 [AwaitingDevice mic])
    by (unfold gets; rewrite Hp; reflexivity).
  set (sa := set_pending [] s1).
  rewrite (bind_Ok _ _ s1 sa tt) by reflexivity.
  destruct (grab_rest_granted sa mic src tracks audio Hv Hc Ha)
    as (se & Hse & Hqe).
  assert (Hcaught : caught (grab_rest mic (Granted tracks)) sa
                    = Ok (Stream [canvas_track; audio]) se).
  { unfold caught, try_catch. rewrite (bind_Ok _ _ sa se _ Hse). reflexivity. }
  rewrite (bind_Ok _ _ sa se _ Hcaught).
  unfold grab_then.
  assert (Hsv : exists sf, streamVideo_local (Stream [canvas_track; audio]) se
                           = Ok tt sf /\ quiet_step se sf).
  { pose proof (quiet_streamVideo_local (Stream [canvas_track; audio]) se) as H.
    unfold streamVideo_local in *. unfold bind at 1 in H. unfold bind at 1.
    unfold gets in *. destruct (local_element se).
    - eexists. split; [reflexivity | exact H].
    - eexists. split; [reflexivity | exact H]. }
  destruct Hsv as (sf & Hsf & Hqf).
  rewrite (bind_Ok _ _ se sf tt Hsf).
  destruct (reset_pass [canvas_track; audio] sf) as (sg & Hsg & Hlg).
  exists sg. split; [exact Hsg|].
  destruct (quiet_trans _ _ _ Hqe Hqf) as (Hconn & _ & _ & l & Hl & Hq).
  exists (l ++ flat_map (renegotiation (camDisable sf) (micDisable sf))
                        (connections sf)). split.
  - rewrite Hlg, Hl. simpl. rewrite app_assoc. reflexivity.
  - unfold track_ops in *. rewrite filter_app, Hq. simpl.
    fold (track_ops (flat_map (renegotiation (camDisable sf) (micDisable sf))
                              (connections sf))).
    rewrite track_ops_pass, Hconn. reflexivity.
Qed.

(** C7 (amended).  Unmuting the camera, once the device has granted the new
    stream, runs one renegotiation pass over the roster: for every
    connection exactly one replace-or-add of the video track and exactly
    one replace-or-add of the audio track (a replace where a sender of that
    kind exists, an add otherwise), followed by the mute status.  Muting or
    unmuting the microphone never replaces or adds a track; with a local
    stream in place it sets the [enabled] flag of the audio tracks and
    sends the mute status, and nothing else. *)
Theorem unmute_renegotiates_both_tracks :
  forall s : Media,
    (forall media : MediaStream,
       exists s' : Media,
         resetConnectionsVideoAudioMedia media s = Ok tt s' /\
         log s' = log s ++
           flat_map (renegotiation (camDisable s) (micDisable s))
                    (connections s)) /\
    (forall (c : Connection) (cam mic : bool),
       track_ops (renegotiation cam mic c)
         = [renegotiate Video c; renegotiate Audio c] /\
       op_kind (renegotiate Video c) = Some Video /\
       op_kind (renegotiate Audio c) = Some Audio) /\
    (forall (d : Devices) (src : option MediaStream) (tracks : MediaStream)
            (audio : Track),
       devices s = Some d -> video s = Some src -> pending s = [] ->
       find (is_kind Audio) tracks = Some audio ->
       exists (s1 s2 : Media) (l : list Effect),
         muteCamera (Some false) s = Ok tt s1 /\
         grab_settles (Granted tracks) s1 = Ok tt s2 /\
         log s2 = log s ++ l /\
         track_ops l = flat_map (fun c => [renegotiate Video c;
                                           renegotiate Audio c])
                                (connections s)) /\
    (forall status : option bool,
       exists l : list Effect,
         log (state_of (muteMicrophone status s)) = log s ++ l /\
         track_ops l = []) /\
    (forall (status : option bool) (src : MediaStream),
       video s = Some (Some src) ->
       let mic := match status with
                  | Some b => b
                  | None => negb (micDisable s)
                  end in
       exists s' : Media,
         muteMicrophone status s = Ok tt s' /\
         log s' = log s
           ++ map (fun t => TrackEnabled (label t) (negb mic))
                  (filter (is_kind Audio) src)
           ++ map (fun c => DataSend (d_handle (dataConnection c))
                                     (camDisable s) mic) (connections s)).
Proof.
  intros s. split; [intros media; apply reset_pass|].
  split.
  { intros c cam mic. split; [apply track_ops_renegotiation|].
    split; apply renegotiate_kind. }
  split.
  { intros d src tracks audio Hd Hv Hp Ha.
    destruct (muteCamera_unmutes s d Hd)
      as (s1 & H1 & Hp1 & Hv1 & Hc1 & Hconn1 & l1 & Hl1 & Hq1).
    rewrite Hp in Hp1. simpl in Hp1. rewrite Hv in Hv1.
    destruct (grab_settles_granted s1 (micDisable s) src tracks audio
                Hp1 Hv1 Hc1 Ha) as (s2 & H2 & l2 & Hl2 & Hq2).
    exists s1, s2, (l1 ++ l2). split; [exact H1|]. split; [exact H2|]. split.
    - rewrite Hl2, Hl1, app_assoc. reflexivity.
    - unfold track_ops in *. rewrite filter_app, Hq1, Hq2, Hconn1.
      reflexivity. }
  split.
  { intros status.
    destruct (quiet_muteMicrophone status s) as (_ & _ & _ & l & Hl & Hq).
    exists l. split; assumption. }
  intros status src Hv. apply muteMicrophone_flips. exact Hv.
Qed.

Lemma unmute_renegotiates_both_tracks_witness :
  let s := example_session in
  devices s = Some (mkDevices "cam0" "mic0") /\
  video s = Some (Some [mkTrack Video 7; mkTrack Audio 8]) /\
  pending s = [] /\
  exists (s1 s2 : Media) (l : list Effect),
    muteCamera (Some false) s = Ok tt s1 /\
    grab_settles example_answer s1 = Ok tt s2 /\
    log s2 = log s ++ l /\
    track_ops l = [ReplaceTrack 11 0 Video; ReplaceTrack 11 1 Audio].
Proof.
  intros s. repeat (split; [reflexivity|]).
  exact (proj1 (proj2 (proj2 (unmute_renegotiates_both_tracks s)))
           (mkDevices "cam0" "mic0")
           (Some [mkTrack Video 7; mkTrack Audio 8])
           [mkTrack Video 9; mkTrack Audio 10] (mkTrack Audio 10)
           eq_refl eq_refl eq_refl eq_refl).
Defined.

(** C7, as stated, fails in its first part: with one peer connected,
    unmuting the camera makes two replace calls on that one connection,
    one for the video sender and one for the audio sender. *)
Lemma unmute_replaces_two_tracks_per_connection :
  let s1 := state_of (muteCamera (Some false) example_session) in
  let s2 := state_of (grab_settles example_answer s1) in
  List.length (connections example_session) = 1 /\
  track_ops (log s2) = [ReplaceTrack 11 0 Video; ReplaceTrack 11 1 Audio].
Proof. split; vm_compute; reflexivity. Qed.

End MediaProofs.
(** ** The signaling channel: whole sessions *)
Module SessionProofs.
Import SocketIO SocketIOSession.

(** *** What [emit] passes on *)

Lemma same_shape_refl (s : SocketIO) : same_shape s s.
Proof. split; [reflexivity | tauto]. Qed.

Lemma same_shape_trans (a b c : SocketIO) :
  same_shape a b -> same_shape b c -> same_shape a c.
Proof. unfold same_shape. intros [A1 A2] [B1 B2]. split; [congruence | tauto]. Qed.

Lemma same_shape_fields (s s' : SocketIO) :
  initialized s' = initialized s -> socket s' = socket s -> same_shape s s'.
Proof. intros Hi Hs. split; [exact Hi | rewrite Hs; tauto]. Qed.

Lemma same_shape_map_socket (f : Socket -> Socket) (s : SocketIO) :
  same_shape s (map_socket f s).
Proof.
  unfold map_socket. destruct (socket s) eqn:Es; [|apply same_shape_refl].
  split; [reflexivity|]. simpl. rewrite Es. split; discriminate.
Qed.

Lemma same_shape_cancel (s : SocketIO) :
  same_shape s
    (match timeout (reconnectionConfig s) with
     | Some id =>
         let s' := clearTimeout id s in
         set_config (set_timeout None (reconnectionConfig s')) s'
     | None => s
     end).
Proof.
  destruct (timeout (reconnectionConfig s)); [|apply same_shape_refl].
  apply same_shape_fields; reflexivity.
Qed.

Lemma same_shape_attempt (s : SocketIO) :
  same_shape s (_attemptReconnection s).
Proof.
  unfold _attemptReconnection.
  destruct (isConnected s || negb (enabled (reconnectionConfig s)));
    [apply same_shape_refl|].
  cbn zeta.
  set (s1 := match timeout (reconnectionConfig s) with
             | Some id => _ | None => _ end).
  eapply same_shape_trans; [exact (same_shape_cancel s)|]. fold s1.
  destruct (attempts _ <=? currentAttempt _); [apply same_shape_refl|].
  apply same_shape_fields; reflexivity.
Qed.

Lemma same_shape_reset (s : SocketIO) :
  same_shape s (_resetReconnectionAttempts s).
Proof.
  unfold _resetReconnectionAttempts. cbn zeta.
  set (s2 := set_config _ (set_config _ s)).
  eapply same_shape_trans; [|exact (same_shape_cancel s2)].
  apply same_shape_fields; reflexivity.
Qed.

Lemma same_shape_handler (h : Handler) (arg : string) (s : SocketIO) :
  same_shape s (run_handler h arg s).
Proof.
  destruct h; simpl.
  - apply same_shape_reset.
  - destruct (_ && _); [apply same_shape_attempt | apply same_shape_refl].
  - destruct (enabled _); [apply same_shape_attempt | apply same_shape_refl].
  - unfold cleanup, on, off.
    repeat (eapply same_shape_trans; [|apply same_shape_map_socket]).
    apply same_shape_refl.
  - unfold reject, cleanup, off.
    eapply same_shape_trans; [apply same_shape_map_socket|].
    eapply same_shape_trans; [apply same_shape_map_socket|].
    apply same_shape_fields; reflexivity.
  - unfold resolve. apply same_shape_fields; reflexivity.
Qed.

Lemma same_shape_call_listeners (snapshot : list Handler) (arg : string) :
  forall s : SocketIO, same_shape s (call_listeners snapshot arg s).
Proof.
  induction snapshot as [|h r IH]; intros s; simpl; [apply same_shape_refl|].
  eapply same_shape_trans; [|apply IH].
  eapply same_shape_trans; [|apply same_shape_handler].
  destruct (is_once h); [apply same_shape_map_socket | apply same_shape_refl].
Qed.

Lemma same_shape_deliver (e : Event) (s : SocketIO) :
  same_shape s (deliver e s).
Proof.
  assert (Hemit : forall ev arg s0, same_shape s0 (emit_event ev arg s0)).
  { intros ev arg s0. unfold emit_event.
    destruct (socket s0);
      [apply same_shape_call_listeners | apply same_shape_refl]. }
  destruct e; unfold deliver; try apply Hemit;
    try (eapply same_shape_trans; [apply same_shape_map_socket | apply Hemit]).
  unfold fire. destruct (existsb _ _); [|apply same_shape_refl].
  unfold timer_callback. simpl.
  destruct (socket s) eqn:Es; [destruct (negb _)|];
    apply same_shape_fields; simpl; congruence.
Qed.

Lemma opened_same_shape (s s' : SocketIO) :
  same_shape s s' -> opened s -> opened s'.
Proof.
  unfold opened. intros [Hi Hs] H Hi'. rewrite Hi in Hi'.
  intros Hn. apply (H Hi'). apply Hs. exact Hn.
Qed.

Lemma disconnect_uninitialized (s : SocketIO) :
  initialized (disconnect s) = false.
Proof.
  unfold disconnect. cbn zeta.
  repeat match goal with
         | |- context [match ?x with Some _ => _ | None => _ end] =>
             destruct x
         end; reflexivity.
Qed.

Lemma opened_call (c : Call) (s : SocketIO) : opened s -> opened (call c s).
Proof.
  intros H. destruct c as [|status token| |e]; unfold call.
  - intros _. discriminate.
  - unfold setConnection.
    destruct (negb (initialized s)) eqn:Ei; [exact H|].
    destruct status; cbn [negb].
    + apply negb_false_iff in Ei. cbn zeta. unfold new_promise.
      cbn beta iota zeta.
      assert (Hr : opened (_resetReconnectionAttempts s))
        by (apply (opened_same_shape s); [apply same_shape_reset | exact H]).
      set (r := _resetReconnectionAttempts s) in *.
      destruct (socket r) eqn:Er.
      * intros _. unfold map_socket. simpl. rewrite Er. simpl. discriminate.
      * exfalso. apply Hr; [|exact Er].
        destruct (same_shape_reset s) as [Hi _]. fold r in Hi. congruence.
    + intros Hi. unfold new_promise, set_promises in Hi.
      cbn [initialized] in Hi. rewrite disconnect_uninitialized in Hi.
      discriminate.
  - intros Hi. rewrite disconnect_uninitialized in Hi. discriminate.
  - apply (opened_same_shape s); [apply same_shape_deliver | exact H].
Qed.

Lemma opened_exec (calls : list Call) :
  forall s : SocketIO, opened s -> opened (exec calls s).
Proof.
  induction calls as [|c r IH]; intros s H; [exact H|].
  change (exec (c :: r) s) with (exec r (call c s)).
  apply IH, opened_call, H.
Qed.

(** X1. After any history of calls and socket events on a new instance,
    [emit(eventName, ...args)] throws the not-initialized error, sending
    nothing, exactly when the instance is not initialized; otherwise it
    returns and hands the socket the event name with exactly the
    arguments it was given, in their order, whether or not the last one
    is a callback. *)
Theorem emit_passes_arguments_unchanged :
  forall (calls : list Call) (eventName : string) (args : list Arg)
         (sent0 : list (string * list Arg)) (listening0 : list (string * nat)),
    let x := mkSession (exec calls constructor) sent0 listening0 in
    emit eventName args x
      = if initialized (io x)
        then (Returns tt (io x),
              mkSession (io x) (sent0 ++ [(eventName, args)]) listening0)
        else (Throws "Socket not initialized. Call initial() first." (io x),
              x).
Proof.
  intros calls eventName args sent0 listening0 x.
  assert (Ho : opened (io x)).
  { apply opened_exec. intros Hi. discriminate. }
  unfold emit. destruct (initialized (io x)) eqn:Hi; simpl; [|reflexivity].
  destruct (socket (io x)) eqn:Es; [|exfalso; exact (Ho Hi Es)].
  simpl in Es. rewrite Es.
  destruct (rev args) as [|lastArg before] eqn:E; [reflexivity|].
  destruct (is_function lastArg); [|reflexivity].
  assert (H : args = rev before ++ [lastArg]).
  { rewrite <- (rev_involutive args), E. reflexivity. }
  rewrite <- H. reflexivity.
Qed.

(** *** One pending timer *)

Lemma single_timer_same (s s' : SocketIO) :
  timers s' = timers s -> reconnectionConfig s' = reconnectionConfig s ->
  single_timer s -> single_timer s'.
Proof. unfold single_timer. intros -> ->. trivial. Qed.

Lemma single_timer_map_socket (f : Socket -> Socket) (s : SocketIO) :
  single_timer s -> single_timer (map_socket f s).
Proof.
  apply single_timer_same; unfold map_socket; destruct (socket s); reflexivity.
Qed.

(** Cancelling the handle of the configuration leaves no timer behind. *)
Lemma cancel_clears (s : SocketIO) (id : TimerId) :
  single_timer s -> timeout (reconnectionConfig s) = Some id ->
  timers (clearTimeout id s) = [].
Proof.
  unfold single_timer. intros H Ht. simpl.
  destruct (timers s) as [|[i d] [|u r]]; simpl in *; [reflexivity| |contradiction].
  rewrite Ht in H. injection H as ->. rewrite Nat.eqb_refl. reflexivity.
Qed.

Lemma no_handle_no_timer (s : SocketIO) :
  single_timer s -> timeout (reconnectionConfig s) = None -> timers s = [].
Proof.
  unfold single_timer. intros H Ht.
  destruct (timers s) as [|t [|u r]]; [reflexivity | congruence | contradiction].
Qed.

Lemma single_timer_attempt (s : SocketIO) :
  single_timer s -> single_timer (_attemptReconnection s).
Proof.
  intros H. unfold _attemptReconnection.
  destruct (isConnected s || negb (enabled (reconnectionConfig s)));
    [exact H|].
  destruct (timeout (reconnectionConfig s)) as [id|] eqn:Ht.
  - pose proof (cancel_clears s id H Ht) as Hc. simpl in Hc.
    destruct (attempts _ <=? currentAttempt _); unfold single_timer; simpl;
      rewrite Hc; simpl; trivial.
  - pose proof (no_handle_no_timer s H Ht) as Hc.
    destruct (attempts _ <=? currentAttempt _); unfold single_timer; simpl;
      rewrite Hc; simpl; trivial.
Qed.

Lemma single_timer_reset (s : SocketIO) :
  single_timer s -> single_timer (_resetReconnectionAttempts s).
Proof.
  intros H. unfold _resetReconnectionAttempts. simpl.
  destruct (timeout (reconnectionConfig s)) as [id|] eqn:Ht.
  - pose proof (cancel_clears s id H Ht) as Hc. simpl in Hc.
    unfold single_timer. simpl. rewrite Hc. trivial.
  - pose proof (no_handle_no_timer s H Ht) as Hc.
    unfold single_timer. simpl. rewrite Hc. trivial.
Qed.

Lemma single_timer_handler (h : Handler) (arg : string) (s : SocketIO) :
  single_timer s -> single_timer (run_handler h arg s).
Proof.
  intros H. destruct h; simpl.
  - apply single_timer_reset; exact H.
  - destruct (_ && _); [apply single_timer_attempt|]; exact H.
  - destruct (enabled _); [apply single_timer_attempt|]; exact H.
  - unfold cleanup, on, off. now repeat apply single_timer_map_socket.
  - unfold cleanup, reject, off.
    apply (single_timer_same
             (map_socket
                (fun k => set_listeners (remove_first (HError p) (listeners k)) k)
                (map_socket
                   (fun k => set_listeners
                               (remove_first (HConnect p) (listeners k)) k) s)));
      [reflexivity | reflexivity |].
    now repeat apply single_timer_map_socket.
  - exact H.
Qed.

Lemma single_timer_call_listeners (snapshot : list Handler) (arg : string) :
  forall s, single_timer s -> single_timer (call_listeners snapshot arg s).
Proof.
  induction snapshot as [|h r IH]; intros s H; simpl; [exact H|].
  apply IH. apply single_timer_handler.
  destruct (is_once h); [apply single_timer_map_socket|]; exact H.
Qed.

Lemma single_timer_deliver (e : Event) (s : SocketIO) :
  single_timer s -> single_timer (deliver e s).
Proof.
  intros H.
  assert (Hemit : forall ev arg s0, single_timer s0 ->
                    single_timer (emit_event ev arg s0)).
  { intros ev arg s0 H0. unfold emit_event.
    destruct (socket s0); [apply single_timer_call_listeners|]; exact H0. }
  destruct e; simpl; try (apply Hemit; try apply single_timer_map_socket; exact H).
  unfold fire. destruct (existsb _ _) eqn:E; [|exact H].
  unfold timer_callback, single_timer in *. simpl.
  assert (Hf : match filter (fun t => negb (fst t =? id)) (timers s) with
               | [] => True
               | [t] => timeout (reconnectionConfig s) = Some (fst t)
               | _ :: _ :: _ => False
               end).
  { destruct (timers s) as [|t [|u r]]; simpl in *; [trivial| |contradiction].
    destruct (negb _); simpl; trivial. }
  destruct (socket s) as [k|]; [destruct (negb (connected k))|]; simpl; exact Hf.
Qed.

Lemma single_timer_disconnect (s : SocketIO) :
  single_timer s -> single_timer (disconnect s).
Proof.
  intros H.
  assert (Hd : timers (disconnect s) = []).
  { unfold disconnect. simpl.
    destruct (timeout (reconnectionConfig s)) as [id|] eqn:Ht.
    - pose proof (cancel_clears s id H Ht) as Hc. simpl in Hc.
      destruct (socket s) eqn:Es; simpl; rewrite ?Es; simpl; exact Hc.
    - pose proof (no_handle_no_timer s H Ht) as Hc.
      destruct (socket s) eqn:Es; simpl; rewrite ?Es; simpl; exact Hc. }
  unfold single_timer. rewrite Hd. trivial.
Qed.

Lemma single_timer_call (c : Call) (s : SocketIO) :
  single_timer s -> single_timer (call c s).
Proof.
  intros H. destruct c as [|status token| |e]; simpl.
  - unfold initialize. exact H.
  - unfold setConnection. destruct (negb (initialized s)); [exact H|].
    destruct (negb status).
    + pose proof (single_timer_disconnect s H) as Hd.
      unfold new_promise. exact Hd.
    + pose proof (single_timer_reset s H) as Hr.
      unfold new_promise.
      change (socket (set_promises ?a ?b)) with (socket b).
      destruct (socket (_resetReconnectionAttempts s)) eqn:Es; simpl.
      * unfold on, map_socket. simpl. rewrite Es. simpl. exact Hr.
      * exact Hr.
  - apply single_timer_disconnect; exact H.
  - apply single_timer_deliver; exact H.
Qed.

(** X2. After any history of [initialize], [setConnection], [disconnect]
    calls and socket events or timer expiries on a new instance, at most
    one retry timer is pending, and a pending timer is the one whose
    handle the reconnection configuration holds. *)
Theorem at_most_one_pending_retry_timer :
  forall calls : list Call,
    let s := exec calls constructor in
    List.length (timers s) <= 1 /\
    (forall t, In t (timers s) ->
               timeout (reconnectionConfig s) = Some (fst t)).
Proof.
  intros calls.
  assert (H : single_timer (exec calls constructor)).
  { unfold exec. generalize constructor (I : single_timer constructor).
    induction calls as [|c r IH]; intros s Hs; simpl; [exact Hs|].
    apply IH. apply single_timer_call. exact Hs. }
  simpl. unfold single_timer in H.
  destruct (timers (exec calls constructor)) as [|t [|u r]]; simpl.
  - split; [lia | intros t []].
  - split; [lia | intros t' [<-|[]]; exact H].
  - contradiction.
Qed.


Lemma at_most_one_pending_retry_timer_witness :
  let s := exec [CInitialize; CSetConnection true (Some "token");
                 CEvent (EvConnectError "refused");
                 CEvent (EvConnectError "refused")] constructor in
  List.length (timers s) = 1 /\
  forall t, In t (timers s) -> timeout (reconnectionConfig s) = Some (fst t).
Proof.
  intros s. split; [reflexivity|].
  exact (proj2 (at_most_one_pending_retry_timer
                  [CInitialize; CSetConnection true (Some "token");
                   CEvent (EvConnectError "refused");
                   CEvent (EvConnectError "refused")])).
Defined.



(** *** After a voluntary disconnect *)

Lemma disconnect_leaves_no_socket (s : SocketIO) :
  socket (disconnect s) = None /\ initialized (disconnect s) = false /\
  enabled (reconnectionConfig (disconnect s)) = false.
Proof.
  unfold disconnect. cbn zeta.
  set (s1 := set_config (set_enabled false (reconnectionConfig s)) s).
  set (s2 := match timeout (reconnectionConfig s1) with
             | Some id => _ | None => _ end).
  assert (He : enabled (reconnectionConfig s2) = false).
  { subst s2. destruct (timeout (reconnectionConfig s1)); reflexivity. }
  destruct (socket s2) eqn:Es; simpl; repeat split; assumption.
Qed.

(** A reconnection timer that expires on an instance without a socket
    finds [this.socket] null and does nothing. *)
Lemma fire_without_socket (id : TimerId) (s : SocketIO) :
  socket s = None ->
  socket (fire id s) = None /\ log (fire id s) = log s /\
  initialized (fire id s) = initialized s /\
  reconnectionConfig (fire id s) = reconnectionConfig s.
Proof.
  intros Hs. unfold fire.
  destruct (existsb _ _); [|repeat split; assumption].
  unfold timer_callback. simpl. rewrite Hs. simpl. repeat split.
Qed.

Lemma timers_without_socket (ids : list TimerId) :
  forall d : SocketIO,
    socket d = None ->
    socket (run (map EvTimer ids) d) = None /\
    log (run (map EvTimer ids) d) = log d /\
    initialized (run (map EvTimer ids) d) = initialized d /\
    reconnectionConfig (run (map EvTimer ids) d) = reconnectionConfig d.
Proof.
  induction ids as [|id r IH]; intros d Hs; [repeat split; assumption|].
  destruct (fire_without_socket id d Hs) as (Hs' & Hl' & Hi' & Hc').
  destruct (IH (fire id d) Hs') as (A & B & C & D).
  change (run (map EvTimer (id :: r)) d)
    with (run (map EvTimer r) (fire id d)).
  rewrite A, B, C, D. repeat split; assumption.
Qed.

(** X3. [disconnect()], from any state, leaves the instance without a
    socket, uninitialized, with reconnection disabled and no retry timer
    handle, and a second [disconnect()] changes nothing.  Reconnection
    timers that expire afterwards open no socket and perform no other
    effect, and in the state they leave the instance reports not connected
    and no id, reconnection stays disabled, and [setConnection], with
    either status, throws: it takes [initialize] to use the instance
    again. *)
Theorem voluntary_disconnect_is_final :
  forall (s : SocketIO) (ids : list TimerId),
    let d := disconnect s in
    let s' := run (map EvTimer ids) d in
    timeout (reconnectionConfig d) = None /\
    disconnect d = d /\
    socket s' = None /\ initialized s' = false /\
    log s' = log d /\
    isConnected s' = false /\
    (forall id_of, getId id_of s' = None) /\
    enabled (reconnectionConfig s') = false /\
    forall status token, exists m, setConnection status token s' = Throws m s'.
Proof.
  intros s ids.
  destruct (disconnect_leaves_no_socket s) as (Hs & Hi & He).
  destruct (timers_without_socket ids (disconnect s) Hs) as (A & B & C & D).
  cbn zeta.
  split.
  { destruct s as [sk i [en at_ dl md bf ca [id|]] ts nt ps lg];
      destruct sk; reflexivity. }
  split.
  { destruct s as [sk i [en at_ dl md bf ca [id|]] ts nt ps lg];
      destruct sk; reflexivity. }
  split; [exact A|]. split; [rewrite C; exact Hi|].
  split; [exact B|]. split; [unfold isConnected; now rewrite A|].
  split; [intros id_of; unfold getId, isConnected; now rewrite A|].
  split; [rewrite D; exact He|].
  intros status token. unfold setConnection. rewrite C, Hi. simpl.
  eexists. reflexivity.
Qed.

(** *** A successful connect *)

Lemma rearmed_map_socket (f : Socket -> Socket) (s : SocketIO) :
  rearmed s -> rearmed (map_socket f s).
Proof.
  unfold map_socket, rearmed. destruct (socket s); intros H; exact H.
Qed.

Lemma rearmed_handler (h : Handler) (arg : string) (s : SocketIO) :
  event_of h = "connect" ->
  (h = HResetAttempts \/ rearmed s) -> rearmed (run_handler h arg s).
Proof.
  intros Hev Hor. destruct h; simpl in Hev; try discriminate.
  - simpl. unfold _resetReconnectionAttempts, rearmed. cbn zeta.
    set (s2 := set_config _ (set_config _ s)).
    assert (H2 : enabled (reconnectionConfig s2) = true /\
                 currentAttempt (reconnectionConfig s2) = 0)
      by (split; reflexivity).
    destruct H2 as [He Hc].
    destruct (timeout (reconnectionConfig s2)) eqn:Ht; simpl;
      repeat split; assumption.
  - destruct Hor as [Hh|Hr]; [discriminate|].
    simpl. unfold cleanup, on, off.
    repeat apply rearmed_map_socket. exact Hr.
Qed.

Lemma rearmed_once (h : Handler) (s : SocketIO) :
  rearmed s -> rearmed (if is_once h then off h s else s).
Proof.
  intros H. destruct (is_once h); [|exact H].
  unfold off. apply rearmed_map_socket. exact H.
Qed.

Lemma rearmed_call_listeners (snapshot : list Handler) (arg : string) :
  forall s : SocketIO,
    (forall h, In h snapshot -> event_of h = "connect") ->
    (In HResetAttempts snapshot \/ rearmed s) ->
    rearmed (call_listeners snapshot arg s).
Proof.
  induction snapshot as [|h r IH]; intros s Hev Hor; simpl.
  - destruct Hor as [[]|H]; exact H.
  - apply IH; [intros x Hx; apply Hev; now right|].
    destruct Hor as [[Hh|Hin]|Hr].
    + right. subst h. apply rearmed_handler; [reflexivity | now left].
    + now left.
    + right. apply rearmed_handler; [apply Hev; now left|].
      right. apply rearmed_once. exact Hr.
Qed.

(** X4. On an instance whose socket carries the connect listener that
    [initialize] registers, a connect event leaves reconnection enabled
    with the attempt count at zero and no timer handle; if at most one
    retry timer was pending before, none is pending after. *)
Theorem connect_rearms_reconnection :
  forall (s : SocketIO) (k : Socket),
    socket s = Some k -> In HResetAttempts (listeners k) ->
    let s' := deliver EvConnect s in
    enabled (reconnectionConfig s') = true /\
    currentAttempt (reconnectionConfig s') = 0 /\
    timeout (reconnectionConfig s') = None /\
    (SocketIOSession.single_timer s -> timers s' = []).
Proof.
  intros s k Hs Hin.
  assert (Hr : rearmed (deliver EvConnect s)).
  { unfold deliver, emit_event, map_socket. rewrite Hs. simpl.
    apply rearmed_call_listeners.
    - intros h Hh. apply filter_In in Hh. destruct Hh as [_ Hh].
      apply String.eqb_eq in Hh. exact Hh.
    - left. apply filter_In. split; [exact Hin | reflexivity]. }
  destruct Hr as (He & Hc & Ht). simpl.
  repeat split; try assumption.
  intros Hst.
  apply no_handle_no_timer; [|exact Ht].
  exact (single_timer_deliver EvConnect s Hst).
Qed.

Lemma connect_rearms_reconnection_witness :
  let s := run (failures 3) scenario_start in
  currentAttempt (reconnectionConfig s) = 3 /\
  currentAttempt (reconnectionConfig (deliver EvConnect s)) = 0 /\
  timers (deliver EvConnect s) = [].
Proof.
  intros s. split; [reflexivity|].
  destruct (socket s) as [k|] eqn:Es; [|discriminate].
  assert (Hin : In HResetAttempts (listeners k)).
  { injection Es as <-. simpl. tauto. }
  destruct (connect_rearms_reconnection s k Es Hin) as (_ & Hc & _ & Ht).
  split; [exact Hc|]. apply Ht. vm_compute. reflexivity.
Defined.

(** *** Counting the retries *)

Lemma retries_app (l : list Effect) (e : Effect) :
  retries (l ++ [e]) = retries l + (if is_SetTimeout e then 1 else 0).
Proof.
  unfold retries. rewrite filter_app, length_app. simpl.
  destruct (is_SetTimeout e); reflexivity.
Qed.

Lemma counted_refl (s : SocketIO) : counted s s.
Proof. unfold counted. repeat split; lia. Qed.

Lemma counted_trans (a b c : SocketIO) :
  counted a b -> counted b c -> counted a c.
Proof.
  unfold counted. intros (A1 & A2 & A3 & A4) (B1 & B2 & B3 & B4).
  rewrite A1 in B3. repeat split; try lia.
Qed.

Lemma counted_same (s s' : SocketIO) :
  attempts (reconnectionConfig s') = attempts (reconnectionConfig s) ->
  currentAttempt (reconnectionConfig s')
    = currentAttempt (reconnectionConfig s) ->
  retries (log s') = retries (log s) -> counted s s'.
Proof. unfold counted. intros -> -> ->. repeat split; lia. Qed.

Lemma counted_map_socket (f : Socket -> Socket) (s : SocketIO) :
  counted s (map_socket f s).
Proof.
  unfold map_socket. destruct (socket s); [|apply counted_refl].
  apply counted_same; reflexivity.
Qed.

Lemma counted_cancel (s : SocketIO) :
  counted s
    (match timeout (reconnectionConfig s) with
     | Some id =>
         let s' := clearTimeout id s in
         set_config (set_timeout None (reconnectionConfig s')) s'
     | None => s
     end).
Proof.
  destruct (timeout (reconnectionConfig s)); [|apply counted_refl].
  apply counted_same; try reflexivity.
  cbn zeta. unfold clearTimeout. simpl. rewrite retries_app. simpl. lia.
Qed.

Lemma counted_attempt (s : SocketIO) : counted s (_attemptReconnection s).
Proof.
  unfold _attemptReconnection.
  destruct (isConnected s || negb (enabled (reconnectionConfig s)));
    [apply counted_refl|].
  cbn zeta.
  set (s1 := match timeout (reconnectionConfig s) with
             | Some id => _ | None => _ end).
  assert (H1 : counted s s1) by apply counted_cancel.
  eapply counted_trans; [exact H1|].
  destruct (attempts (reconnectionConfig s1)
            <=? currentAttempt (reconnectionConfig s1)) eqn:E;
    [apply counted_refl|].
  apply Nat.leb_gt in E.
  unfold counted, setTimeout. simpl. rewrite retries_app. simpl.
  repeat split; lia.
Qed.

Lemma counted_settle (p : PromiseId) (v : PromiseState) (s : SocketIO) :
  counted s (set_promises (settle_at p v (promises s)) s).
Proof. apply counted_same; reflexivity. Qed.

Lemma counted_handler (h : Handler) (arg : string) (s : SocketIO) :
  event_of h <> "connect" -> counted s (run_handler h arg s).
Proof.
  intros Hev. destruct h; simpl.
  - exfalso. apply Hev. reflexivity.
  - destruct (negb _ && _); [apply counted_attempt | apply counted_refl].
  - destruct (enabled _); [apply counted_attempt | apply counted_refl].
  - exfalso. apply Hev. reflexivity.
  - unfold reject, cleanup, off.
    eapply counted_trans; [apply counted_map_socket|].
    eapply counted_trans; [apply counted_map_socket|].
    apply counted_same; reflexivity.
  - unfold resolve. apply counted_same; reflexivity.
Qed.

Lemma counted_call_listeners (snapshot : list Handler) (arg : string) :
  forall s : SocketIO,
    (forall h, In h snapshot -> event_of h <> "connect") ->
    counted s (call_listeners snapshot arg s).
Proof.
  induction snapshot as [|h r IH]; intros s Hev; simpl;
    [apply counted_refl|].
  eapply counted_trans; [|apply IH; intros x Hx; apply Hev; now right].
  eapply counted_trans;
    [|apply counted_handler; apply Hev; now left].
  destruct (is_once h); [apply counted_map_socket | apply counted_refl].
Qed.

Lemma counted_emit_event (ev arg : string) (s : SocketIO) :
  ev <> "connect" -> counted s (emit_event ev arg s).
Proof.
  intros Hev. unfold emit_event. destruct (socket s); [|apply counted_refl].
  apply counted_call_listeners. intros h Hh.
  apply filter_In in Hh. destruct Hh as [_ Hh].
  apply String.eqb_eq in Hh. congruence.
Qed.

Lemma counted_fire (id : TimerId) (s : SocketIO) : counted s (fire id s).
Proof.
  unfold fire. destruct (existsb _ _); [|apply counted_refl].
  unfold timer_callback. simpl.
  destruct (socket s); [|apply counted_same; reflexivity].
  destruct (negb _); apply counted_same; try reflexivity.
  simpl. rewrite retries_app. simpl. lia.
Qed.

Lemma counted_deliver (e : Event) (s : SocketIO) :
  is_EvConnect e = false -> counted s (deliver e s).
Proof.
  intros He. destruct e; try discriminate; unfold deliver.
  - apply counted_emit_event. discriminate.
  - eapply counted_trans; [apply counted_map_socket|].
    apply counted_emit_event. discriminate.
  - apply counted_emit_event. discriminate.
  - apply counted_fire.
Qed.

Lemma counted_run (evs : list Event) :
  forall s : SocketIO,
    forallb (fun e => negb (is_EvConnect e)) evs = true ->
    counted s (run evs s).
Proof.
  induction evs as [|e r IH]; intros s H; [apply counted_refl|].
  simpl in H. apply andb_true_iff in H. destruct H as [He Hr].
  apply negb_true_iff in He.
  change (run (e :: r) s) with (run r (deliver e s)).
  eapply counted_trans; [apply counted_deliver; exact He | apply IH, Hr].
Qed.

(** X5. Over any sequence of socket events and timer expiries that
    contains no connect event, from any state, the number of retry timers
    set equals the growth of the attempt count and is at most the
    configured number of attempts minus the attempt count at the
    start. *)
Theorem retries_between_connects_are_bounded :
  forall (evs : list Event) (s : SocketIO),
    forallb (fun e => negb (is_EvConnect e)) evs = true ->
    let s' := run evs s in
    let c := reconnectionConfig s in
    retries (log s') - retries (log s)
      = currentAttempt (reconnectionConfig s') - currentAttempt c /\
    retries (log s') - retries (log s) <= attempts c - currentAttempt c.
Proof.
  intros evs s H.
  destruct (counted_run evs s H) as (A & B & C & D).
  simpl. split; lia.
Qed.

Lemma retries_between_connects_are_bounded_witness :
  let s := run (failures 9) scenario_start in
  retries (log s) - retries (log scenario_start) <= 5.
Proof.
  intros s.
  exact (proj2 (retries_between_connects_are_bounded
                  (failures 9) scenario_start eq_refl)).
Defined.

End SessionProofs.
(** ** The roster over whole histories *)
Module RosterProofs.
Import People Roster.
Local Open Scope js_scope.

Lemma logged_nil (s : People) : logged [] s = s.
Proof. destruct s. unfold logged. simpl. now rewrite app_nil_r. Qed.

Lemma logged_logged (a b : list Effect) (s : People) :
  logged b (logged a s) = logged (a ++ b) s.
Proof. unfold logged. simpl. now rewrite app_assoc. Qed.

(** *** Teardown *)

Lemma close_step (c : Connection) (s : People) :
  (closeMedia (mediaConnection c) ;; closeData (dataConnection c)) s
  = if close_fails s (m_handle (mediaConnection c)) then
      Throw (PlainError "close failed")
            (logged [MediaClose (m_handle (mediaConnection c))] s)
    else if close_fails s (d_handle (dataConnection c)) then
      Throw (PlainError "close failed")
            (logged [MediaClose (m_handle (mediaConnection c));
                     DataClose (d_handle (dataConnection c))] s)
    else
      Ok tt (logged [MediaClose (m_handle (mediaConnection c));
                     DataClose (d_handle (dataConnection c))] s).
Proof.
  unfold closeMedia, closeData, bind, gets, effect, modify, logged. simpl.
  destruct (close_fails s (m_handle (mediaConnection c))); simpl;
    [reflexivity|].
  destruct (close_fails s (d_handle (dataConnection c))); simpl;
    unfold throw, ret; now rewrite <- app_assoc.
Qed.

Lemma forEach_close (l : list Connection) :
  forall s : People,
    let step := fun connection : Connection =>
                  closeMedia (mediaConnection connection) ;;
                  closeData (dataConnection connection) in
    if existsb (fun c => close_fails s (m_handle (mediaConnection c))
                         || close_fails s (d_handle (dataConnection c))) l
    then exists e pre post,
           closes l = pre ++ post /\
           forEach step l s = Throw e (logged pre s)
    else forEach step l s = Ok tt (logged (closes l) s).
Proof.
  induction l as [|c r IH]; intros s step.
  - simpl. unfold ret. now rewrite logged_nil.
  - cbn [existsb forEach]. unfold bind.
    replace (step c s) with
      ((closeMedia (mediaConnection c) ;; closeData (dataConnection c)) s)
      by reflexivity.
    rewrite close_step.
    destruct (close_fails s (m_handle (mediaConnection c))) eqn:Em;
      cbn [orb].
    + eexists. exists [MediaClose (m_handle (mediaConnection c))]. eexists.
      split; reflexivity.
    + destruct (close_fails s (d_handle (dataConnection c))) eqn:Ed;
        cbn [orb].
      * eexists.
        exists [MediaClose (m_handle (mediaConnection c));
                DataClose (d_handle (dataConnection c))], (closes r).
        split; reflexivity.
      * specialize (IH (logged [MediaClose (m_handle (mediaConnection c));
                                DataClose (d_handle (dataConnection c))] s)).
        cbn zeta in IH. fold step in IH.
        change (close_fails (logged _ s)) with (close_fails s) in IH.
        destruct (existsb _ r).
        -- destruct IH as (e & pre & post & Hc & Hf).
           exists e, ([MediaClose (m_handle (mediaConnection c));
                       DataClose (d_handle (dataConnection c))] ++ pre), post.
           split; [simpl; now rewrite Hc|].
           rewrite Hf, logged_logged. reflexivity.
        -- rewrite IH, logged_logged. reflexivity.
Qed.

Lemma closeAll_unfold (s : People) :
  closeAll s
  = if stop_share_fails s then
      Ok tt (logged [StopShareScreen;
                     ConsoleError "Error close connections:"] s)
    else
      match forEach (fun connection : Connection =>
                       closeMedia (mediaConnection connection) ;;
                       closeData (dataConnection connection))
                    (connections s) (logged [StopShareScreen] s) with
      | Ok _ s1 => Ok tt (set_waitingList [] (set_connections [] s1))
      | Throw _ s1 =>
          Ok tt (logged [ConsoleError "Error close connections:"] s1)
      end.
Proof.
  unfold closeAll, try_catch.
  unfold bind at 1. unfold effect at 1, modify at 1.
  unfold bind at 1. unfold gets at 1.
  change (mkPeople (connections s) (waitingList s) (information s) (debug s)
            (close_fails s) (stop_share_fails s) (log s ++ [StopShareScreen]))
    with (logged [StopShareScreen] s).
  change (stop_share_fails (logged [StopShareScreen] s))
    with (stop_share_fails s).
  destruct (stop_share_fails s).
  - unfold bind at 1. unfold throw at 1. unfold effect, modify, logged.
    simpl. now rewrite <- app_assoc.
  - unfold bind at 1. unfold ret at 1. unfold bind at 1. unfold gets at 1.
    change (connections (logged [StopShareScreen] s)) with (connections s).
    unfold bind at 1.
    destruct (forEach _ (connections s) (logged [StopShareScreen] s));
      reflexivity.
Qed.

Lemma closeAll_connections (s : People) :
  exists s' : People,
    closeAll s = Ok tt s' /\
    (connections s' = connections s \/ connections s' = []).
Proof.
  rewrite closeAll_unfold.
  destruct (stop_share_fails s).
  - eexists. split; [reflexivity|]. now left.
  - pose proof (forEach_close (connections s) (logged [StopShareScreen] s))
      as H.
    cbn zeta in H.
    destruct (existsb _ (connections s)).
    + destruct H as (e & pre & post & _ & ->).
      eexists. split; [reflexivity|]. now left.
    + rewrite H. eexists. split; [reflexivity|]. now right.
Qed.

(** *** What [add] and [remove] come to *)

Lemma add_unfold (s : People) (m : MediaConnection) (d : DataConnection)
    (data : option JoinData) :
  add m d data s
  = match find (fun x => String.eqb (id x) (m_peer m)) (connections s) with
    | Some _ => Ok true s
    | None =>
        match information s with
        | None =>
            Throw (TypeError
                     "Cannot read properties of null (reading 'users')")
                  (if debug s
                   then logged [ConsoleError "Error add connection:"] s
                   else s)
        | Some i =>
            Ok true
              (logged [OnDataOpen (d_handle d); OnMediaStream (m_handle m)]
                 (set_connections
                    (connections s
                     ++ [override data
                           (new_entry m d
                              (find (fun x => String.eqb (u_peerJsId x)
                                                         (m_peer m))
                                    (users i)))]) s))
        end
    end.
Proof.
  unfold add, try_catch, bind, gets.
  destruct (find _ (connections s)); [reflexivity|].
  destruct (information s); simpl.
  - unfold logged. simpl. now rewrite <- app_assoc.
  - unfold log_and_rethrow, bind, gets, when, effect, modify, ret, throw.
    destruct (debug s); reflexivity.
Qed.

Lemma remove_unfold (s : People) (p : string) :
  remove p s
  = match findIndex (fun x => String.eqb (peerJsId x) p) (connections s) with
    | None => Ok tt s
    | Some index =>
        match nth_error (connections s) index with
        | None => Ok tt s
        | Some c =>
            let mc := MediaClose (m_handle (mediaConnection c)) in
            let dc := DataClose (d_handle (dataConnection c)) in
            let said := if debug s
                        then [ConsoleError "Error removing connection:"]
                        else [] in
            if close_fails s (m_handle (mediaConnection c)) then
              Throw (PlainError "close failed") (logged (mc :: said) s)
            else if close_fails s (d_handle (dataConnection c)) then
              Throw (PlainError "close failed") (logged (mc :: dc :: said) s)
            else
              Ok tt (logged [mc; dc; ScheduleStreamReset 10]
                       (set_connections (splice1 index (connections s)) s))
        end
    end.
Proof.
  unfold remove, try_catch. unfold bind at 1. unfold gets at 1.
  destruct (findIndex _ (connections s)) as [index|]; [|reflexivity].
  destruct (nth_error (connections s) index) as [c|]; [|reflexivity].
  cbn zeta.
  unfold closeMedia, closeData, log_and_rethrow, bind, gets, when, effect,
    modify, ret, throw, logged. simpl.
  destruct (close_fails s (m_handle (mediaConnection c))); simpl.
  - destruct (debug s); simpl; rewrite <- ?app_assoc; reflexivity.
  - destruct (close_fails s (d_handle (dataConnection c))); simpl.
    + destruct (debug s); simpl; rewrite <- ?app_assoc; reflexivity.
    + rewrite <- ?app_assoc. reflexivity.
Qed.

(** *** Removing one peer *)

Lemma others_splice1 (p : string) (l : list Connection) :
  forall (i : nat) (c : Connection),
    nth_error l i = Some c -> peerJsId c = p ->
    others p (splice1 i l) = others p l.
Proof.
  induction l as [|y r IH]; intros i c Hc Hp; destruct i; simpl in *;
    try discriminate.
  - injection Hc as ->. rewrite Hp, String.eqb_refl. reflexivity.
  - rewrite (IH i c Hc Hp). reflexivity.
Qed.

Lemma concerns_said (p : string) (l : list Connection) (b : bool) :
  Forall (concerns p l)
    (if b then [ConsoleError "Error removing connection:"] else []).
Proof. destruct b; repeat constructor. Qed.

(** X8. [People.remove(p)], whether it returns or throws, leaves the
    entries of every other peer in the roster, in their order, leaves the
    waiting list alone, and closes no connection object but those of an
    entry of [p]. *)
Theorem remove_touches_only_that_peer :
  forall (s : People) (p : string),
    let s' := state_of (remove p s) in
    others p (connections s') = others p (connections s) /\
    waitingList s' = waitingList s /\
    exists es, log s' = log s ++ es /\
               Forall (concerns p (connections s)) es.
Proof.
  intros s p. rewrite remove_unfold.
  destruct (findIndex _ (connections s)) as [index|] eqn:Ei;
    [|simpl; repeat split; exists []; split;
      [now rewrite app_nil_r | constructor]].
  destruct (PeopleProofs.findIndex_Some _ _ _ Ei) as (c & Hc & Fc & _).
  apply String.eqb_eq in Fc. rewrite Hc. cbn zeta.
  assert (Hin : In c (connections s)) by (apply (nth_error_In _ _ Hc)).
  assert (Hm : concerns p (connections s)
                 (MediaClose (m_handle (mediaConnection c))))
    by (exists c; repeat split; assumption).
  assert (Hd : concerns p (connections s)
                 (DataClose (d_handle (dataConnection c))))
    by (exists c; repeat split; assumption).
  destruct (close_fails s (m_handle (mediaConnection c)));
    [|destruct (close_fails s (d_handle (dataConnection c)))]; simpl.
  - repeat split. eexists. split; [reflexivity|].
    constructor; [exact Hm | apply concerns_said].
  - repeat split. eexists. split; [reflexivity|].
    constructor; [exact Hm|]. constructor; [exact Hd | apply concerns_said].
  - split; [apply (others_splice1 p _ index c Hc Fc)|]. split; [reflexivity|].
    eexists. split; [reflexivity|]. repeat constructor; assumption.
Qed.

(** *** The roster invariant *)

Lemma roster_ok_splice1 (i : nat) (l : list Connection) :
  roster_ok l -> roster_ok (splice1 i l).
Proof.
  intros [Hnd Hid]. split.
  - unfold one_entry_per_peer in *. rewrite PeopleProofs.splice1_map.
    apply PeopleProofs.splice1_NoDup. exact Hnd.
  - rewrite Forall_forall in *. intros x Hx. apply Hid.
    apply (PeopleProofs.splice1_In i l x Hx).
Qed.

Lemma remove_keeps_roster_ok (s : People) (p : string) :
  roster_ok (connections s) ->
  roster_ok (connections (state_of (remove p s))).
Proof.
  intros H. rewrite remove_unfold.
  destruct (findIndex _ (connections s)) as [index|]; [|exact H].
  destruct (nth_error (connections s) index) as [c|]; [|exact H].
  cbn zeta.
  destruct (close_fails s (m_handle (mediaConnection c)));
    [|destruct (close_fails s (d_handle (dataConnection c)))]; simpl;
    try exact H.
  apply roster_ok_splice1. exact H.
Qed.

Lemma roster_ok_nil : roster_ok [].
Proof. split; constructor. Qed.

Lemma closeAll_keeps_roster_ok (s : People) :
  roster_ok (connections s) ->
  roster_ok (connections (state_of (closeAll s))).
Proof.
  intros H. destruct (closeAll_connections s) as (s' & -> & [E | E]);
    simpl; rewrite E.
  - exact H.
  - apply roster_ok_nil.
Qed.

Lemma call_keeps_roster_ok (c : Call) (s : People) :
  roster_ok (connections s) -> roster_ok (connections (call c s)).
Proof.
  intros H. destruct c; simpl.
  - apply PeopleProofs.add_keeps_roster_ok. exact H.
  - apply remove_keeps_roster_ok. exact H.
  - apply closeAll_keeps_roster_ok. exact H.
  - exact H.
Qed.

(** X9. Starting from a roster with at most one entry per peer id whose
    entries have [id] equal to [peerJsId] (the empty roster of [setup],
    for one), any sequence of [add], [remove] and [closeAll] calls,
    returning or throwing, and of changes of the room information, leaves
    a roster with at most one entry per peer id, each with [id] equal to
    [peerJsId]. *)
Theorem roster_has_one_entry_per_peer :
  forall (calls : list Call) (s : People),
    roster_ok (connections s) ->
    one_entry_per_peer (connections (exec calls s)) /\
    Forall (fun c => id c = peerJsId c) (connections (exec calls s)).
Proof.
  induction calls as [|c r IH]; intros s H; [exact H|].
  change (exec (c :: r) s) with (exec r (call c s)).
  apply IH, call_keeps_roster_ok, H.
Qed.

Lemma roster_has_one_entry_per_peer_witness :
  let s := exec [CAdd (mkMedia 31 "p3" []) (mkData 32 "p3") None;
                 CAdd (mkMedia 41 "p3" []) (mkData 42 "p3") None;
                 CRemove "p1"] example_roster in
  map peerJsId (connections s) = ["p2"; "p3"] /\
  one_entry_per_peer (connections s).
Proof.
  intros s. split; [reflexivity|].
  apply (roster_has_one_entry_per_peer
           [CAdd (mkMedia 31 "p3" []) (mkData 32 "p3") None;
            CAdd (mkMedia 41 "p3" []) (mkData 42 "p3") None;
            CRemove "p1"] example_roster).
  split.
  - unfold one_entry_per_peer. simpl.
    constructor; [simpl; intros [H|[]]; discriminate|].
    constructor; [simpl; tauto | constructor].
  - repeat constructor.
Defined.

(** *** Teardown, adding twice, adding and removing *)


(** X10. Given the media and the data connection object of a call (not
    [undefined] in their place) and room information that, when it is
    there, lists its users, [People.add] throws exactly when the peer is
    not yet in the roster and the room information has not arrived; what
    it throws is then a TypeError, the roster is unchanged, and the console
    gets the error only in debug mode. *)
Theorem add_fails_only_without_room_information :
  forall (s : People) (m : MediaConnection) (d : DataConnection)
         (data : option JoinData),
    (throws (add m d data s) = true <->
       find (fun x => String.eqb (id x) (m_peer m)) (connections s) = None /\
       information s = None) /\
    (throws (add m d data s) = true ->
       connections (state_of (add m d data s)) = connections s /\
       log (state_of (add m d data s))
         = log s ++ (if debug s then [ConsoleError "Error add connection:"]
                     else []) /\
       exists text, add m d data s
                    = Throw (TypeError text) (state_of (add m d data s))).
Proof.
  intros s m d data. rewrite add_unfold.
  destruct (find _ (connections s)) as [c|]; simpl.
  - split; [|discriminate]. split; [discriminate | intros [H _]; discriminate].
  - destruct (information s) as [i|]; simpl.
    + split; [|discriminate].
      split; [discriminate | intros [_ H]; discriminate].
    + split; [tauto|]. intros _.
      destruct (debug s); simpl; repeat split;
        try (now rewrite app_nil_r); eexists; reflexivity.
Qed.


Lemma add_fails_only_without_room_information_witness :
  let s := set_information None example_roster in
  throws (add (mkMedia 31 "p3" []) (mkData 32 "p3") None s) = true /\
  connections (state_of (add (mkMedia 31 "p3" []) (mkData 32 "p3") None s))
    = connections s.
Proof.
  intros s.
  destruct (add_fails_only_without_room_information s (mkMedia 31 "p3" [])
              (mkData 32 "p3") None) as [Hiff Hthen].
  assert (Ht : throws (add (mkMedia 31 "p3" []) (mkData 32 "p3") None s)
               = true)
    by (apply (proj2 Hiff); split; reflexivity).
  split; [exact Ht | exact (proj1 (Hthen Ht))].
Defined.


Lemma find_last (f : Connection -> bool) (l : list Connection)
    (c : Connection) :
  find f l = None -> find f (l ++ [c]) = if f c then Some c else None.
Proof.
  induction l as [|y r IH]; simpl; [reflexivity|].
  destruct (f y); [discriminate | exact IH].
Qed.

(** X11. After a call of [People.add] has returned, every further call
    for the same peer id returns true and changes nothing, whatever
    connection objects and join data it is given: they are not stored and
    no listener is attached to them. *)
Theorem add_is_idempotent :
  forall (s s1 : People) (m : MediaConnection) (d : DataConnection)
         (data : option JoinData) (r : bool),
    add m d data s = Ok r s1 ->
    forall (m' : MediaConnection) (d' : DataConnection)
           (data' : option JoinData),
      m_peer m' = m_peer m -> add m' d' data' s1 = Ok true s1.
Proof.
  intros s s1 m d data r H m' d' data' Hp.
  rewrite add_unfold in H. rewrite add_unfold, Hp.
  destruct (find _ (connections s)) as [c|] eqn:Hf.
  - injection H as _ <-. rewrite Hf. reflexivity.
  - destruct (information s) as [i|]; [|discriminate].
    injection H as _ <-. simpl.
    rewrite (find_last _ _ _ Hf). cbn beta.
    assert (E : id (override data
                      (new_entry m d
                         (find (fun x => String.eqb (u_peerJsId x) (m_peer m))
                               (users i)))) = m_peer m)
      by (destruct data; reflexivity).
    rewrite E, String.eqb_refl. reflexivity.
Qed.

Lemma add_is_idempotent_witness :
  exists s1 : People,
    add (mkMedia 31 "p3" []) (mkData 32 "p3") None example_roster
      = Ok true s1 /\
    add (mkMedia 41 "p3" []) (mkData 42 "p3")
        (Some (mkJoinData (Some "Cyd") (Some true))) s1 = Ok true s1.
Proof.
  eexists. split; [reflexivity|].
  apply (add_is_idempotent example_roster _ (mkMedia 31 "p3" [])
           (mkData 32 "p3") None true eq_refl); reflexivity.
Defined.

Lemma findIndex_last (f : Connection -> bool) (l : list Connection)
    (c : Connection) :
  (forall x, In x l -> f x = false) -> f c = true ->
  findIndex f (l ++ [c]) = Some (List.length l).
Proof.
  intros Hl Hc. induction l as [|y r IH]; simpl.
  - now rewrite Hc.
  - rewrite (Hl y (or_introl eq_refl)), IH; [reflexivity|].
    intros x Hx. apply Hl. now right.
Qed.

Lemma splice1_last (l : list Connection) (c : Connection) :
  splice1 (List.length l) (l ++ [c]) = l.
Proof. induction l as [|y r IH]; simpl; [reflexivity | now rewrite IH]. Qed.

Lemma nth_error_last (l : list Connection) (c : Connection) :
  nth_error (l ++ [c]) (List.length l) = Some c.
Proof. induction l as [|y r IH]; simpl; [reflexivity | exact IH]. Qed.

(** X12. For a peer that is not in a well-formed roster, with the room
    information present and connection objects that close normally,
    [add] followed by [remove] of that peer returns, leaves the roster and
    the waiting list as they were, and has attached the two listeners,
    closed the media and the data connection once each, and scheduled one
    stream reset. *)
Theorem add_then_remove_restores_the_roster :
  forall (s : People) (m : MediaConnection) (d : DataConnection)
         (data : option JoinData),
    roster_ok (connections s) ->
    find (fun x => String.eqb (id x) (m_peer m)) (connections s) = None ->
    information s <> None ->
    close_fails s (m_handle m) = false ->
    close_fails s (d_handle d) = false ->
    exists s' : People,
      (add m d data ;; remove (m_peer m)) s = Ok tt s' /\
      connections s' = connections s /\
      waitingList s' = waitingList s /\
      log s' = log s ++ [OnDataOpen (d_handle d); OnMediaStream (m_handle m);
                         MediaClose (m_handle m); DataClose (d_handle d);
                         ScheduleStreamReset 10].
Proof.
  intros s m d data [Hnd Hid] Hf Hi Hm Hd.
  unfold bind. rewrite add_unfold, Hf.
  destruct (information s) as [i|]; [clear Hi | congruence].
  set (c := override data _).
  assert (Ec : peerJsId c = m_peer m /\ mediaConnection c = m /\
               dataConnection c = d)
    by (unfold c; destruct data; repeat split; reflexivity).
  destruct Ec as (Ep & Em & Ed).
  rewrite remove_unfold.
  change (connections (logged _ (set_connections (connections s ++ [c]) s)))
    with (connections s ++ [c]).
  assert (Hothers : forall x, In x (connections s) ->
                      String.eqb (peerJsId x) (m_peer m) = false).
  { intros x Hx. rewrite Forall_forall in Hid. rewrite <- (Hid x Hx).
    apply (find_none _ _ Hf x Hx). }
  rewrite (findIndex_last _ _ c Hothers)
    by (simpl; rewrite Ep; apply String.eqb_refl).
  rewrite nth_error_last, splice1_last. cbn zeta.
  rewrite Em, Ed.
  change (close_fails (logged _ (set_connections (connections s ++ [c]) s)))
    with (close_fails s).
  rewrite Hm, Hd.
  eexists. split; [reflexivity|]. simpl. repeat split.
  rewrite <- app_assoc. reflexivity.
Qed.

Lemma add_then_remove_restores_the_roster_witness :
  exists s' : People,
    (add (mkMedia 31 "p3" []) (mkData 32 "p3") None ;; remove "p3")
      example_roster = Ok tt s' /\
    connections s' = connections example_roster /\
    log s' = [OnDataOpen 32; OnMediaStream 31; MediaClose 31; DataClose 32;
              ScheduleStreamReset 10].
Proof.
  assert (Hok : roster_ok (connections example_roster)).
  { split.
    - unfold one_entry_per_peer. simpl.
      constructor; [simpl; intros [H|[]]; discriminate|].
      constructor; [simpl; tauto | constructor].
    - repeat constructor. }
  destruct (add_then_remove_restores_the_roster example_roster
              (mkMedia 31 "p3" []) (mkData 32 "p3") None Hok eq_refl
              ltac:(discriminate) eq_refl eq_refl)
    as (s' & H & Hc & _ & Hl).
  exists s'. repeat split; assumption.
Defined.

End RosterProofs.
(** ** The waiting list *)
Module WaitingListProofs.
Import Events WaitingList.
Local Open Scope js_scope.

Lemma strict_eq_true (a b : Value) : strict_eq a b = true -> a = b.
Proof.
  destruct a, b; simpl; try discriminate; intros H; try reflexivity.
  - apply Bool.eqb_prop in H. now subst.
  - apply String.eqb_eq in H. now subst.
Qed.

Lemma some_same_peer_spec (data : Value) (l : list Value) :
  forall (st : WaitingList) (b : bool) (st' : WaitingList),
    some_same_peer data l st = Ok b st' ->
    st' = st /\
    (b = false -> Forall (fun x => is_peer (field "peerJsId" data) x = false) l) /\
    (b = true -> exists x, In x l /\ is_peer (field "peerJsId" data) x = true).
Proof.
  induction l as [|x r IH]; intros st b st' H; simpl in H.
  - injection H as <- <-. repeat split; [constructor | discriminate].
  - destruct (nullish x || nullish data); [discriminate|].
    destruct (strict_eq (field "peerJsId" x) (field "peerJsId" data)) eqn:E.
    + injection H as <- <-. repeat split; [discriminate|].
      intros _. exists x. split; [now left | exact E].
    + destruct (IH st b st' H) as (Hs & Hf & Ht).
      split; [exact Hs|]. split.
      * intros Hb. constructor; [exact E | apply Hf, Hb].
      * intros Hb. destruct (Ht Hb) as (y & Hy & Ey).
        exists y. split; [now right | exact Ey].
Qed.

Lemma some_same_peer_state (data : Value) (l : list Value)
    (st : WaitingList) :
  state_of (some_same_peer data l st) = st.
Proof.
  induction l as [|x r IH]; simpl; [reflexivity|].
  destruct (nullish x || nullish data); [reflexivity|].
  destruct (strict_eq _ _); [reflexivity | exact IH].
Qed.

Lemma distinct_snoc (l : WaitingList) (data : Value) :
  distinct_peers l ->
  Forall (fun x => is_peer (field "peerJsId" data) x = false) l ->
  distinct_peers (l ++ [data]).
Proof.
  unfold distinct_peers. intros Hd Hf.
  induction l as [|x r IH]; simpl.
  - constructor; constructor.
  - inversion Hd as [|? ? Hx Hr]; subst. inversion Hf as [|? ? Fx Fr]; subst.
    constructor; [|apply IH; assumption].
    apply Forall_app. split; [exact Hx|]. constructor; [exact Fx|constructor].
Qed.

Lemma splice1_Forall {A : Type} (P : A -> Prop) (i : nat) (l : list A) :
  Forall P l -> Forall P (splice1 i l).
Proof.
  revert i. induction l as [|x r IH]; intros i H; destruct i; simpl;
    try constructor; inversion H; subst; auto.
Qed.

Lemma distinct_splice1 (i : nat) (l : WaitingList) :
  distinct_peers l -> distinct_peers (splice1 i l).
Proof.
  unfold distinct_peers. revert i.
  induction l as [|x r IH]; intros i H; destruct i; simpl;
    try constructor; inversion H; subst; auto.
  apply splice1_Forall. assumption.
Qed.

Lemma addToWaitingList_unfold (data : Value) (l : WaitingList) :
  addToWaitingList data l
  = match some_same_peer data l l with
    | Ok true _ => Ok tt l
    | Ok false _ => Ok tt (l ++ [data])
    | Throw e _ => Throw e l
    end.
Proof.
  unfold addToWaitingList, bind, gets.
  destruct (some_same_peer data l l) as [b st|e st] eqn:E.
  - destruct (some_same_peer_spec data l l b st E) as (-> & _).
    destruct b; reflexivity.
  - pose proof (some_same_peer_state data l l) as H. rewrite E in H.
    simpl in H. now subst.
Qed.

Lemma distinct_add (data : Value) (l : WaitingList) :
  distinct_peers l -> distinct_peers (state_of (addToWaitingList data l)).
Proof.
  intros H. rewrite addToWaitingList_unfold.
  destruct (some_same_peer data l l) as [b st|e st] eqn:E; [|exact H].
  destruct (some_same_peer_spec data l l b st E) as (_ & Hf & _).
  destruct b; [exact H|]. simpl. apply distinct_snoc; [exact H | now apply Hf].
Qed.

Lemma distinct_removeAt (index : Z) (l : WaitingList) :
  distinct_peers l -> distinct_peers (state_of (removeFromWaitingList index l)).
Proof.
  intros H. unfold removeFromWaitingList.
  destruct (-1 <? index)%Z; [|exact H]. simpl. now apply distinct_splice1.
Qed.

Lemma findIndex_peer_state (p : Value) (l : list Value) :
  forall (i : Z) (st : WaitingList),
    state_of (findIndex_peer p i l st) = st.
Proof.
  induction l as [|x r IH]; intros i st; simpl; [reflexivity|].
  destruct (nullish x); [reflexivity|].
  destruct (strict_eq _ _); [reflexivity | apply IH].
Qed.

Lemma removePeer_state (p : Value) (l : WaitingList) :
  exists index : Z,
    state_of (removeFromWaitingListByPeerJsId p l) = l \/
    state_of (removeFromWaitingListByPeerJsId p l)
      = state_of (removeFromWaitingList index l).
Proof.
  unfold removeFromWaitingListByPeerJsId, bind, gets.
  pose proof (findIndex_peer_state p l 0%Z l) as H.
  destruct (findIndex_peer p 0 l l) as [index st|e st]; simpl in H; subst.
  - exists index. now right.
  - exists 0%Z. now left.
Qed.

Lemma distinct_call (c : Call) (l : WaitingList) :
  distinct_peers l -> distinct_peers (call c l).
Proof.
  intros H. destruct c; simpl.
  - now apply distinct_add.
  - now apply distinct_removeAt.
  - destruct (removePeer_state peerJsId l) as (index & [-> | ->]);
      [exact H | now apply distinct_removeAt].
  - constructor.
Qed.

(** X13. Starting from a waiting list in which no two entries carry the
    same peer id (the empty list of [setup], for one), any sequence of
    [addToWaitingList], [removeFromWaitingList],
    [removeFromWaitingListByPeerJsId] calls, returning or throwing, and
    of [closeAll] leaves a list in which no two entries carry the same
    peer id. *)
Theorem waiting_list_has_distinct_peers :
  forall (calls : list Call) (l : WaitingList),
    distinct_peers l -> distinct_peers (exec calls l).
Proof.
  induction calls as [|c r IH]; intros l H; [exact H|].
  change (exec (c :: r) l) with (exec r (call c l)).
  apply IH, distinct_call, H.
Qed.

Lemma waiting_list_has_distinct_peers_witness :
  let l := exec [CAdd (descriptor "p1" "Ann"); CAdd (descriptor "p2" "Bob");
                 CAdd (descriptor "p1" "Ann again"); CRemoveAt (-1)%Z;
                 CRemovePeer (VStr "p9")] [] in
  l = [descriptor "p1" "Ann"; descriptor "p2" "Bob"] /\ distinct_peers l.
Proof.
  intros l. split; [reflexivity|].
  apply (waiting_list_has_distinct_peers
           [CAdd (descriptor "p1" "Ann"); CAdd (descriptor "p2" "Bob");
            CAdd (descriptor "p1" "Ann again"); CRemoveAt (-1)%Z;
            CRemovePeer (VStr "p9")] []).
  constructor.
Defined.

(** *** Removing by peer id *)

Lemma findIndex_peer_spec (p : Value) (l : list Value) :
  Forall (fun x => nullish x = false) l ->
  forall (i : Z) (st : WaitingList),
    (Forall (fun x => is_peer p x = false) l /\
     findIndex_peer p i l st = Ok (-1)%Z st) \/
    (exists l1 x l2,
       l = l1 ++ x :: l2 /\ is_peer p x = true /\
       Forall (fun y => is_peer p y = false) l1 /\
       findIndex_peer p i l st = Ok (i + Z.of_nat (List.length l1))%Z st).
Proof.
  induction 1 as [|x r Hx Hr IH]; intros i st; simpl.
  - left. split; [constructor | reflexivity].
  - rewrite Hx. destruct (strict_eq (field "peerJsId" x) p) eqn:E.
    + right. exists [], x, r. repeat split; [exact E | constructor |].
      simpl. now rewrite Z.add_0_r.
    + destruct (IH (i + 1)%Z st) as [[Hf Hn]|(l1 & y & l2 & -> & Ey & Hf & Hn)].
      * left. split; [constructor; assumption | exact Hn].
      * right. exists (x :: l1), y, l2. repeat split;
          [exact Ey | constructor; assumption|].
        rewrite Hn. f_equal. simpl List.length. lia.
Qed.

Lemma splice1_middle {A : Type} (l1 : list A) (x : A) (l2 : list A) :
  splice1 (List.length l1) (l1 ++ x :: l2) = l1 ++ l2.
Proof. induction l1 as [|y r IH]; simpl; [reflexivity | now rewrite IH]. Qed.

Lemma removePeer_spec (p : Value) (l : WaitingList) :
  Forall (fun x => nullish x = false) l ->
  (Forall (fun x => is_peer p x = false) l /\
   removeFromWaitingListByPeerJsId p l = Ok tt l) \/
  (exists l1 x l2,
     l = l1 ++ x :: l2 /\ is_peer p x = true /\
     Forall (fun y => is_peer p y = false) l1 /\
     removeFromWaitingListByPeerJsId p l = Ok tt (l1 ++ l2)).
Proof.
  intros Hl. unfold removeFromWaitingListByPeerJsId, bind, gets.
  destruct (findIndex_peer_spec p l Hl 0%Z l)
    as [[Hf Hn]|(l1 & x & l2 & E & Ex & Hf & Hn)]; rewrite Hn.
  - left. split; [exact Hf | reflexivity].
  - right. exists l1, x, l2. repeat split; try assumption.
    unfold removeFromWaitingList, modify.
    replace (-1 <? 0 + Z.of_nat (List.length l1))%Z with true
      by (symmetry; apply Z.ltb_lt; lia).
    rewrite Z.add_0_l, Nat2Z.id, E, splice1_middle. reflexivity.
Qed.

(** X14. On a waiting list of descriptors (no null entry) with distinct
    peer ids, [removeFromWaitingListByPeerJsId(p)] returns, leaves exactly
    the entries whose peer id is not [p], in their order, and changes
    nothing when no entry has that id. *)
Theorem removal_by_peer_id_takes_that_peer_out :
  forall (p : Value) (l : WaitingList),
    Forall (fun x => nullish x = false) l ->
    distinct_peers l ->
    exists l' : WaitingList,
      removeFromWaitingListByPeerJsId p l = Ok tt l' /\
      l' = filter (fun x => negb (is_peer p x)) l /\
      Forall (fun x => is_peer p x = false) l' /\
      (Forall (fun x => is_peer p x = false) l -> l' = l).
Proof.
  intros p l Hl Hd.
  assert (Hkeep : forall r : list Value,
            Forall (fun y => is_peer p y = false) r ->
            filter (fun x => negb (is_peer p x)) r = r).
  { induction 1 as [|y r Hy Hr IH]; simpl; [reflexivity|].
    now rewrite Hy, IH. }
  destruct (removePeer_spec p l Hl)
    as [[Hf Hn]|(l1 & x & l2 & -> & Ex & Hf & Hn)].
  - exists l. rewrite (Hkeep l Hf). repeat split; assumption.
  - exists (l1 ++ l2).
    assert (H2 : Forall (fun y => is_peer p y = false) l2).
    { unfold distinct_peers in Hd.
      assert (Hx : Forall (fun b => strict_eq (field "peerJsId" x)
                                      (field "peerJsId" b) = false) l2).
      { clear -Hd. induction l1 as [|y r IH]; simpl in Hd.
        - now inversion Hd.
        - inversion Hd; subst. now apply IH. }
      rewrite Forall_forall in *. intros y Hy. specialize (Hx y Hy).
      unfold is_peer in *.
      destruct (strict_eq (field "peerJsId" y) p) eqn:Ey; [|reflexivity].
      pose proof (strict_eq_true _ _ Ex) as Ex'.
      pose proof (strict_eq_true _ _ Ey) as Ey'.
      rewrite Ex', Ey' in Hx. rewrite Ex' in Ex. congruence. }
    split; [exact Hn|]. split.
    + rewrite filter_app. simpl. rewrite Ex. simpl.
      now rewrite (Hkeep l1 Hf), (Hkeep l2 H2).
    + split; [apply Forall_app; split; assumption|].
      intros Hall. apply Forall_app in Hall. destruct Hall as [_ Hall].
      inversion Hall as [|? ? Hx _]; subst. congruence.
Qed.

Lemma removal_by_peer_id_takes_that_peer_out_witness :
  removeFromWaitingListByPeerJsId (VStr "p1")
    [descriptor "p1" "Ann"; descriptor "p2" "Bob"]
  = Ok tt [descriptor "p2" "Bob"].
Proof.
  assert (Hl : Forall (fun x => nullish x = false)
                 [descriptor "p1" "Ann"; descriptor "p2" "Bob"])
    by (repeat constructor).
  assert (Hd : distinct_peers [descriptor "p1" "Ann"; descriptor "p2" "Bob"])
    by (repeat constructor).
  destruct (removal_by_peer_id_takes_that_peer_out (VStr "p1") _ Hl Hd)
    as (l' & H & -> & _).
  exact H.
Defined.

(** *** Adding and removing *)

Lemma some_same_peer_none (data : Value) (l : list Value) (st : WaitingList) :
  Forall (fun x => nullish x = false) l -> nullish data = false ->
  Forall (fun x => is_peer (field "peerJsId" data) x = false) l ->
  some_same_peer data l st = Ok false st.
Proof.
  intros Hl Hd Hf. induction l as [|x r IH]; simpl; [reflexivity|].
  inversion Hl as [|? ? Hx Hr]; subst. inversion Hf as [|? ? Fx Fr]; subst.
  unfold is_peer in Fx. rewrite Hx, Hd, Fx. simpl. now apply IH.
Qed.

Lemma findIndex_peer_last (p : Value) (l : list Value) (data : Value) :
  Forall (fun x => nullish x = false) l -> nullish data = false ->
  Forall (fun x => is_peer p x = false) l -> is_peer p data = true ->
  forall (i : Z) (st : WaitingList),
    findIndex_peer p i (l ++ [data]) st
    = Ok (i + Z.of_nat (List.length l))%Z st.
Proof.
  intros Hl Hd Hf Hp. induction l as [|x r IH]; intros i st; simpl.
  - unfold is_peer in Hp. rewrite Hd, Hp, Z.add_0_r. reflexivity.
  - inversion Hl as [|? ? Hx Hr]; subst. inversion Hf as [|? ? Fx Fr]; subst.
    unfold is_peer in Fx. rewrite Hx, Fx, (IH Hr Fr). f_equal. lia.
Qed.

(** Adding a new descriptor, then removing it or adding it again. *)
Lemma add_then_cancel :
  forall (data : Value) (l : WaitingList),
    Forall (fun x => nullish x = false) l -> nullish data = false ->
    is_peer (field "peerJsId" data) data = true ->
    Forall (fun x => is_peer (field "peerJsId" data) x = false) l ->
    addToWaitingList data l = Ok tt (l ++ [data]) /\
    (addToWaitingList data ;;
     removeFromWaitingListByPeerJsId (field "peerJsId" data)) l = Ok tt l /\
    (addToWaitingList data ;; addToWaitingList data) l = Ok tt (l ++ [data]).
Proof.
  intros data l Hl Hd Hp Hf.
  assert (Ha : addToWaitingList data l = Ok tt (l ++ [data])).
  { rewrite addToWaitingList_unfold, (some_same_peer_none data l l Hl Hd Hf).
    reflexivity. }
  split; [exact Ha|]. split.
  - unfold bind at 1. rewrite Ha.
    unfold removeFromWaitingListByPeerJsId, bind, gets.
    rewrite (findIndex_peer_last _ l data Hl Hd Hf Hp).
    unfold removeFromWaitingList, modify.
    replace (-1 <? 0 + Z.of_nat (List.length l))%Z with true
      by (symmetry; apply Z.ltb_lt; lia).
    rewrite Z.add_0_l, Nat2Z.id.
    replace (l ++ [data]) with (l ++ data :: []) by reflexivity.
    rewrite splice1_middle, app_nil_r. reflexivity.
  - unfold bind. rewrite Ha, addToWaitingList_unfold.
    assert (Hs : exists st, some_same_peer data (l ++ [data]) (l ++ [data])
                            = Ok true st).
    { generalize (l ++ [data]) at 2. intros st.
      clear Ha. induction l as [|x r IH]; simpl.
      - unfold is_peer in Hp. rewrite Hd, Hp. simpl. eexists. reflexivity.
      - inversion Hl as [|? ? Hx Hr]; subst.
        inversion Hf as [|? ? Fx Fr]; subst.
        unfold is_peer in Fx. rewrite Hx, Hd, Fx. simpl. now apply IH. }
    destruct Hs as [st ->]. reflexivity.
Qed.


End WaitingListProofs.
(** ** The peer transport over whole histories *)
Module VideoPeerProofs.
Import VideoPeer VideoPeerSession.

Lemma timer_delays_app (a b : list Effect) :
  timer_delays (a ++ b) = timer_delays a ++ timer_delays b.
Proof. unfold timer_delays. apply flat_map_app. Qed.

Lemma next_delay_in_range (d jitter : Q) :
  in_range d -> (0 <= jitter)%Q ->
  in_range (Math_min 30000 (d * 2 + jitter * 1000))%Q /\
  (d <= Math_min 30000 (d * 2 + jitter * 1000))%Q.
Proof.
  unfold in_range, Math_min. intros [Hlo Hhi] Hj.
  repeat split.
  - apply Q.min_glb; lra.
  - apply Q.le_min_l.
  - apply Q.min_glb; lra.
Qed.

Lemma steady_logged (v : VideoPeer) (d : Q) (es : list Effect) :
  steady v -> in_range d -> Forall in_range (timer_delays es) ->
  forall v' : VideoPeer,
    reconnectDelay v' = d -> log v' = log v ++ es -> steady v'.
Proof.
  intros [_ Hl] Hd Hes v' Ed El. split; [now rewrite Ed|].
  rewrite El, timer_delays_app. apply Forall_app. now split.
Qed.

Lemma steady_deliver (e : Event) (v : VideoPeer) :
  random_value e -> steady v ->
  steady (deliver e v) /\
  (match e with EvOpen => True
   | _ => (reconnectDelay v <= reconnectDelay (deliver e v))%Q end).
Proof.
  intros He Hv. pose proof Hv as [Hd Hl]. destruct e; unfold deliver.
  - unfold attemptReconnection.
    destruct (maxReconnectAttempts v <=? reconnectAttempts v).
    + split; [|apply Qle_refl].
      apply (steady_logged v (reconnectDelay v)
               [Notify "onPeerJsConnectionFailed"] Hv Hd);
        [constructor | reflexivity | reflexivity].
    + split; [|apply Qle_refl].
      apply (steady_logged v (reconnectDelay v)
               [SetTimeout (nextTimer v) (reconnectDelay v)] Hv Hd);
        [repeat constructor; apply Hd | reflexivity | reflexivity].
  - unfold reconnection_timer.
    destruct (disconnected v); [|split; [exact Hv | apply Qle_refl]].
    destruct (reconnect_fails v).
    + split; [|apply Qle_refl].
      apply (steady_logged v (reconnectDelay v) [PeerReconnect] Hv Hd);
        [constructor | reflexivity | reflexivity].
    + destruct He as [Hj _].
      destruct (next_delay_in_range (reconnectDelay v) jitter Hd Hj)
        as [Hr Hm].
      split; [|exact Hm].
      apply (steady_logged v _ [PeerReconnect] Hv Hr);
        [constructor | reflexivity | reflexivity].
  - split; [|exact I]. split; [|exact Hl].
    unfold in_range. simpl. split; lra.
  - split; [exact Hv | apply Qle_refl].
Qed.

(** X6. Over any history of the peer transport (disconnected and open
    events, expiries of reconnection timers with any value of
    [Math.random()] in [0, 1), changes of the host), starting with a delay
    between one and thirty seconds and with every timer set so far in
    that range (as after the constructor): the reconnection delay stays
    between 1000 and 30000 ms, every timer that [attemptReconnection]
    sets has a delay in that range, and as long as no open event resets
    it the delay never decreases. *)
Theorem peer_reconnect_delay_stays_in_range :
  forall (evs : list Event) (v : VideoPeer),
    Forall random_value evs -> steady v ->
    in_range (reconnectDelay (run evs v)) /\
    Forall in_range (timer_delays (log (run evs v))) /\
    (Forall (fun e => e <> EvOpen) evs ->
     (reconnectDelay v <= reconnectDelay (run evs v))%Q).
Proof.
  induction evs as [|e r IH]; intros v He Hv.
  - destruct Hv as [Hd Hl]. repeat split; try assumption; try apply Hd.
    intros _. apply Qle_refl.
  - inversion He as [|? ? He1 Her]; subst.
    change (run (e :: r) v) with (run r (deliver e v)).
    destruct (steady_deliver e v He1 Hv) as [Hs Hm].
    destruct (IH (deliver e v) Her Hs) as (A & B & C).
    split; [exact A|]. split; [exact B|].
    intros Hno. inversion Hno as [|? ? Hne Hnr]; subst.
    apply Qle_trans with (y := reconnectDelay (deliver e v)).
    + destruct e; try exact Hm. contradiction.
    + apply C. exact Hnr.
Qed.

Lemma peer_reconnect_delay_stays_in_range_witness :
  let evs := [EvHost true false; EvDisconnected; EvTimer 0.5;
              EvDisconnected; EvTimer 0.25] in
  map Qred (timer_delays (log (run evs constructor))) = [1000; 2500]%Q /\
  in_range (reconnectDelay (run evs constructor)).
Proof.
  intros evs. split; [vm_compute; reflexivity|].
  apply (peer_reconnect_delay_stays_in_range evs constructor).
  - unfold evs. repeat constructor; simpl; try lra.
  - split; [unfold in_range; simpl; lra | constructor].
Defined.

End VideoPeerProofs.
(** ** The dispatcher over whole histories, and action names *)
Module RoomSessionProofs.
Import Events Room RoomSession.
Local Open Scope js_scope.

(** *** What a dispatch comes to *)

Lemma dispatch_outcome (s : Room) (action : Action) (item : ActionItem) :
  resolved (kebabToCamel (a_name action)) s = Built item ->
  let s0 := cached (kebabToCamel (a_name action)) item s in
  runRequestedAction action s
  = match run item (localPeerJsId s) action with
    | (effs, None) => Ok tt (logged (effs ++ [action_event action]) s0)
    | (effs, Some e) =>
        Throw e (logged (effs ++ if debug s
                                 then [ConsoleLog "Action run failed!"]
                                 else []) s0)
    end.
Proof.
  intros Hres. unfold resolved, cached, action_event in *.
  set (actionName := kebabToCamel (a_name action)) in *.
  unfold runRequestedAction. fold actionName.
  unfold bind at 1. unfold gets at 1.
  pose proof (RoomProofs.findIndex_find
                (fun x => String.eqb (fst x) actionName) (actions s)) as Hfi.
  destruct (findIndex (fun x => String.eqb (fst x) actionName) (actions s))
    as [i|].
  - destruct Hfi as (x & Hx & Hf). rewrite Hf in *. injection Hres as Hitem.
    unfold try_catch, bind. rewrite Hx. unfold ret at 1.
    unfold run_item, bind, gets. rewrite Hitem.
    destruct (run item (localPeerJsId s) action) as [effs [e|]].
    + unfold effects, modify, throw, when, effect, effects, modify, ret,
        logged. simpl. destruct (debug s); simpl.
      * now rewrite <- app_assoc.
      * now rewrite app_nil_r.
    + unfold effects, modify, effect, effects, modify, ret, logged. simpl.
      now rewrite <- app_assoc.
  - rewrite Hfi in *.
    unfold try_catch, bind, gets. rewrite Hres.
    unfold modify at 1. unfold ret at 1.
    unfold run_item, bind, gets. simpl.
    destruct (run item (localPeerJsId s) action) as [effs [e|]].
    + unfold effects, modify, throw, when, effect, effects, modify, ret,
        logged. simpl. destruct (debug s); simpl.
      * now rewrite <- app_assoc.
      * now rewrite app_nil_r.
    + unfold effects, modify, effect, effects, modify, ret, logged. simpl.
      now rewrite <- app_assoc.
Qed.

Lemma dispatch_unbuilt (s : Room) (action : Action) (e : JSError) :
  resolved (kebabToCamel (a_name action)) s = BuildThrows e ->
  runRequestedAction action s
  = Throw e (logged (if debug s then [ConsoleLog "Action run failed!"]
                     else []) s).
Proof.
  intros Hres. unfold resolved in Hres.
  set (actionName := kebabToCamel (a_name action)) in *.
  unfold runRequestedAction. fold actionName.
  unfold bind at 1. unfold gets at 1.
  pose proof (RoomProofs.findIndex_find
                (fun x => String.eqb (fst x) actionName) (actions s)) as Hfi.
  destruct (findIndex (fun x => String.eqb (fst x) actionName) (actions s))
    as [i|].
  - destruct Hfi as (x & Hx & Hf). rewrite Hf in Hres. discriminate.
  - rewrite Hfi in Hres. unfold try_catch, bind, gets. rewrite Hres.
    unfold throw, when, effect, effects, modify, ret, logged.
    destruct (debug s) eqn:Ed; simpl; rewrite ?Ed; [reflexivity|].
    destruct s; simpl in *. now rewrite app_nil_r, Ed.
Qed.

(** *** The cache over a history *)


Lemma resolved_logged (n : string) (es : list Effect) (s : Room) :
  resolved n (logged es s) = resolved n s.
Proof. reflexivity. Qed.

Lemma resolved_cached (n actionName : string) (item : ActionItem) (s : Room) :
  resolved actionName s = Built item ->
  resolved n (cached actionName item s) = resolved n s.
Proof.
  unfold resolved, cached. intros Hres.
  destruct (find (fun x => String.eqb (fst x) actionName) (actions s))
    as [x|] eqn:Hf; [reflexivity|].
  unfold make_item. simpl.
  destruct (String.eqb_spec actionName n) as [<-|Hne].
  - rewrite Hf.
    rewrite (RoomProofs.find_snoc_new _ _ (actionName, item) Hf)
      by (simpl; apply String.eqb_refl).
    simpl. symmetry. exact Hres.
  - rewrite RoomProofs.find_snoc_other; [reflexivity|]. simpl.
    apply String.eqb_neq. exact Hne.
Qed.

Lemma one_handler_cached (actionName : string) (item : ActionItem)
    (s : Room) :
  one_handler_per_name s -> one_handler_per_name (cached actionName item s).
Proof.
  unfold one_handler_per_name, cached. intros H.
  destruct (find (fun x => String.eqb (fst x) actionName) (actions s))
    as [x|] eqn:Hf; [exact H|].
  simpl. rewrite map_app. simpl.
  assert (Hn : ~ In actionName (map fst (actions s))).
  { intros Hin. apply in_map_iff in Hin. destruct Hin as (x & Hx & Hin).
    apply (find_none _ _ Hf) in Hin. simpl in Hin.
    rewrite Hx, String.eqb_refl in Hin. discriminate. }
  clear Hf. induction (map fst (actions s)) as [|y r IH]; simpl.
  - constructor; [intros []|constructor].
  - inversion H as [|? ? Hy Hr]; subst. constructor.
    + intros Hin. apply in_app_or in Hin. destruct Hin as [Hin|[<-|[]]].
      * contradiction.
      * apply Hn. now left.
    + apply IH; [exact Hr|]. intros Hin. apply Hn. now right.
Qed.

Lemma dispatch_state (action : Action) (s : Room) :
  exists es : list Effect,
    (dispatch action s = logged es s) \/
    (exists item, resolved (kebabToCamel (a_name action)) s = Built item /\
       dispatch action s
       = logged es (cached (kebabToCamel (a_name action)) item s)).
Proof.
  unfold dispatch.
  destruct (resolved (kebabToCamel (a_name action)) s) as [item|e] eqn:Hres.
  - rewrite (dispatch_outcome s action item Hres). cbn zeta.
    destruct (run item (localPeerJsId s) action) as [effs [e|]];
      eexists; right; exists item; split; reflexivity.
  - rewrite (dispatch_unbuilt s action e Hres). eexists. left. reflexivity.
Qed.

Lemma dispatch_keeps (action : Action) (s : Room) :
  (forall n, resolved n (dispatch action s) = resolved n s) /\
  (one_handler_per_name s -> one_handler_per_name (dispatch action s)).
Proof.
  destruct (dispatch_state action s) as (es & [-> | (item & Hres & ->)]).
  - split; [intros n; apply resolved_logged | intros H; exact H].
  - split.
    + intros n. rewrite resolved_logged. now apply resolved_cached.
    + intros H.
      exact (one_handler_cached (kebabToCamel (a_name action)) item s H).
Qed.

(** X16. Over any sequence of action envelopes given to
    [Room.runRequestedAction], whether the calls return or throw, every
    action name keeps resolving to the handler it resolved to at the
    start, and a cache with at most one handler per name keeps at most
    one handler per name. *)
Theorem action_handlers_are_resolved_once :
  forall (l : list Action) (s : Room),
    one_handler_per_name s ->
    one_handler_per_name (dispatch_all l s) /\
    forall n : string, resolved n (dispatch_all l s) = resolved n s.
Proof.
  induction l as [|a r IH]; intros s H; [split; [exact H | reflexivity]|].
  change (dispatch_all (a :: r) s) with (dispatch_all r (dispatch a s)).
  destruct (dispatch_keeps a s) as [Hres Hone].
  destruct (IH (dispatch a s) (Hone H)) as [A B].
  split; [exact A|]. intros n. rewrite B. apply Hres.
Qed.

Lemma action_handlers_are_resolved_once_witness :
  let l := [mkAction "ban" (VObj no_fields);
            mkAction "face-api" VNull; mkAction "ban" VNull;
            mkAction "no-such" VNull] in
  map fst (actions (dispatch_all l example_room)) = ["ban"; "faceApi"] /\
  one_handler_per_name (dispatch_all l example_room).
Proof.
  intros l. split; [reflexivity|].
  apply (action_handlers_are_resolved_once l example_room). constructor.
Defined.

(** *** The ban action through the dispatcher *)



(** *** Action names *)

Lemma upper_lower (c : ascii) :
  is_upper c = true ->
  is_lower (toLowerCase c) = true /\ toUpperCase (toLowerCase c) = c /\
  Ascii.eqb c "-" = false.
Proof.
  destruct c as [[] [] [] [] [] [] [] []]; vm_compute;
    intros H; try discriminate; repeat split.
Qed.

Lemma lower_upper (c : ascii) :
  is_lower c = true ->
  is_upper (toUpperCase c) = true /\ toLowerCase (toUpperCase c) = c.
Proof.
  destruct c as [[] [] [] [] [] [] [] []]; vm_compute;
    intros H; try discriminate; repeat split.
Qed.

Lemma hyphen_not_upper : is_upper "-" = false.
Proof. reflexivity. Qed.

Lemma kebabToCamel_cons (c : ascii) (r : string) :
  Ascii.eqb c "-" = false ->
  kebabToCamel (String c r) = String c (kebabToCamel r).
Proof. intros H. simpl. now rewrite H. Qed.

Lemma kebabToCamel_of_camelToKebab (s : string) :
  no_hyphen s = true -> kebabToCamel (camelToKebab s) = s.
Proof.
  induction s as [|c r IH]; intros H; [reflexivity|].
  simpl in H. apply andb_true_iff in H. destruct H as [Hc Hr].
  apply negb_true_iff in Hc.
  cbn [camelToKebab]. destruct (is_upper c) eqn:Eu.
  - destruct (upper_lower c Eu) as (Hl & Hu & _).
    cbn [kebabToCamel]. rewrite Ascii.eqb_refl, Hl, Hu, (IH Hr). reflexivity.
  - rewrite (kebabToCamel_cons c _ Hc), (IH Hr). reflexivity.
Qed.

Lemma kebabToCamel_fixes (s : string) :
  no_hyphen_letter s = true -> kebabToCamel s = s.
Proof.
  induction s as [|c r IH]; intros H; [reflexivity|].
  cbn [no_hyphen_letter] in H. apply andb_true_iff in H. destruct H as [Hc Hr].
  apply negb_true_iff in Hc. cbn [kebabToCamel].
  destruct (Ascii.eqb c "-") eqn:Eh.
  - destruct r as [|d r']; [reflexivity|]. simpl in Hc. rewrite Hc.
    now rewrite (IH Hr).
  - now rewrite (IH Hr).
Qed.

Lemma camelToKebab_of_kebabToCamel_fuel (n : nat) :
  forall s : string,
    String.length s <= n -> is_kebab s = true ->
    camelToKebab (kebabToCamel s) = s.
Proof.
  induction n as [|n IH]; intros s Hn H.
  - destruct s; [reflexivity | simpl in Hn; lia].
  - destruct s as [|c r]; [reflexivity|].
    cbn [is_kebab] in H. apply andb_true_iff in H. destruct H as [H Hr].
    apply andb_true_iff in H. destruct H as [Hu Hh].
    apply negb_true_iff in Hu. simpl in Hn.
    cbn [kebabToCamel]. destruct (Ascii.eqb c "-") eqn:Eh.
    + destruct r as [|d r']; [discriminate|]. rewrite Hh.
      destruct (lower_upper d Hh) as (Hup & Hlo).
      cbn [camelToKebab]. rewrite Hup, Hlo.
      apply Ascii.eqb_eq in Eh. subst c.
      cbn [is_kebab] in Hr. apply andb_true_iff in Hr. destruct Hr as [_ Hr'].
      simpl in Hn. rewrite (IH r'); [reflexivity | lia | exact Hr'].
    + cbn [camelToKebab]. rewrite Hu.
      rewrite (IH r); [reflexivity | lia | exact Hr].
Qed.

(** X18. [kebabToCamel] undoes [camelToKebab] on every name without a
    hyphen, and [camelToKebab] is idempotent on such a name;
    [camelToKebab] undoes [kebabToCamel] on every kebab-case name (no
    capital, a lower-case letter after each hyphen); and [kebabToCamel]
    leaves a name unchanged when no hyphen in it is followed by a
    lower-case letter. *)
Theorem action_names_survive_the_round_trip :
  forall name : string,
    (no_hyphen name = true ->
       kebabToCamel (camelToKebab name) = name /\
       camelToKebab (camelToKebab name) = camelToKebab name) /\
    (is_kebab name = true -> camelToKebab (kebabToCamel name) = name) /\
    (no_hyphen_letter name = true -> kebabToCamel name = name).
Proof.
  intros name. split; [|split].
  - intros H. split; [now apply kebabToCamel_of_camelToKebab|].
    clear H. induction name as [|c r IH]; [reflexivity|].
    cbn [camelToKebab]. destruct (is_upper c) eqn:Eu.
    + destruct (upper_lower c Eu) as (Hl & _ & _).
      cbn [camelToKebab]. rewrite hyphen_not_upper.
      assert (Hnu : is_upper (toLowerCase c) = false).
      { revert Eu. destruct c as [[] [] [] [] [] [] [] []]; vm_compute;
          intros H; try discriminate; reflexivity. }
      rewrite Hnu, IH. reflexivity.
    + cbn [camelToKebab]. rewrite Eu, IH. reflexivity.
  - intros H. apply (camelToKebab_of_kebabToCamel_fuel (String.length name));
      [lia | exact H].
  - apply kebabToCamel_fixes.
Qed.

Lemma action_names_survive_the_round_trip_witness :
  camelToKebab "faceApi" = "face-api" /\
  kebabToCamel (camelToKebab "faceApi") = "faceApi" /\
  camelToKebab (kebabToCamel "face-api") = "face-api" /\
  kebabToCamel "faceApi" = "faceApi".
Proof.
  destruct (action_names_survive_the_round_trip "faceApi") as (A & _ & C).
  destruct (action_names_survive_the_round_trip "face-api") as (_ & B & _).
  split; [reflexivity|]. split; [apply A; reflexivity|].
  split; [apply B; reflexivity | apply C; reflexivity].
Defined.

End RoomSessionProofs.
(** ** Muting the camera, and a refused device *)
Module MediaSessionProofs.
Import People Media MediaSession.
Local Open Scope js_scope.

Lemma media_logged_nil (s : Media) : logged [] s = s.
Proof. destruct s. unfold logged. simpl. now rewrite app_nil_r. Qed.

Lemma media_logged_logged (a b : list Effect) (s : Media) :
  logged b (logged a s) = logged (a ++ b) s.
Proof. unfold logged. simpl. now rewrite app_assoc. Qed.

Lemma forEach_effects {A : Type} (f : A -> Effect) (l : list A) :
  forall s : Media,
    forEach (fun x => effect (f x)) l s = Ok tt (logged (map f l) s).
Proof.
  induction l as [|x r IH]; intros s; simpl.
  - unfold ret. now rewrite media_logged_nil.
  - unfold bind, effect at 1, modify. rewrite IH.
    change (mkMediaState (camDisable s) (micDisable s) (devices s) (video s)
              (local_element s) (userMedia s) (connections s) (pending s)
              (log s ++ [f x])) with (logged [f x] s).
    now rewrite media_logged_logged.
Qed.

Lemma effect_logged (e : Effect) (s : Media) :
  effect e s = Ok tt (logged [e] s).
Proof. reflexivity. Qed.

Lemma send_status_logged (s : Media) :
  send_status s
  = Ok tt (logged (status_sent (camDisable s) (micDisable s) (connections s))
             s).
Proof.
  unfold send_status, sendUserMediaMuteStatusByDataConnection, bind, gets.
  apply forEach_effects.
Qed.

(** *** Muting the camera *)

(** X19. With a local stream in place, muting the camera (by
    [muteCamera(true)], or by the toggle while the camera is on) returns
    and does exactly this: it sets the camera flag, stops each video
    track of the local stream, clears the processing interval and sends
    the mute status to every connection.  It asks the device for nothing,
    starts no grab, and replaces or adds no track on any connection. *)
Theorem muting_the_camera_stops_video_and_asks_for_nothing :
  forall (s : Media) (status : option bool) (tracks : MediaStream),
    requested status (camDisable s) = true ->
    video s = Some (Some tracks) ->
    muteCamera status s
    = Ok tt (logged (stops (filter (is_kind Video) tracks)
                     ++ [ClearInterval]
                     ++ status_sent true (micDisable s) (connections s))
               (set_camDisable true s)).
Proof.
  intros s status tracks Hreq Hv. unfold muteCamera.
  rewrite (MediaProofs.bind_Ok _ _ s s (camDisable s)) by reflexivity.
  unfold requested in Hreq. rewrite Hreq.
  set (s0 := set_camDisable true s).
  rewrite (MediaProofs.bind_Ok _ _ s s0 tt) by reflexivity.
  unfold terminateConnectionsVideoAudioMedia.
  rewrite (MediaProofs.bind_Ok _ _ s0 s0 true) by reflexivity.
  cbv iota.
  assert (Ht : terminate_tracks Video s0
               = Ok tt (logged (stops (filter (is_kind Video) tracks)
                                ++ [ClearInterval]) s0)).
  { unfold terminate_tracks.
    rewrite (MediaProofs.bind_Ok _ _ s0 s0 (Some (Some tracks)))
      by (unfold gets; simpl; rewrite Hv; reflexivity).
    rewrite (MediaProofs.bind_Ok _ _ _ _ tt (forEach_effects _ _ s0)).
    rewrite effect_logged, media_logged_logged. reflexivity. }
  rewrite (MediaProofs.bind_Ok _ _ _ _ tt Ht).
  rewrite send_status_logged, media_logged_logged, <- app_assoc. reflexivity.
Qed.

Lemma muting_the_camera_stops_video_and_asks_for_nothing_witness :
  exists s' : Media,
    muteCamera (Some true) example_session = Ok tt s' /\
    log s' = [TrackStop 7; ClearInterval; DataSend 12 true false].
Proof.
  eexists. split.
  - apply (muting_the_camera_stops_video_and_asks_for_nothing
             example_session (Some true) [mkTrack Video 7; mkTrack Audio 8]);
      reflexivity.
  - reflexivity.
Defined.

(** *** The device refuses after an unmute *)

Lemma release_logged (s : Media) (src : option MediaStream) :
  video s = Some src ->
  release s
  = Ok tt (set_userMedia None
             (logged (stops (match src with Some t => t | None => [] end)
                      ++ [ClearInterval]) s)).
Proof.
  intros Hv. unfold release.
  rewrite (MediaProofs.bind_Ok _ _ s s (Some src))
    by (unfold gets; rewrite Hv; reflexivity).
  destruct src as [tracks|].
  - rewrite (MediaProofs.bind_Ok _ _ _ _ tt (forEach_effects _ _ s)).
    rewrite (MediaProofs.bind_Ok _ _ _ _ tt (effect_logged _ _)).
    rewrite media_logged_logged. reflexivity.
  - rewrite (MediaProofs.bind_Ok _ _ s s tt) by reflexivity.
    rewrite (MediaProofs.bind_Ok _ _ _ _ tt (effect_logged _ _)).
    reflexivity.
Qed.

(** X20. Unmuting the camera (devices known, a video element in place, no
    grab pending) and then getting a refusal from the device: the local
    tracks were stopped, the interval cleared, the device asked once and
    the status sent with the camera reported on; after the refusal the
    camera flag is still off-mute, [userMedia] is null, no grab is
    pending, the roster's connections are as they were, no track was
    replaced or added and no notification was emitted.  The callback ends
    with an exception exactly when the page has the local video element
    or the roster is not empty. *)
Theorem refused_device_after_unmute_touches_no_connection :
  forall (s : Media) (d : Devices) (src : option MediaStream)
         (error : JSError),
    devices s = Some d -> video s = Some src -> pending s = [] ->
    let r := unmute_then (Denied error) s in
    let s' := state_of r in
    camDisable s' = false /\ userMedia s' = None /\
    connections s' = connections s /\ pending s' = [] /\
    log s' = log s
             ++ stops (match src with Some t => t | None => [] end)
             ++ [ClearInterval; GetUserMedia true true]
             ++ status_sent false (micDisable s) (connections s)
             ++ (if local_element s then [SetLocalVideo] else []) /\
    throws r = local_element s
               || match connections s with [] => false | _ :: _ => true end.
Proof.
  intros s d src error Hd Hv Hp.
  (* the unmute, up to the suspended grab *)
  set (s0 := set_camDisable false s).
  set (s1 := set_userMedia None
               (logged (stops (match src with Some t => t | None => [] end)
                        ++ [ClearInterval]) s0)).
  set (s2 := logged [GetUserMedia true true] (set_devices (Some d) s1)).
  set (s3 := set_pending [AwaitingDevice (micDisable s)] s2).
  set (s4 := logged (status_sent false (micDisable s) (connections s)) s3).
  assert (Hm : muteCamera (Some false) s = Ok tt s4).
  { unfold muteCamera.
    rewrite (MediaProofs.bind_Ok _ _ s s (camDisable s)) by reflexivity.
    rewrite (MediaProofs.bind_Ok _ _ s s0 tt) by reflexivity.
    unfold terminateConnectionsVideoAudioMedia.
    rewrite (MediaProofs.bind_Ok _ _ s0 s0 false) by reflexivity.
    cbv iota.
    assert (Hbody : (release ;;
                     d0 <- gets devices ;;
                     mic <- gets micDisable ;;
                     started <- caught (grab_begin d0 false ;; ret []) ;;
                     modify (fun st =>
                       set_pending (pending st ++
                         [match started with
                          | Stream _ => AwaitingDevice mic
                          | Message _ => Settled started
                          end]) st)) s0 = Ok tt s3).
    { rewrite (MediaProofs.bind_Ok _ _ s0 s1 tt (release_logged s0 src Hv)).
      rewrite (MediaProofs.bind_Ok _ _ s1 s1 (Some d))
        by (unfold gets; simpl; rewrite Hd; reflexivity).
      rewrite (MediaProofs.bind_Ok _ _ s1 s1 (micDisable s)) by reflexivity.
      rewrite (MediaProofs.bind_Ok _ _ s1 s2 (Stream [])) by reflexivity.
      unfold modify, s3. simpl. rewrite Hp. reflexivity. }
    rewrite (MediaProofs.bind_Ok _ _ s0 s3 tt Hbody).
    rewrite send_status_logged. reflexivity. }
  (* the device answers *)
  set (s5 := set_pending [] s4).
  assert (Hr : unmute_then (Denied error) s
               = if local_element s then
                   Throw (TypeError
                            "The provided value is not of type 'MediaStream'")
                         (logged [SetLocalVideo] s5)
                 else
                   match connections s with
                   | [] => Ok tt s5
                   | _ :: _ =>
                       Throw (TypeError
                                "media.getVideoTracks is not a function") s5
                   end).
  { unfold unmute_then.
    rewrite (MediaProofs.bind_Ok _ _ s s4 tt Hm).
    unfold grab_settles.
    rewrite (MediaProofs.bind_Ok _ _ s4 s4 [AwaitingDevice (micDisable s)])
      by reflexivity.
    rewrite (MediaProofs.bind_Ok _ _ s4 s5 tt) by reflexivity.
    rewrite (MediaProofs.bind_Ok _ _ s5 s5 (Message (grab_catch error)))
      by reflexivity.
    unfold grab_then, streamVideo_local.
    assert (Hl : local_element s5 = local_element s) by reflexivity.
    assert (Hc : connections s5 = connections s) by reflexivity.
    unfold bind, gets. rewrite Hl.
    destruct (local_element s); [reflexivity|].
    unfold ret at 1. rewrite Hc. destruct (connections s); reflexivity. }
  assert (H5 : camDisable s5 = false /\ userMedia s5 = None /\
               connections s5 = connections s /\ pending s5 = [] /\
               log s5 = log s
                        ++ stops (match src with Some t => t | None => [] end)
                        ++ [ClearInterval; GetUserMedia true true]
                        ++ status_sent false (micDisable s) (connections s)).
  { repeat split. simpl. rewrite <- !app_assoc. reflexivity. }
  destruct H5 as (A & B & C & D & E).
  cbn zeta. rewrite Hr. clear Hr Hm. clearbody s5. clear s4 s3 s2 s1 s0.
  destruct (local_element s).
  - simpl. rewrite E, <- !app_assoc. repeat split; assumption.
  - set (r := match connections s with
              | [] => Ok tt s5
              | _ :: _ => _
              end).
    assert (Hs : state_of r = s5) by (unfold r; now destruct (connections s)).
    assert (Ht : throws r = match connections s with
                            | [] => false | _ :: _ => true end)
      by (unfold r; now destruct (connections s)).
    rewrite Hs, Ht, E, app_nil_r. repeat split; assumption.
Qed.

Lemma refused_device_after_unmute_touches_no_connection_witness :
  let r := unmute_then (Denied (mkError (Some "NotReadableError") "busy"))
             example_session in
  throws r = true /\
  log (state_of r)
  = [TrackStop 7; TrackStop 8; ClearInterval; GetUserMedia true true;
     DataSend 12 false false; SetLocalVideo] /\
  connections (state_of r) = connections example_session.
Proof.
  intros r.
  destruct (refused_device_after_unmute_touches_no_connection example_session
              (mkDevices "cam0" "mic0")
              (Some [mkTrack Video 7; mkTrack Audio 8])
              (mkError (Some "NotReadableError") "busy")
              eq_refl eq_refl eq_refl) as (_ & _ & Hc & _ & Hl & Ht).
  split; [exact Ht|]. split; [exact Hl | exact Hc].
Defined.

(** *** A second renegotiation pass *)

Lemma sends_first_track (k : Kind) (media : MediaStream) :
  sends k (Some (first_track k media)) = true.
Proof.
  unfold first_track, sends.
  destruct (find (is_kind k) media) as [t|] eqn:Hf.
  - apply find_some in Hf. destruct Hf as [_ Hk]. unfold is_kind in Hk.
    destruct k, (kind t); try discriminate; reflexivity.
  - destruct k; reflexivity.
Qed.

Lemma sends_one_kind (x : Sender) :
  sends Audio x = true -> sends Video x = false.
Proof.
  destruct x as [t|]; simpl; [|discriminate]. destruct (kind t);
    [discriminate | reflexivity].
Qed.

Lemma findIndex_has (k : Kind) (l : list Sender) :
  has_sender k l = true -> findIndex (sends k) l <> None.
Proof.
  unfold has_sender. induction l as [|x r IH]; simpl; [discriminate|].
  destruct (sends k x); [discriminate|]. simpl. intros H.
  destruct (findIndex (sends k) r); [discriminate | now apply IH].
Qed.

Lemma has_replace_at (k : Kind) (t : Track) (l : list Sender) :
  forall i : nat,
    i < List.length l -> sends k (Some t) = true ->
    has_sender k (replace_at i t l) = true.
Proof.
  unfold has_sender. induction l as [|x r IH]; intros [|i] Hi Ht;
    simpl in *; try lia.
  - now rewrite Ht.
  - rewrite (IH i); [apply orb_true_r | lia | exact Ht].
Qed.

Lemma has_replace_other (k : Kind) (t : Track) (l : list Sender) :
  forall (i : nat) (x : Sender),
    nth_error l i = Some x -> sends k x = false ->
    has_sender k l = true -> has_sender k (replace_at i t l) = true.
Proof.
  unfold has_sender. induction l as [|y r IH]; intros [|i] x Hx Hs H;
    simpl in *; try discriminate.
  - injection Hx as ->. rewrite Hs in H. simpl in H. rewrite H.
    apply orb_true_r.
  - destruct (sends k y); [reflexivity|]. simpl in *.
    apply (IH i x Hx Hs H).
Qed.

Lemma nth_error_replace_other (t : Track) (l : list Sender) :
  forall i j : nat,
    i <> j -> nth_error (replace_at i t l) j = nth_error l j.
Proof.
  induction l as [|y r IH]; intros [|i] [|j] Hij; simpl; try reflexivity;
    try lia.
  apply IH. lia.
Qed.

Lemma replace_at_length (t : Track) (l : list Sender) (i : nat) :
  List.length (replace_at i t l) = List.length l.
Proof.
  revert i. induction l as [|y r IH]; intros [|i]; simpl; auto.
Qed.

Lemma senders_after_a_pass (media : MediaStream) (c : Connection) :
  has_sender Video (senders (mediaConnection (reset_connection media c)))
    = true /\
  has_sender Audio (senders (mediaConnection (reset_connection media c)))
    = true.
Proof.
  unfold reset_connection. cbn zeta.
  set (snapshot := senders (mediaConnection c)).
  set (tv := first_track Video media). set (ta := first_track Audio media).
  simpl senders.
  pose proof (sends_first_track Video media) as Hv. fold tv in Hv.
  pose proof (sends_first_track Audio media) as Ha. fold ta in Ha.
  set (l := with_track snapshot Video tv snapshot).
  assert (Hl : has_sender Video l = true /\
               List.length snapshot <= List.length l /\
               forall j x, nth_error snapshot j = Some x ->
                           sends Video x = false ->
                           nth_error l j = Some x).
  { unfold l, with_track.
    destruct (findIndex (sends Video) snapshot) as [iv|] eqn:Ev.
    - destruct (PeopleProofs.findIndex_Some _ _ _ Ev) as (y & Hy & Fy & _).
      assert (Hlt : iv < List.length snapshot)
        by (apply nth_error_Some; congruence).
      split; [now apply has_replace_at|].
      split; [rewrite replace_at_length; lia|].
      intros j x Hx Hs. rewrite nth_error_replace_other; [exact Hx|].
      intros ->. congruence.
    - split; [unfold has_sender; rewrite existsb_app; cbn [existsb];
              rewrite Hv; apply orb_true_r|].
      split; [rewrite length_app; lia|].
      intros j x Hx _. rewrite nth_error_app1; [exact Hx|].
      apply nth_error_Some. congruence. }
  destruct Hl as (Hhas & Hlen & Hkeep).
  unfold with_track at 1 2.
  destruct (findIndex (sends Audio) snapshot) as [ia|] eqn:Ea.
  - destruct (PeopleProofs.findIndex_Some _ _ _ Ea) as (x & Hx & Fx & _).
    assert (Hlt : ia < List.length l).
    { assert (ia < List.length snapshot)
        by (apply nth_error_Some; congruence). lia. }
    split.
    + apply (has_replace_other Video ta l ia x);
        [apply Hkeep; [exact Hx | now apply sends_one_kind]
        | now apply sends_one_kind | exact Hhas].
    + now apply has_replace_at.
  - unfold has_sender in *. rewrite !existsb_app. cbn [existsb].
    rewrite Hhas, Ha. split; [reflexivity | apply orb_true_r].
Qed.

Lemma renegotiate_replaces (k : Kind) (c : Connection) :
  has_sender k (senders (mediaConnection c)) = true ->
  is_add (renegotiate k c) = false.
Proof.
  intros H. apply findIndex_has in H. unfold renegotiate.
  destruct (findIndex (sends k) (senders (mediaConnection c)));
    [reflexivity | contradiction].
Qed.

Lemma reset_pass_roster (media : MediaStream) (s : Media) :
  exists s' : Media,
    resetConnectionsVideoAudioMedia media s = Ok tt s' /\
    connections s' = map (reset_connection media) (connections s) /\
    log s' = log s ++
      flat_map (renegotiation (camDisable s) (micDisable s)) (connections s).
Proof.
  unfold resetConnectionsVideoAudioMedia. unfold bind at 1. unfold gets at 1.
  cbn beta iota.
  destruct (MediaProofs.forEach_renegotiation (connections s) s)
    as (s' & Hs' & Hlog & _).
  unfold bind at 1. rewrite Hs'. unfold modify. eexists.
  split; [reflexivity|]. simpl. split; [reflexivity | exact Hlog].
Qed.

(** X26. Two renegotiation passes with complete streams both return.
    The second one makes, like the first, two replace-or-add calls per
    connection, and none of them is an add: once a pass has run, every
    connection has a sender for video and one for audio, so later passes
    only replace tracks. *)
Theorem a_later_renegotiation_only_replaces :
  forall (s : Media) (media media' : MediaStream),
    complete media = true -> complete media' = true ->
    exists (s2 : Media) (first second : list Effect),
      two_passes media media' s = Ok tt s2 /\
      log s2 = log s ++ first ++ second /\
      first = flat_map (renegotiation (camDisable s) (micDisable s))
                       (connections s) /\
      List.length (track_ops second) = 2 * List.length (connections s) /\
      filter is_add second = [].
Proof.
  intros s media media' _ _.
  destruct (reset_pass_roster media s) as (s1 & H1 & Hc1 & Hl1).
  destruct (reset_pass_roster media' s1) as (s2 & H2 & _ & Hl2).
  exists s2. eexists. eexists.
  split; [unfold two_passes; rewrite (MediaProofs.bind_Ok _ _ s s1 tt H1);
          exact H2|].
  split; [rewrite Hl2, Hl1, <- app_assoc; reflexivity|].
  split; [reflexivity|]. rewrite Hc1. split.
  - rewrite MediaProofs.track_ops_pass.
    generalize (connections s). intros l.
    induction l as [|c r IH]; simpl; [reflexivity | rewrite IH; lia].
  - generalize (connections s). intros l.
    induction l as [|c r IH]; [reflexivity|].
    simpl map. simpl flat_map. unfold renegotiation at 1.
    destruct (senders_after_a_pass media c) as [Hv Ha].
    simpl. rewrite (renegotiate_replaces Video _ Hv),
                   (renegotiate_replaces Audio _ Ha).
    exact IH.
Qed.

Lemma a_later_renegotiation_only_replaces_witness :
  let bare := mkConnection "p5" "p5" (mkMedia 51 "p5" []) (mkData 52 "p5")
                true false false false false (Some "Eve") (Some false) in
  let s := mkMediaState false false (Some (mkDevices "cam0" "mic0"))
             (Some None) true None [bare] [] [] in
  exists s2 : Media,
    two_passes [canvas_track; mkTrack Audio 8] [canvas_track; mkTrack Audio 9]
      s = Ok tt s2 /\
    track_ops (log s2)
    = [AddTrack 51 Video; AddTrack 51 Audio;
       ReplaceTrack 51 0 Video; ReplaceTrack 51 1 Audio].
Proof.
  intros bare s.
  destruct (a_later_renegotiation_only_replaces s
              [canvas_track; mkTrack Audio 8] [canvas_track; mkTrack Audio 9]
              eq_refl eq_refl) as (s2 & first & second & H & _).
  exists s2. split; [exact H|].
  assert (E : two_passes [canvas_track; mkTrack Audio 8]
                [canvas_track; mkTrack Audio 9] s
              = Ok tt (state_of (two_passes [canvas_track; mkTrack Audio 8]
                                   [canvas_track; mkTrack Audio 9] s)))
    by reflexivity.
  rewrite E in H. injection H as <-. reflexivity.
Defined.

End MediaSessionProofs.
(** ** The play handlers and the face-detector callbacks *)
Module MediaRegistryProofs.
Import MediaRegistry.

Lemma setEvent_play_is_an_array (name : string) (handler : option nat)
    (section : string) (events : option Sections) :
  (exists e items, events = Some e /\ e "play" = Some items) ->
  exists e items,
    setEvent name handler section events = Some e /\ e "play" = Some items.
Proof.
  intros (e & items & -> & Hp). unfold setEvent.
  eexists. destruct (String.eqb "play" section) eqn:E.
  - eexists. split; [reflexivity|]. cbn beta. rewrite E. reflexivity.
  - exists items. split; [reflexivity|]. cbn beta. rewrite E. exact Hp.
Qed.

Lemma setEvents_play_is_an_array (calls : list (string * option nat * string)) :
  forall events : option Sections,
    (exists e items, events = Some e /\ e "play" = Some items) ->
    exists e items,
      setEvents calls events = Some e /\ e "play" = Some items.
Proof.
  induction calls as [|c r IH]; intros events H; [exact H|].
  apply IH. apply setEvent_play_is_an_array. exact H.
Qed.

Lemma set_nth_length {A : Type} (index : nat) (item : A) (l : list A) :
  List.length (set_nth index item l) = List.length l.
Proof.
  revert index. induction l as [|x r IH]; intros [|i]; simpl; auto.
Qed.

Lemma findIndex_set_nth (name : string) (handler : option nat)
    (items : list EventItem) (index : nat) :
  findIndex (fun x => String.eqb (e_name x) name) items = Some index ->
  find (fun x => String.eqb (e_name x) name)
       (set_nth index (mkEventItem name handler) items)
  = Some (mkEventItem name handler) /\
  map e_name (set_nth index (mkEventItem name handler) items)
  = map e_name items.
Proof.
  revert index. induction items as [|x r IH]; intros index H; simpl in H;
    [discriminate|].
  destruct (String.eqb (e_name x) name) eqn:E.
  - injection H as <-. simpl. rewrite String.eqb_refl.
    apply String.eqb_eq in E. now rewrite E.
  - destruct (findIndex _ r) as [i|] eqn:Ef; [|discriminate].
    injection H as <-. simpl. rewrite E.
    destruct (IH i eq_refl) as [H1 H2]. now rewrite H1, H2.
Qed.

Lemma find_snoc (name : string) (handler : option nat)
    (items : list EventItem) :
  findIndex (fun x => String.eqb (e_name x) name) items = None ->
  find (fun x => String.eqb (e_name x) name)
       (items ++ [mkEventItem name handler])
  = Some (mkEventItem name handler).
Proof.
  induction items as [|x r IH]; simpl; intros H.
  - now rewrite String.eqb_refl.
  - destruct (String.eqb (e_name x) name); [discriminate|].
    destruct (findIndex _ r); [discriminate|]. now apply IH.
Qed.

(** X21. After [Media.setup] and any sequence of [setEvent] calls, a
    handler set for a name in the play section is the one stored under
    that name (the last one set wins), and the play listener of
    [streamVideo] returns without calling any handler.  In no state at all
    does that listener call a handler: it returns having called none, or
    it throws. *)
Theorem play_handlers_are_stored_but_never_called :
  forall (calls : list (string * option nat * string))
         (name : string) (handler : option nat),
    let events := setEvent name handler "play"
                    (setEvents calls initial_events) in
    (exists e items,
       events = Some e /\ e "play" = Some items /\
       find (fun x => String.eqb (e_name x) name) items
         = Some (mkEventItem name handler)) /\
    play_listener events = Ok [] tt /\
    forall any : option Sections,
      match play_listener any with
      | Ok called _ => called = []
      | Throw _ _ => True
      end.
Proof.
  intros calls name handler events.
  destruct (setEvents_play_is_an_array calls initial_events)
    as (e0 & items0 & He0 & Hp0).
  { eexists. eexists. split; reflexivity. }
  assert (Hev : exists e items,
            events = Some e /\ e "play" = Some items /\
            find (fun x => String.eqb (e_name x) name) items
              = Some (mkEventItem name handler)).
  { unfold events. rewrite He0. unfold setEvent. rewrite Hp0.
    eexists. eexists. split; [reflexivity|]. cbn beta.
    rewrite String.eqb_refl. split; [reflexivity|].
    destruct (findIndex _ items0) as [index|] eqn:Ef.
    - apply (findIndex_set_nth name handler items0 index Ef).
    - apply find_snoc. exact Ef. }
  split; [exact Hev|]. split.
  - destruct Hev as (e & items & -> & Hp & _).
    unfold play_listener. rewrite Hp. reflexivity.
  - intros [e|]; simpl; [|exact I].
    destruct (e "play"); simpl; [reflexivity | exact I].
Qed.

(** *** The face-detector callbacks *)

Lemma set_nth_same_name (l : list Callback) :
  forall (index : nat) (c c' : Callback),
    nth_error l index = Some c -> cb_name c' = cb_name c ->
    map cb_name (set_nth index c' l) = map cb_name l /\
    (enable c' = enable c ->
     map cb_name (filter enable (set_nth index c' l))
     = map cb_name (filter enable l)).
Proof.
  induction l as [|x r IH]; intros [|i] c c' Hn Hname; simpl in *;
    try discriminate.
  - injection Hn as ->. split; [now rewrite Hname|].
    intros ->. destruct (enable c); simpl; now rewrite ?Hname.
  - destruct (IH i c c' Hn Hname) as [H1 H2]. split; [now rewrite H1|].
    intros He. destruct (enable x); simpl; now rewrite (H2 He).
Qed.

Lemma names_snoc_NoDup (l : list Callback) (c : Callback) :
  NoDup (map cb_name l) ->
  findIndex (fun x => String.eqb (cb_name x) (cb_name c)) l = None ->
  NoDup (map cb_name (l ++ [c])).
Proof.
  intros Hnd Hf. rewrite map_app. simpl.
  assert (Hn : ~ In (cb_name c) (map cb_name l)).
  { intros Hin. apply in_map_iff in Hin. destruct Hin as (x & Hx & Hin).
    apply (proj1 (PeopleProofs.findIndex_None _ _) Hf) in Hin.
    simpl in Hin. rewrite Hx, String.eqb_refl in Hin. discriminate. }
  clear Hf. induction (map cb_name l) as [|y r IH]; simpl.
  - constructor; [intros []|constructor].
  - inversion Hnd as [|? ? Hy Hr]; subst. constructor.
    + intros Hin. apply in_app_or in Hin. destruct Hin as [Hin|[<-|[]]].
      * contradiction.
      * apply Hn. now left.
    + apply IH; [exact Hr|]. intros Hin. apply Hn. now right.
Qed.

Lemma register_spec (name : string) (cb : nat) (l : list Callback) :
  let r := registerFaceDetectorCallback name cb l in
  (NoDup (map cb_name l) -> NoDup (map cb_name (fst r))) /\
  map cb_name (faceDetectorCallbacks (fst r))
    = map cb_name (faceDetectorCallbacks l) /\
  exists c, nth_error (fst r) (snd r) = Some c /\
            cb_name c = name /\ callback c = cb /\
            enable c = match entry name l with
                       | Some old => enable old
                       | None => false
                       end /\
            entry name (fst r) = Some c.
Proof.
  unfold registerFaceDetectorCallback, entry, faceDetectorCallbacks.
  destruct (findIndex (fun c => String.eqb (cb_name c) name) l)
    as [index|] eqn:Ef; cbn zeta.
  - destruct (PeopleProofs.findIndex_Some _ _ _ Ef) as (c & Hc & Fc & _).
    apply String.eqb_eq in Fc. rewrite Hc. simpl fst. simpl snd.
    destruct (set_nth_same_name l index c (mkCallback (cb_name c) (enable c) cb)
                Hc eq_refl) as [H1 H2].
    split; [now rewrite H1|]. split; [now apply H2|].
    exists (mkCallback (cb_name c) (enable c) cb). simpl.
    clear H1 H2.
    revert index Ef Hc. induction l as [|x r IH]; intros index Ef Hc;
      simpl in Ef; [discriminate|].
    destruct (String.eqb (cb_name x) name) eqn:E.
    + injection Ef as <-. simpl in Hc. injection Hc as ->. simpl.
      rewrite E. repeat split; assumption.
    + destruct (findIndex _ r) as [i|] eqn:Er; [|discriminate].
      injection Ef as <-. simpl in Hc. simpl. rewrite E.
      destruct (IH i eq_refl Hc) as (A & B & C & D & F).
      repeat split; assumption.
  - simpl fst. simpl snd. split.
    + intros Hnd. apply names_snoc_NoDup; [exact Hnd | exact Ef].
    + split.
      * rewrite filter_app. simpl. now rewrite app_nil_r.
      * exists (mkCallback name false cb). simpl.
        assert (Hfind : find (fun c => String.eqb (cb_name c) name) l = None).
        { clear -Ef. induction l as [|x r IH]; simpl in *; [reflexivity|].
          destruct (String.eqb (cb_name x) name); [discriminate|].
          destruct (findIndex _ r); [discriminate | now apply IH]. }
        rewrite Hfind. repeat split.
        -- clear. induction l as [|x r IH]; simpl; [reflexivity | exact IH].
        -- clear -Hfind. induction l as [|x r IH]; simpl in *.
           ++ now rewrite String.eqb_refl.
           ++ destruct (String.eqb (cb_name x) name); [discriminate|].
              now apply IH.
Qed.

Lemma set_enable_names (index : nat) (status : bool) (l : list Callback) :
  map cb_name (set_enable index status l) = map cb_name l.
Proof.
  unfold set_enable. destruct (nth_error l index) as [c|] eqn:Hc;
    [|reflexivity].
  exact (proj1 (set_nth_same_name l index c
                  (mkCallback (cb_name c) status (callback c)) Hc eq_refl)).
Qed.

Lemma names_NoDup_exec (calls : list Call) :
  forall l : list Callback,
    NoDup (map cb_name l) -> NoDup (map cb_name (exec calls l)).
Proof.
  induction calls as [|c r IH]; intros l H; [exact H|].
  change (exec (c :: r) l) with (exec r (call c l)). apply IH.
  destruct c as [name cb|index status]; simpl.
  - apply (register_spec name cb l). exact H.
  - now rewrite set_enable_names.
Qed.

(** X22. After any sequence of registrations and of enable-flag changes
    by the owners of the returned entries, starting with no callback:
    [registerFaceDetectorCallback(name, callback)] leaves one entry per
    name; the entry it returns is the entry of that name and has the new
    callback; its enable flag is the one the name had before, or false
    for a new name; and the names of the callbacks that run on a detected
    face are the same before and after. *)
Theorem registering_a_face_callback_keeps_what_is_enabled :
  forall (calls : list Call) (name : string) (cb : nat),
    let l := exec calls [] in
    let r := registerFaceDetectorCallback name cb l in
    NoDup (map cb_name (fst r)) /\
    map cb_name (faceDetectorCallbacks (fst r))
      = map cb_name (faceDetectorCallbacks l) /\
    exists c, nth_error (fst r) (snd r) = Some c /\
              cb_name c = name /\ callback c = cb /\
              enable c = match entry name l with
                         | Some old => enable old
                         | None => false
                         end /\
              entry name (fst r) = Some c.
Proof.
  intros calls name cb l r.
  destruct (register_spec name cb l) as (A & B & C).
  split; [|split; assumption].
  apply A. apply names_NoDup_exec. constructor.
Qed.

End MediaRegistryProofs.

(** ** Data from a peer *)
Module PeerDataProofs.
Import Events PeerData.
Local Open Scope js_scope.

Lemma lookup_set_same (key : string) (v : Value) (fields : Fields) :
  lookup key (set_field key v fields) = v.
Proof.
  induction fields as [|k x rest IH]; simpl.
  - now rewrite String.eqb_refl.
  - destruct (String.eqb k key) eqn:E; simpl; rewrite E; [reflexivity | exact IH].
Qed.

Lemma lookup_set_other (key k : string) (v : Value) (fields : Fields) :
  k <> key -> lookup k (set_field key v fields) = lookup k fields.
Proof.
  intros Hne. induction fields as [|k0 x rest IH]; simpl.
  - destruct (String.eqb_spec key k) as [->|_]; [contradiction | reflexivity].
  - destruct (String.eqb k0 key) eqn:E; simpl.
    + apply String.eqb_eq in E. subst k0.
      destruct (String.eqb_spec key k) as [->|_]; [contradiction | reflexivity].
    + destruct (String.eqb k0 k); [reflexivity | exact IH].
Qed.

(** X23. When an object arrives on the data channel of a connection, the
    handler registered first for its event name (or for "unknown" when
    the name is missing or empty) is called with that object in which
    [peerJsId] is the peer id of the connection, whatever the sender put
    there, and every other field is as sent; its return value is the
    result. *)
Theorem inbound_peer_data_is_stamped_with_its_sender :
  forall (s : Events) (peer : string) (fields : Fields) (e : string)
         (r : Registration) (f : Value -> Value),
    event_name (lookup "event" fields) = Some e ->
    find (matches "peerJsData" e) (events s) = Some r ->
    method r = Function f ->
    let stamped := VObj (set_field "peerJsId" (VStr peer) fields) in
    on_data peer (VObj fields) s = Ok (f stamped) s /\
    field "peerJsId" stamped = VStr peer /\
    forall k : string, k <> "peerJsId" -> field k stamped = field k (VObj fields).
Proof.
  intros s peer fields e r f He Hfind Hm stamped.
  assert (Hother : forall k : string,
            k <> "peerJsId" -> field k stamped = field k (VObj fields)).
  { intros k Hk. apply lookup_set_other. exact Hk. }
  split; [|split; [apply lookup_set_same | exact Hother]].
  unfold on_data. fold stamped.
  rewrite (Hother "event") by discriminate. cbn [field]. rewrite He.
  unfold executeHandler, bind, gets. rewrite Hfind.
  destruct r as [ty ev m]. simpl in Hm. subst m. reflexivity.
Qed.

Lemma inbound_peer_data_is_stamped_with_its_sender_witness :
  let s := mkEvents [mkRegistration "peerJsData" "muteMedia"
                       (Function (field "peerJsId"))] false [] in
  let forged := with_field "event" (VStr "muteMedia")
                  (with_field "peerJsId" (VStr "p1") no_fields) in
  on_data "p2" (VObj forged) s = Ok (VStr "p2") s.
Proof.
  intros s forged.
  destruct (inbound_peer_data_is_stamped_with_its_sender s "p2" forged
              "muteMedia" _ (field "peerJsId") eq_refl eq_refl eq_refl)
    as (H & _ & _).
  exact H.
Defined.

End PeerDataProofs.

(** ** The recording flag *)
Module RecordScreenProofs.
Import People RecordScreen.

Lemma findIndex_ext {A : Type} (f : A -> bool) (l l' : list A) :
  map f l' = map f l -> findIndex f l' = findIndex f l.
Proof.
  revert l'. induction l as [|x r IH]; intros [|y r'] H; simpl in *;
    try discriminate; [reflexivity|].
  injection H as Hx Hr. rewrite Hx, (IH r' Hr). reflexivity.
Qed.

Lemma update_first_spec (peer : string) (b : bool) (l : list Connection) :
  map peerJsId
      (update_first (fun x => String.eqb (peerJsId x) peer) (set_record b) l)
    = map peerJsId l /\
  Roster.others peer
      (update_first (fun x => String.eqb (peerJsId x) peer) (set_record b) l)
    = Roster.others peer l /\
  forall c : Connection,
    find (fun x => String.eqb (peerJsId x) peer) l = Some c ->
    find (fun x => String.eqb (peerJsId x) peer)
         (update_first (fun x => String.eqb (peerJsId x) peer)
                       (set_record b) l) = Some (set_record b c) /\
    (creator_records (set_record b c) = creator_records c ->
     map creator_records
         (update_first (fun x => String.eqb (peerJsId x) peer)
                       (set_record b) l)
     = map creator_records l).
Proof.
  induction l as [|x r IH]; simpl.
  - split; [reflexivity|]. split; [reflexivity|]. intros c Hc. discriminate.
  - destruct (String.eqb (peerJsId x) peer) eqn:E; simpl.
    + unfold Roster.others. simpl. rewrite E. simpl.
      split; [reflexivity|]. split; [reflexivity|].
      intros c Hc. injection Hc as <-. split.
      * reflexivity.
      * intros ->. reflexivity.
    + destruct IH as (H1 & H2 & H3). unfold Roster.others in *. simpl.
      rewrite E. simpl. rewrite H1, H2.
      split; [reflexivity|]. split; [reflexivity|].
      intros c Hc. destruct (H3 c Hc) as [A B].
      split; [exact A|]. intros Hk. now rewrite (B Hk).
Qed.

(** X24. [RecordScreen.setStatus] for a peer and a boolean recording
    status keeps the roster's peer ids and the entries of every other
    peer.  For a peer that is not in the roster it changes nothing and
    emits nothing.  Otherwise it sets the record flag of the first entry
    of that peer and emits one [onScreenRecordStateChange]; if that entry
    is not a room creator's, [isRecordingScreen] answers as before. *)
Theorem only_a_creator_changes_the_recording_indicator :
  forall (connections : list Connection) (peer : string) (record : bool),
    let r := setStatus peer record connections in
    map peerJsId (fst r) = map peerJsId connections /\
    Roster.others peer (fst r) = Roster.others peer connections /\
    match find (fun x => String.eqb (peerJsId x) peer) connections with
    | None => r = (connections, [])
    | Some c =>
        snd r = [Emit "onScreenRecordStateChange" record] /\
        find (fun x => String.eqb (peerJsId x) peer) (fst r)
          = Some (set_record record c) /\
        (isCreator c <> Some true ->
         isRecordingScreen (fst r) = isRecordingScreen connections)
    end.
Proof.
  intros connections peer record r. unfold r, setStatus.
  destruct (update_first_spec peer record connections) as (H1 & H2 & H3).
  destruct (find (fun x => String.eqb (peerJsId x) peer) connections)
    as [c|] eqn:Hf; simpl.
  - split; [exact H1|]. split; [exact H2|]. split; [reflexivity|].
    destruct (H3 c eq_refl) as [A B]. split; [exact A|].
    intros Hnc. unfold isRecordingScreen.
    rewrite (findIndex_ext creator_records connections); [reflexivity|].
    apply B. unfold creator_records. simpl.
    destruct (isCreator c) as [[|]|]; try reflexivity. congruence.
  - repeat split.
Qed.


Lemma only_a_creator_changes_the_recording_indicator_witness :
  let roster := connections example_roster in
  isRecordingScreen (fst (setStatus "p2" true roster))
    = isRecordingScreen roster /\
  isRecordingScreen (fst (setStatus "p1" true roster)) = true.
Proof.
  intros roster. split; [|reflexivity].
  pose proof (only_a_creator_changes_the_recording_indicator roster "p2" true)
    as (_ & _ & H).
  simpl in H. destruct H as (_ & _ & H). apply H. discriminate.
Defined.


End RecordScreenProofs.

(** ** The users of an action *)
Module ActionHelperProofs.
Import Events ActionHelper.

Lemma filter_filter {A : Type} (f : A -> bool) (l : list A) :
  filter f (filter f l) = filter f l.
Proof.
  induction l as [|x r IH]; simpl; [reflexivity|].
  destruct (f x) eqn:E; simpl; rewrite ?E, IH; reflexivity.
Qed.

(** X25. The users that [setUsers] stores are all objects with a
    [peerJsId] property; normalising them again changes nothing.  An array
    is filtered, in order; a string becomes the one user with that peer
    id; any other value that is not such an object gives no user. *)
Theorem action_users_are_objects_with_a_peer_id :
  forall users : Users,
    Forall (fun item => addressable item = true) (setUsers users) /\
    setUsers (UArray (setUsers users)) = setUsers users /\
    (forall items, users = UArray items ->
       setUsers users = filter addressable items) /\
    (forall p, users = UValue (VStr p) ->
       setUsers users
       = [VObj (with_field "peerJsId" (VStr p) no_fields)]) /\
    (forall v, users = UValue v -> addressable v = false ->
       (forall p, v <> VStr p) -> setUsers users = []).
Proof.
  intros users. split; [|split; [|split; [|split]]].
  - unfold setUsers. apply Forall_forall. intros x Hx.
    apply filter_In in Hx. apply Hx.
  - unfold setUsers at 1. cbn zeta iota. unfold setUsers.
    apply filter_filter.
  - intros items ->. reflexivity.
  - intros p ->. reflexivity.
  - intros v -> Hv Hs. unfold setUsers.
    destruct v; simpl in *; try reflexivity.
    + exfalso. apply (Hs s). reflexivity.
    + now rewrite Hv.
Qed.


Lemma action_users_are_objects_with_a_peer_id_witness :
  setUsers (UValue (VStr "p1"))
    = [VObj (with_field "peerJsId" (VStr "p1") no_fields)] /\
  setUsers (UValue VNull) = [].
Proof.
  split.
  - destruct (action_users_are_objects_with_a_peer_id (UValue (VStr "p1")))
      as (_ & _ & _ & H & _).
    apply (H "p1"). reflexivity.
  - destruct (action_users_are_objects_with_a_peer_id (UValue VNull))
      as (_ & _ & _ & _ & H).
    apply (H VNull); [reflexivity | reflexivity | discriminate].
Defined.


End ActionHelperProofs.
(** ** The handlers of the server's events *)
Module EventHandlersProofs.
Import Events EventHandlers.
Local Open Scope js_scope.

Lemma in_waiting_Ok {A : Type} (m : M WaitingList.WaitingList A) (s : Parent)
    (a : A) (w : WaitingList.WaitingList) :
  m (waiting s) = Ok a w ->
  in_waiting m s = Ok a (mkParent (roster s) w (emitted s)).
Proof. intros H. unfold in_waiting. now rewrite H. Qed.

Lemma admit_new (data : Value) (s : Parent) :
  WaitingList.addToWaitingList data (waiting s)
    = Ok tt (waiting s ++ [data]) ->
  _handleAdmitUserToJoin data s
  = Ok tt (mkParent (roster s) (waiting s ++ [data])
             (emitted s ++ [("onAdmissionRequest", data)])).
Proof.
  intros H. unfold _handleAdmitUserToJoin, bind.
  rewrite (in_waiting_Ok _ s tt _ H). reflexivity.
Qed.

(** X15. For a descriptor whose peer id is a primitive that no entry of
    the waiting list (a list of descriptors) carries: the admission
    handler appends it and announces the request; an admission request
    followed by its cancellation leaves the waiting list as it was, with
    both announced; and a repeated admission request is announced again
    but stored once. *)
Theorem admission_then_cancel_restores_the_waiting_list :
  forall (data : Value) (s : Parent),
    Forall (fun x => WaitingList.nullish x = false) (waiting s) ->
    WaitingList.nullish data = false ->
    WaitingList.is_peer (field "peerJsId" data) data = true ->
    Forall (fun x => WaitingList.is_peer (field "peerJsId" data) x = false)
           (waiting s) ->
    _handleAdmitUserToJoin data s
      = Ok tt (mkParent (roster s) (waiting s ++ [data])
                 (emitted s ++ [("onAdmissionRequest", data)])) /\
    (_handleAdmitUserToJoin data ;; _handleRemoveUserFromWaitingList data) s
      = Ok tt (mkParent (roster s) (waiting s)
                 (emitted s ++ [("onAdmissionRequest", data);
                                ("onAdmissionCancel", data)])) /\
    (_handleAdmitUserToJoin data ;; _handleAdmitUserToJoin data) s
      = Ok tt (mkParent (roster s) (waiting s ++ [data])
                 (emitted s ++ [("onAdmissionRequest", data);
                                ("onAdmissionRequest", data)])).
Proof.
  intros data s Hl Hd Hp Hf.
  destruct (WaitingListProofs.add_then_cancel data (waiting s) Hl Hd Hp Hf)
    as (Ha & Hcancel & Hagain).
  pose proof (admit_new data s Ha) as H1.
  split; [exact H1|]. split.
  - unfold bind at 1. rewrite H1.
    set (s1 := mkParent (roster s) (waiting s ++ [data])
                 (emitted s ++ [("onAdmissionRequest", data)])).
    unfold _handleRemoveUserFromWaitingList, peerJsId_of. rewrite Hd.
    unfold bind at 1. unfold ret at 1.
    unfold bind at 1 in Hcancel. rewrite Ha in Hcancel.
    unfold bind at 1.
    rewrite (in_waiting_Ok
               (WaitingList.removeFromWaitingListByPeerJsId
                  (field "peerJsId" data)) s1 tt (waiting s) Hcancel).
    unfold emit, modify. simpl. rewrite <- app_assoc. reflexivity.
  - unfold bind at 1. rewrite H1.
    set (s1 := mkParent (roster s) (waiting s ++ [data])
                 (emitted s ++ [("onAdmissionRequest", data)])).
    unfold bind at 1 in Hagain. rewrite Ha in Hagain.
    unfold _handleAdmitUserToJoin. unfold bind at 1.
    rewrite (in_waiting_Ok (WaitingList.addToWaitingList data) s1 tt
               (waiting s ++ [data]) Hagain).
    unfold emit, modify. simpl. rewrite <- app_assoc. reflexivity.
Qed.

Lemma admission_then_cancel_restores_the_waiting_list_witness :
  let s := mkParent People.example_roster [WaitingList.descriptor "p7" "Gil"]
             [] in
  let data := WaitingList.descriptor "p8" "Hal" in
  (_handleAdmitUserToJoin data ;; _handleRemoveUserFromWaitingList data) s
  = Ok tt (mkParent People.example_roster [WaitingList.descriptor "p7" "Gil"]
             [("onAdmissionRequest", data); ("onAdmissionCancel", data)]).
Proof.
  intros s data.
  assert (Hl : Forall (fun x => WaitingList.nullish x = false) (waiting s))
    by (repeat constructor).
  assert (Hf : Forall (fun x => WaitingList.is_peer (field "peerJsId" data) x
                                = false) (waiting s))
    by (repeat constructor).
  exact (proj1 (proj2 (admission_then_cancel_restores_the_waiting_list
                         data s Hl eq_refl eq_refl Hf))).
Defined.

(** *** A peer leaves *)

Lemma in_roster_Ok {A : Type} (m : M People.People A) (s : Parent)
    (a : A) (p : People.People) :
  m (roster s) = Ok a p ->
  in_roster m s = Ok a (mkParent p (waiting s) (emitted s)).
Proof. intros H. unfold in_roster. now rewrite H. Qed.

(** X27. When the server reports that a peer left (or was disconnected)
    with a descriptor that carries its peer id: if the peer has no entry
    in the roster, nothing changes but [onRoomLeft] is announced; if it
    has one (in a roster with one entry per peer) and its connections
    close normally, the entry is removed and [onRoomLeft] is announced;
    if closing its media connection throws, the handler throws, the entry
    stays and nothing is announced. *)
Theorem a_departure_is_announced_unless_closing_fails :
  forall (s : Parent) (data : Value) (p : string),
    WaitingList.nullish data = false ->
    field "peerJsId" data = VStr p ->
    let conns := People.connections (roster s) in
    (~ In p (map People.peerJsId conns) ->
       _handleUserLeftRoom data s
       = Ok tt (mkParent (roster s) (waiting s)
                  (emitted s ++ [("onRoomLeft", data)]))) /\
    (forall c : People.Connection,
       In c conns -> People.peerJsId c = p ->
       People.one_entry_per_peer conns ->
       (People.close_fails (roster s)
          (People.m_handle (People.mediaConnection c)) = false ->
        People.close_fails (roster s)
          (People.d_handle (People.dataConnection c)) = false ->
        exists s' : Parent,
          _handleUserLeftRoom data s = Ok tt s' /\
          ~ In p (map People.peerJsId (People.connections (roster s'))) /\
          waiting s' = waiting s /\
          emitted s' = emitted s ++ [("onRoomLeft", data)]) /\
       (People.close_fails (roster s)
          (People.m_handle (People.mediaConnection c)) = true ->
        throws (_handleUserLeftRoom data s) = true /\
        People.connections (roster (state_of (_handleUserLeftRoom data s)))
          = conns /\
        emitted (state_of (_handleUserLeftRoom data s)) = emitted s)).
Proof.
  intros s data p Hn Hp conns.
  assert (Hstart : _handleUserLeftRoom data s
                   = (in_roster (People.remove p) ;;
                      emit "onRoomLeft" data) s).
  { unfold _handleUserLeftRoom, peerJsId_of. rewrite Hn, Hp.
    unfold bind at 1. unfold ret at 1. reflexivity. }
  rewrite Hstart. clear Hstart. split.
  - intros Habsent. unfold bind.
    rewrite (in_roster_Ok _ s tt _ (PeopleProofs.remove_absent _ p Habsent)).
    reflexivity.
  - intros c Hin Hc Hnd. split.
    + intros Hm Hd.
      destruct (PeopleProofs.remove_present (roster s) p c Hin Hc Hnd Hm Hd)
        as (r1 & Hr1 & _ & Hgone).
      unfold bind. rewrite (in_roster_Ok _ s tt _ Hr1).
      eexists. split; [reflexivity|]. simpl. repeat split. exact Hgone.
    + intros Hm.
      destruct (PeopleProofs.remove_rethrows_close_failure (roster s) p c
                  Hin Hc Hnd Hm) as [Ht Hk].
      unfold bind, in_roster.
      destruct (People.remove p (roster s)) as [a r1|e r1];
        simpl in *; [discriminate|].
      repeat split. exact Hk.
Qed.

Lemma a_departure_is_announced_unless_closing_fails_witness :
  let s := mkParent People.example_roster [] [] in
  let data := WaitingList.descriptor "p1" "Ann" in
  exists s' : Parent,
    _handleUserLeftRoom data s = Ok tt s' /\
    map People.peerJsId (People.connections (roster s')) = ["p2"] /\
    emitted s' = [("onRoomLeft", data)].
Proof.
  intros s data.
  destruct (a_departure_is_announced_unless_closing_fails s data "p1"
              eq_refl eq_refl) as [_ H].
  assert (Hnd : People.one_entry_per_peer
                  (People.connections People.example_roster)).
  { unfold People.one_entry_per_peer. simpl.
    constructor; [simpl; intros [E|[]]; discriminate|].
    constructor; [simpl; tauto | constructor]. }
  destruct (H People.example_entry (or_introl eq_refl) eq_refl Hnd)
    as [Hok _].
  destruct (Hok eq_refl eq_refl) as (s' & Hs' & _ & _ & He).
  exists s'. split; [exact Hs'|]. split; [|exact He].
  assert (E : _handleUserLeftRoom data s
              = Ok tt (state_of (_handleUserLeftRoom data s)))
    by reflexivity.
  rewrite E in Hs'. injection Hs' as <-. reflexivity.
Defined.

End EventHandlersProofs.
